(** * Leaderboard engine of the Classic Games Arcade

    A shallow embedding of the two leaderboard implementations of the
    repository and the properties of its rank engine and reconciliation
    step:

    - [Browser]: [leaderboard.js], the client module with its localStorage
      mirror ([scoreQualifies], [getRank], [localSubmitScore],
      [apiSubmitScore], ...);
    - [Lambda]: [amplify/backend/function/leaderboardApi/index.js], the
      service over a DynamoDB table keyed by [(gameId, rank)]
      ([getRank], [submitScore], [getLeaderboard], [getAllLeaderboards]);
    - [Handler]: the request handler of the service ([exports.handler]);
    - [Client]: the public functions of [leaderboard.js]
      ([getLeaderboard], [getAllLeaderboards], [checkAndSubmitScore]), and
      [Deployed]: the client module wired to the handler;
    - [Display]: [formatScore].

    Modelling conventions.  Scores, ranks and timestamps are JavaScript
    numbers that the code only compares, increments and stores: they are
    integers ([Z]) here.  Strings are [string]; [substring] counts
    characters.  [Date.now()] is an explicit argument [now].  A JavaScript
    object used as a dictionary ([GAMES], the localStorage blob, the result
    of [getAllLeaderboards]) is a finite map of its own properties.  The
    DynamoDB table is a finite map from the primary key [(gameId, rank)] to
    the remaining attributes of the item; [docClient.send] is a state
    transformer on it.  [JSON.stringify]/[JSON.parse] round trips are the
    identity.

    What the model covers.  A finite map of own properties answers a
    lookup [o[key]] as the code does for every [key] but the property
    names an object inherits from [Object.prototype]
    ([Js.inherited_names]): there the code finds the inherited member.
    A write cannot fail in the model; the document client of the code
    refuses a number outside the safe integers ([Js.isSafeInteger]).  A
    statement that depends on the lookup of an unconfigured game id, or
    on a write going through, carries the matching hypothesis
    ([Js.inherited], [Inputs]). *)

From stdpp Require Import gmap strings list sorting pretty.

Local Open Scope string_scope.
Local Open Scope list_scope.
Local Open Scope Z_scope.

(** ** JavaScript array and string primitives used by the code *)

Module Js.

(** [arr.splice(start, 0, x)]: a negative [start] counts from the end, and
    the start position is clamped to [0 .. arr.length]. *)
Definition splice_insert {A} (start : Z) (x : A) (arr : list A) : list A :=
  let len := Z.of_nat (length arr) in
  let actualStart :=
    if start <? 0 then Z.max (len + start) 0 else Z.min start len in
  take (Z.to_nat actualStart) arr ++ x :: drop (Z.to_nat actualStart) arr.

(** [arr.pop()]: drops the last element (nothing on the empty array). *)
Definition pop {A} (arr : list A) : list A :=
  take (length arr - 1)%nat arr.

(** [arr.slice(0, n)] for a non-negative [n]. *)
Definition slice0 {A} (n : nat) (arr : list A) : list A := take n arr.

(** [s.substring(0, n)]. *)
Definition substring0 (n : nat) (s : string) : string :=
  String.substring 0 n s.

(** [Number.MAX_SAFE_INTEGER] and [Number.isSafeInteger] on an integer.
    The DynamoDB document client converts a number attribute only
    within this range and throws outside of it. *)
Definition MAX_SAFE_INTEGER : Z := 2 ^ 53 - 1.

Definition isSafeInteger (n : Z) : bool :=
  (- MAX_SAFE_INTEGER <=? n) && (n <=? MAX_SAFE_INTEGER).

(** The property names of [Object.prototype].  For such a [key] the
    lookup [o[key]] on an object literal, or on an object that
    [JSON.parse] returned, finds the inherited member when [o] has no
    property of its own under [key]. *)
Definition inherited_names : list string :=
  [ "constructor"; "__defineGetter__"; "__defineSetter__";
    "hasOwnProperty"; "__lookupGetter__"; "__lookupSetter__";
    "isPrototypeOf"; "propertyIsEnumerable"; "toString"; "valueOf";
    "__proto__"; "toLocaleString" ].

Definition inherited (key : string) : bool :=
  bool_decide (key ∈ inherited_names).

End Js.

(** ** The wire format shared by both sides *)

Module Api.

(** A leaderboard row as both sides exchange it. *)
Record Entry := mkEntry {
  playerName : string;
  score : Z;
  timestamp : Z
}.

(** The answer to a submission: [{qualified, rank}] with an optional
    [error] field. *)
Record SubmitResult := mkResult {
  qualified : bool;
  rank : Z;
  error : option string
}.

#[global] Instance Entry_eq_dec : EqDecision Entry.
Proof. solve_decision. Defined.

#[global] Instance SubmitResult_eq_dec : EqDecision SubmitResult.
Proof. solve_decision. Defined.

End Api.

(** ** leaderboard.js *)

Module Browser.
Import Api.

Record Game := mkGame {
  name : string;
  scoreType : string;
  metric : string
}.

(** The [GAMES] table (the [icon] field, used only for rendering, is
    left out). *)
Definition GAMES_entries : list (string * Game) :=
  [ ("pong", mkGame "Pong" "high" "wins");
    ("flappy-bird", mkGame "Flappy Bird" "high" "score");
    ("snake", mkGame "Snake" "high" "score");
    ("rooftop-snipers", mkGame "Rooftop Rumble" "high" "wins");
    ("chess", mkGame "Chess" "high" "wins");
    ("city-runner", mkGame "City Runner" "high" "meters");
    ("retro-football", mkGame "Retro Football" "high" "points");
    ("bedtime-berzerk", mkGame "Bedtime Berzerk" "low" "time");
    ("homerun-derby", mkGame "Homerun Derby" "high" "feet") ].

Definition GAMES : gmap string Game := list_to_map GAMES_entries.

Definition MAX_ENTRIES : Z := 10.

Definition not_qualified : SubmitResult := mkResult false (-1) None.

(** The localStorage item under [STORAGE_KEY]: absent, or a mapping from
    game id to the ordered list of entries. *)
Definition Storage : Type := option (gmap string (list Entry)).

Definition emptyLeaderboards : gmap string (list Entry) :=
  list_to_map ((fun kv => (kv.1, [])) <$> GAMES_entries).

Definition initStorage (st : Storage) : Storage :=
  match st with
  | None => Some emptyLeaderboards
  | Some _ => st
  end.

(** [getLocalLeaderboards]: the parsed blob together with the storage
    after [initStorage]. *)
Definition getLocalLeaderboards (st : Storage)
  : gmap string (list Entry) * Storage :=
  match initStorage st with
  | Some leaderboards => (leaderboards, Some leaderboards)
  | None => (emptyLeaderboards, Some emptyLeaderboards)
  end.

Definition saveLocalLeaderboards (leaderboards : gmap string (list Entry))
  : Storage := Some leaderboards.

Definition scoreQualifies (gameId : string) (score : Z)
    (leaderboard : list Entry) : bool :=
  match GAMES !! gameId with
  | None => false
  | Some game =>
      if Z.of_nat (length leaderboard) <? MAX_ENTRIES then true
      else
        match last leaderboard with
        | None => false
        | Some worst =>
            let worstScore := Api.score worst in
            if String.eqb (scoreType game) "high"
            then worstScore <? score
            else score <? worstScore
        end
  end.

(** The [for] loop of [getRank], from index [i] on. *)
Fixpoint getRank_loop (scoreType : string) (score : Z) (i : Z)
    (rest : list Entry) : option Z :=
  match rest with
  | [] => None
  | e :: rest' =>
      if String.eqb scoreType "high" && (Api.score e <? score)
      then Some (i + 1)
      else if String.eqb scoreType "low" && (score <? Api.score e)
      then Some (i + 1)
      else getRank_loop scoreType score (i + 1) rest'
  end.

Definition getRank (gameId : string) (score : Z)
    (leaderboard : list Entry) : Z :=
  match GAMES !! gameId with
  | None => -1
  | Some game =>
      match getRank_loop (scoreType game) score 0 leaderboard with
      | Some r => r
      | None =>
          if Z.of_nat (length leaderboard) <? MAX_ENTRIES
          then Z.of_nat (length leaderboard) + 1
          else -1
      end
  end.

Definition localGetLeaderboard (gameId : string) (st : Storage)
  : list Entry * Storage :=
  let '(leaderboards, st1) := getLocalLeaderboards st in
  (default [] (leaderboards !! gameId), st1).

Definition localGetAllLeaderboards (st : Storage)
  : gmap string (list Entry) * Storage :=
  getLocalLeaderboards st.

Definition localSubmitScore (gameId playerName : string) (score now : Z)
    (st : Storage) : SubmitResult * Storage :=
  let '(leaderboards, st1) := getLocalLeaderboards st in
  let leaderboard := default [] (leaderboards !! gameId) in
  match GAMES !! gameId with
  | None => (not_qualified, st1)
  | Some game =>
      if negb (scoreQualifies gameId score leaderboard)
      then (not_qualified, st1)
      else
        let rank := getRank gameId score leaderboard in
        let newEntry := mkEntry playerName score now in
        let leaderboard1 := Js.splice_insert (rank - 1) newEntry leaderboard in
        let leaderboard2 :=
          if MAX_ENTRIES <? Z.of_nat (length leaderboard1)
          then Js.pop leaderboard1 else leaderboard1 in
        (mkResult true rank None,
         saveLocalLeaderboards (<[gameId := leaderboard2]> leaderboards))
  end.

(** What [fetch] followed by [response.json()] can do: throw (network
    failure), answer with a non-OK status, answer OK with a body that
    does not parse, or answer OK with a parsed body. *)
Inductive FetchOutcome (A : Type) :=
  | FetchThrows
  | ResponseNotOk
  | ResponseBadJson
  | ResponseOk (body : A).
Arguments FetchThrows {A}.
Arguments ResponseNotOk {A}.
Arguments ResponseBadJson {A}.
Arguments ResponseOk {A} body.

(** The [try] block of the three [api*] functions: [Some body] when it
    returns, [None] when control reaches the [catch] clause. *)
Definition try_fetch {A} (o : FetchOutcome A) : option A :=
  match o with
  | ResponseOk body => Some body
  | _ => None
  end.

(** A call returns its value, the storage afterwards and the lines
    written with [console.error]. *)
Definition apiSubmitScore (remote : FetchOutcome SubmitResult)
    (gameId playerName : string) (score now : Z) (st : Storage)
  : SubmitResult * Storage * list string :=
  match try_fetch remote with
  | Some body => (body, st, [])
  | None =>
      let '(r, st') := localSubmitScore gameId playerName score now st in
      (r, st', ["Failed to submit score:"])
  end.

Definition apiGetLeaderboard (remote : FetchOutcome (list Entry))
    (gameId : string) (st : Storage)
  : list Entry * Storage * list string :=
  match try_fetch remote with
  | Some body => (body, st, [])
  | None =>
      let '(r, st') := localGetLeaderboard gameId st in
      (r, st', ["Failed to fetch leaderboard:"])
  end.

Definition apiGetAllLeaderboards
    (remote : FetchOutcome (gmap string (list Entry))) (st : Storage)
  : gmap string (list Entry) * Storage * list string :=
  match try_fetch remote with
  | Some body => (body, st, [])
  | None =>
      let '(r, st') := localGetAllLeaderboards st in
      (r, st', ["Failed to fetch all leaderboards:"])
  end.

End Browser.

(** ** amplify/backend/function/leaderboardApi/index.js *)

Module Lambda.
Import Api.

Definition MAX_ENTRIES : Z := 10.

Module Game.
Record t := mk { scoreType : string }.
End Game.

Definition GAMES_entries : list (string * Game.t) :=
  [ ("pong", Game.mk "high");
    ("flappy-bird", Game.mk "high");
    ("snake", Game.mk "high");
    ("rooftop-snipers", Game.mk "high");
    ("chess", Game.mk "high");
    ("city-runner", Game.mk "high");
    ("retro-football", Game.mk "high");
    ("bedtime-berzerk", Game.mk "low") ].

Definition GAMES : gmap string Game.t := list_to_map GAMES_entries.

(** The non-key attributes of a stored item. *)
Module Attrs.
Record t := mk {
  playerName : string;
  score : Z;
  timestamp : Z;
  scoreType : string
}.
End Attrs.

(** An item of the table as the code handles it. *)
Module Item.
Record t := mk {
  gameId : string;
  rank : Z;
  playerName : string;
  score : Z;
  timestamp : Z;
  scoreType : string
}.

Definition attrs (it : t) : Attrs.t :=
  Attrs.mk (playerName it) (score it) (timestamp it) (scoreType it).

Definition make (g : string) (r : Z) (a : Attrs.t) : t :=
  mk g r (Attrs.playerName a) (Attrs.score a) (Attrs.timestamp a)
     (Attrs.scoreType a).

(** [{ ...entry, rank: r }] *)
Definition with_rank (entry : t) (r : Z) : t :=
  mk (gameId entry) r (playerName entry) (score entry) (timestamp entry)
     (scoreType entry).

(** [{ playerName, score, timestamp }] *)
Definition project (it : t) : Entry :=
  mkEntry (playerName it) (score it) (timestamp it).

(** The comparator [(a, b) => a.rank - b.rank]. *)
Definition rank_le (a b : t) : Prop := rank a <= rank b.

#[global] Instance rank_le_dec : RelDecision rank_le.
Proof. intros a b. unfold rank_le. apply _. Defined.
End Item.

(** The objects [getAllLeaderboards] pushes while it groups the scan. *)
Module Ranked.
Record t := mk {
  playerName : string;
  score : Z;
  timestamp : Z;
  rank : Z
}.

Definition of_item (item : Item.t) : t :=
  mk (Item.playerName item) (Item.score item) (Item.timestamp item)
     (Item.rank item).

Definition project (e : t) : Entry :=
  mkEntry (playerName e) (score e) (timestamp e).

Definition rank_le (a b : t) : Prop := rank a <= rank b.

#[global] Instance rank_le_dec : RelDecision rank_le.
Proof. intros a b. unfold rank_le. apply _. Defined.
End Ranked.

(** The table [GameLeaderboards]: partition key [gameId], sort key
    [rank]. *)
Abbreviation Table := (gmap (string * Z) Attrs.t).

Inductive Command :=
  | PutCommand (Item : Item.t)
  | DeleteCommand (gameId : string) (rank : Z).

(** [docClient.send] of a write: a put replaces the item under the same
    primary key, a delete of an absent key does nothing. *)
Definition send (c : Command) (tbl : Table) : Table :=
  match c with
  | PutCommand it => <[(Item.gameId it, Item.rank it) := Item.attrs it]> tbl
  | DeleteCommand g r => delete (g, r) tbl
  end.

Definition send_all (cs : list Command) (tbl : Table) : Table :=
  foldl (fun t c => send c t) tbl cs.

(** The items of one partition, in the order the map lists them. *)
Definition partition_items (g : string) (tbl : Table) : list Item.t :=
  omap (fun kv : string * Z * Attrs.t =>
          if decide (kv.1.1 = g) then Some (Item.make g kv.1.2 kv.2)
          else None)
       (map_to_list tbl).

(** [QueryCommand] on [gameId = g]: the partition in ascending sort-key
    order, cut after [Limit] items when a limit is given. *)
Definition Query (g : string) (Limit : option nat) (tbl : Table)
  : list Item.t :=
  let items := merge_sort Item.rank_le (partition_items g tbl) in
  match Limit with
  | Some n => take n items
  | None => items
  end.

(** [ScanCommand]: every item of the table. *)
Definition Scan (tbl : Table) : list Item.t :=
  (fun kv : string * Z * Attrs.t => Item.make kv.1.1 kv.1.2 kv.2)
    <$> map_to_list tbl.

Definition getLeaderboard (gameId : string) (tbl : Table) : list Entry :=
  let items := Query gameId (Some (Z.to_nat MAX_ENTRIES)) tbl in
  Item.project <$> merge_sort Item.rank_le items.

Definition getLeaderboardWithRanks (gameId : string) (tbl : Table)
  : list Item.t :=
  merge_sort Item.rank_le (Query gameId None tbl).

(** One pass of the loop of [getAllLeaderboards] that groups the scanned
    items by game. *)
Definition group_item (result : gmap string (list Ranked.t))
    (item : Item.t) : gmap string (list Ranked.t) :=
  let g := Item.gameId item in
  let result1 :=
    match result !! g with
    | None => <[g := []]> result
    | Some _ => result
    end in
  <[g := default [] (result1 !! g) ++ [Ranked.of_item item]]> result1.

Definition getAllLeaderboards (tbl : Table) : gmap string (list Entry) :=
  let result0 : gmap string (list Ranked.t) :=
    list_to_map ((fun kv => (kv.1, [])) <$> GAMES_entries) in
  let result1 := foldl group_item result0 (Scan tbl) in
  (fun group =>
     Ranked.project <$> Js.slice0 3 (merge_sort Ranked.rank_le group))
    <$> result1.

(** The scanning loop shared by both branches of [getRank]. *)
Fixpoint getRank_loop (scoreType : string) (score : Z) (i : Z)
    (rest : list Item.t) : option Z :=
  match rest with
  | [] => None
  | e :: rest' =>
      if String.eqb scoreType "high" && (Item.score e <? score)
      then Some (i + 1)
      else if String.eqb scoreType "low" && (score <? Item.score e)
      then Some (i + 1)
      else getRank_loop scoreType score (i + 1) rest'
  end.

Definition getRank (scoreType : string) (score : Z)
    (leaderboard : list Item.t) : Z :=
  if Z.of_nat (length leaderboard) <? MAX_ENTRIES then
    match getRank_loop scoreType score 0 leaderboard with
    | Some r => r
    | None => Z.of_nat (length leaderboard) + 1
    end
  else
    match getRank_loop scoreType score 0 leaderboard with
    | Some r => r
    | None => -1
    end.

(** The writes of the shift loop, in the order the loop issues them. *)
Definition shift_commands (gameId : string)
    (entriesToUpdate : list Item.t) : list Command :=
  (fun entry =>
     if Item.rank entry <? MAX_ENTRIES
     then PutCommand (Item.with_rank entry (Item.rank entry + 1))
     else DeleteCommand gameId (Item.rank entry))
    <$> entriesToUpdate.

(** Every write [submitScore] sends for a qualifying rank, in order. *)
Definition submitScore_commands (gameId : string) (newEntry : Item.t)
    (rank : Z) (leaderboard : list Item.t) : list Command :=
  let entriesToUpdate :=
    filter (fun e => rank <= Item.rank e) leaderboard in
  shift_commands gameId entriesToUpdate
    ++ [PutCommand newEntry; DeleteCommand gameId (MAX_ENTRIES + 1)].

Definition submitScore (gameId playerName : string) (score now : Z)
    (tbl : Table) : SubmitResult * Table :=
  match GAMES !! gameId with
  | None => (mkResult false (-1) (Some "Unknown game"), tbl)
  | Some game =>
      let leaderboard := getLeaderboardWithRanks gameId tbl in
      let rank := getRank (Game.scoreType game) score leaderboard in
      if rank =? -1 then (mkResult false (-1) None, tbl)
      else
        let newEntry :=
          Item.mk gameId rank (Js.substring0 10 playerName) score now
                  (Game.scoreType game) in
        (mkResult true rank None,
         send_all (submitScore_commands gameId newEntry rank leaderboard)
                  tbl)
  end.

End Lambda.

(** ** The rank rule and the ordering invariant in the specification's words *)

Module Spec.

Inductive Direction := HigherIsBetter | LowerIsBetter.

Definition NOT_QUALIFIED : Z := -1.

(** The new score strictly beats an existing one. *)
Definition beats (direction : Direction) (new old : Z) : Prop :=
  match direction with
  | HigherIsBetter => old < new
  | LowerIsBetter => new < old
  end.

#[global] Instance beats_dec d new old : Decision (beats d new old).
Proof. destruct d; simpl; apply _. Defined.

(** [computeRank]: the first beaten entry decides; otherwise append when
    there is room, reject when the list is full. *)
Definition computeRank (score : Z) (sortedEntries : list Z)
    (direction : Direction) (capacity : Z) : Z :=
  match list_find (beats direction score) sortedEntries with
  | Some (i, _) => Z.of_nat i + 1
  | None =>
      if decide (Z.of_nat (length sortedEntries) < capacity)
      then Z.of_nat (length sortedEntries) + 1
      else NOT_QUALIFIED
  end.

(** The direction a [scoreType] string denotes. *)
Definition direction_of (scoreType : string) : option Direction :=
  if String.eqb scoreType "high" then Some HigherIsBetter
  else if String.eqb scoreType "low" then Some LowerIsBetter
  else None.

(** Scores strictly ordered, best first. *)
Definition strictly_ordered (d : Direction) (scores : list Z) : Prop :=
  StronglySorted (fun a b => beats d a b) scores.

(** Scores ordered best first, equal scores allowed: no score strictly
    beats one before it. *)
Definition ordered (d : Direction) (scores : list Z) : Prop :=
  StronglySorted (fun a b => ~ beats d b a) scores.

(** The list that results from placing [x] at 1-based rank [r]. *)
Definition insert_at {A} (r : Z) (x : A) (l : list A) : list A :=
  take (Z.to_nat (r - 1)) l ++ x :: drop (Z.to_nat (r - 1)) l.

End Spec.

(** ** Views of the table used to state the properties *)

Module Abs.
Import Lambda.

Definition rank_lt (a b : Item.t) : Prop := Item.rank a < Item.rank b.

(** The items that store the list [l] at ranks 1, 2, ... of the
    partition [g]. *)
Definition renumber (g : string) (l : list Attrs.t) : list Item.t :=
  imap (fun i a => Item.make g (Z.of_nat i + 1) a) l.

(** The partition [g] of the table holds exactly the list [l], its
    [i]-th element (from 0) under rank [i + 1]. *)
Definition holds (tbl : Table) (g : string) (l : list Attrs.t) : Prop :=
  forall r : Z,
    tbl !! (g, r) = if decide (1 <= r) then l !! Z.to_nat (r - 1) else None.

(** The ranks of a snapshot are 1, 2, ..., n: no gap, no duplicate. *)
Definition dense (leaderboard : list Item.t) : Prop :=
  Item.rank <$> leaderboard = seqZ 1 (Z.of_nat (length leaderboard)).

(** What the writes of a qualifying submission at rank [t] make of the
    list [l] of a partition: the new element at rank [t], the elements
    from rank [t] on one rank down, the list cut after [MAX_ENTRIES]
    elements, and after one element less when the list was full and [t]
    is not the last rank. *)
Definition reconciled {A} (t : Z) (x : A) (l : list A) : list A :=
  take (if decide (Z.of_nat (length l) = MAX_ENTRIES /\ t < MAX_ENTRIES)
        then 9%nat else 10%nat)
       (Spec.insert_at t x l).

(** The item [submitScore] builds for a qualifying submission. *)
Definition newEntry_of (g : string) (game : Game.t) (playerName : string)
    (score now : Z) (rank : Z) : Item.t :=
  Item.mk g rank (Js.substring0 10 playerName) score now
          (Game.scoreType game).

(** Every partition of the table reads as a consistent snapshot: ranks
    exactly 1 .. n with n within the capacity, scores ordered best first
    for a configured game. *)
Definition consistent (tbl : Table) : Prop :=
  forall g : string,
    let S := getLeaderboardWithRanks g tbl in
    dense S /\ Z.of_nat (length S) <= MAX_ENTRIES
    /\ forall game d,
         GAMES !! g = Some game ->
         Spec.direction_of (Game.scoreType game) = Some d ->
         Spec.ordered d (Item.score <$> S).

(** Every list of the local mirror that belongs to a configured game is
    within the capacity and ordered best first. *)
Definition local_consistent (st : Browser.Storage) : Prop :=
  forall g game d,
    Browser.GAMES !! g = Some game ->
    Spec.direction_of (Browser.scoreType game) = Some d ->
    let lb := (Browser.localGetLeaderboard g st).1 in
    Z.of_nat (length lb) <= Browser.MAX_ENTRIES
    /\ Spec.ordered d (Api.score <$> lb).

(** No item of the table is stored outside the ranks 1 .. MAX_ENTRIES. *)
Definition ranks_bounded (tbl : Table) : Prop :=
  forall (g : string) (r : Z),
    is_Some (tbl !! (g, r)) -> 1 <= r <= MAX_ENTRIES.

End Abs.

(** ** Sequences of submissions *)

Module Runs.

Record Submission := mkSubmission {
  gameId : string;
  playerName : string;
  score : Z;
  now : Z
}.

(** The table after the submissions [subs], one after the other. *)
Definition remote (subs : list Submission) (tbl : Lambda.Table)
  : Lambda.Table :=
  foldl (fun t s =>
           (Lambda.submitScore (gameId s) (playerName s) (score s) (now s)
                               t).2)
        tbl subs.

(** The local mirror after the submissions [subs]. *)
Definition local (subs : list Submission) (st : Browser.Storage)
  : Browser.Storage :=
  foldl (fun st s =>
           (Browser.localSubmitScore (gameId s) (playerName s) (score s)
                                     (now s) st).2)
        st subs.

End Runs.

(** ** Running examples *)

Module Examples.
Import Api.

(** The scores of the full HigherIsBetter board of the scenarios. *)
Definition full_scores : list Z := [100; 90; 80; 70; 60; 50; 40; 30; 20; 10].

(** The submissions of [scores], one after the other, for [gameId] by
    player ["P"] at time 0. *)
Definition submissions (gameId : string) (scores : list Z)
  : list Runs.Submission :=
  (fun sc => Runs.mkSubmission gameId "P" sc 0) <$> scores.

Definition local_after (gameId : string) (scores : list Z)
    (st : Browser.Storage) : Browser.Storage :=
  Runs.local (submissions gameId scores) st.

Definition remote_after (gameId : string) (scores : list Z)
    (tbl : Lambda.Table) : Lambda.Table :=
  Runs.remote (submissions gameId scores) tbl.

(** A write reduced to its kind, the rank it addresses and, for a put,
    the score it stores. *)
Inductive Written :=
  | Put (rank score : Z)
  | Delete (rank : Z).

Definition written (c : Lambda.Command) : Written :=
  match c with
  | Lambda.PutCommand it => Put (Lambda.Item.rank it) (Lambda.Item.score it)
  | Lambda.DeleteCommand _ r => Delete r
  end.

Definition local_scores (gameId : string) (st : Browser.Storage) : list Z :=
  Api.score <$> (Browser.localGetLeaderboard gameId st).1.

Definition remote_scores (gameId : string) (tbl : Lambda.Table) : list Z :=
  Api.score <$> Lambda.getLeaderboard gameId tbl.

End Examples.

(** ** The request handler of the Lambda *)

Module Handler.
Import Api.

(** [event.body] after [JSON.parse(event.body || '{}')] and the
    destructuring [{ playerName, score }]: the text does not parse, or it
    yields the two fields, each possibly undefined.  A present
    [playerName] is taken to be a string and a present [score] a number;
    a missing body gives both fields undefined. *)
Inductive Body :=
  | Malformed
  | Fields (playerName : option string) (score : option Z).

(** The parts of the API Gateway event the handler reads:
    [event.httpMethod], [event.pathParameters?.gameId] and the body. *)
Record Event := mkEvent {
  httpMethod : string;
  gameId : option string;
  body : Body
}.

(** The value the handler passes to [JSON.stringify] for the body of the
    response; the empty body of the preflight answer is [NoContent]. *)
Inductive Payload :=
  | NoContent
  | LeaderboardJson (leaderboard : list Entry)
  | AllLeaderboardsJson (allLeaderboards : gmap string (list Entry))
  | ResultJson (result : SubmitResult)
  | ErrorJson (error : string).

(** The response, without the constant CORS headers. *)
Record Response := mkResponse {
  statusCode : Z;
  payload : Payload
}.

(** Truthiness of an optional string: undefined and [''] are falsy. *)
Definition truthy (s : option string) : bool :=
  match s with
  | Some s => negb (String.eqb s "")
  | None => false
  end.

Definition handler (event : Event) (now : Z) (tbl : Lambda.Table)
  : Response * Lambda.Table :=
  if String.eqb (httpMethod event) "OPTIONS"
  then (mkResponse 200 NoContent, tbl)
  else if String.eqb (httpMethod event) "GET" then
    if truthy (gameId event)
    then (mkResponse 200
            (LeaderboardJson
               (Lambda.getLeaderboard (default "" (gameId event)) tbl)),
          tbl)
    else (mkResponse 200 (AllLeaderboardsJson (Lambda.getAllLeaderboards tbl)),
          tbl)
  else if String.eqb (httpMethod event) "POST" && truthy (gameId event) then
    match body event with
    | Malformed => (mkResponse 500 (ErrorJson "Internal server error"), tbl)
    | Fields playerName score =>
        match score with
        | Some score' =>
            if truthy playerName then
              let '(result, tbl') :=
                Lambda.submitScore (default "" (gameId event))
                                   (default "" playerName) score' now tbl in
              (mkResponse 200 (ResultJson result), tbl')
            else
              (mkResponse 400
                 (ErrorJson "playerName and score are required"), tbl)
        | None =>
            (mkResponse 400 (ErrorJson "playerName and score are required"),
             tbl)
        end
    end
  else (mkResponse 404 (ErrorJson "Not found"), tbl).

End Handler.

(** ** The inputs the model covers *)

Module Inputs.

(** No item of the table carries a game id that is an inherited property
    name. *)
Definition own_ids (tbl : Lambda.Table) : Prop :=
  map_Forall (fun (k : string * Z) (_ : Lambda.Attrs.t) =>
                Js.inherited k.1 = false) tbl.

(** Every number stored in the table is one the document client reads
    and writes: the rank, the score and the timestamp of each item. *)
Definition safe_numbers (tbl : Lambda.Table) : Prop :=
  map_Forall (fun (k : string * Z) (a : Lambda.Attrs.t) =>
                Js.isSafeInteger k.2 = true
                /\ Js.isSafeInteger (Lambda.Attrs.score a) = true
                /\ Js.isSafeInteger (Lambda.Attrs.timestamp a) = true) tbl.

(** The game id of the request is no inherited property name, and a
    score in its body is a safe integer. *)
Definition covered (event : Handler.Event) : bool :=
  match Handler.gameId event with
  | Some g => negb (Js.inherited g)
  | None => true
  end
  && match Handler.body event with
     | Handler.Fields _ (Some score) => Js.isSafeInteger score
     | _ => true
     end.

End Inputs.

(** ** The public functions of leaderboard.js *)

Module Client.
Import Api Browser.

(** The server as the module reaches it with [fetch], over a server state
    [R]: what each of the three requests answers, and the state the POST
    leaves. *)
Record Remote (R : Type) := mkRemote {
  fetch_scores_of : string -> R -> FetchOutcome (list Entry);
  fetch_scores : R -> FetchOutcome (gmap string (list Entry));
  post_score : string -> string -> Z -> R -> FetchOutcome SubmitResult * R
}.
Arguments mkRemote {R}.
Arguments fetch_scores_of {R}.
Arguments fetch_scores {R}.
Arguments post_score {R}.

(** What a call leaves behind: the localStorage, the server state, the
    name prompts shown, as [(rank, gameId)], and the lines written with
    [console.error]. *)
Record World (R : Type) := mkWorld {
  storage : Storage;
  server : R;
  prompts : list (Z * string);
  errors : list string
}.
Arguments mkWorld {R}.
Arguments storage {R}.
Arguments server {R}.
Arguments prompts {R}.
Arguments errors {R}.

Section PublicApi.
Context {R : Type}.

(** [isLocal], the server, and the player at the name prompt:
    [inputValue rank gameId] is [input.value.trim()] at the moment the
    player submits the prompt shown for [rank] and [gameId]. *)
Variable isLocal : bool.
Variable remote : Remote R.
Variable inputValue : Z -> string -> string.

(** The name the promise of [showNamePrompt] resolves to, in [submit]:
    [input.value.trim() || 'Anonymous']. *)
Definition showNamePrompt (rank : Z) (gameId : string) : string :=
  let value := inputValue rank gameId in
  if String.eqb value "" then "Anonymous" else value.

Definition getLeaderboard (gameId : string) (w : World R)
  : list Entry * World R :=
  if isLocal then
    let '(leaderboard, st) := localGetLeaderboard gameId (storage w) in
    (leaderboard, mkWorld st (server w) (prompts w) (errors w))
  else
    let '(leaderboard, st, log) :=
      apiGetLeaderboard (fetch_scores_of remote gameId (server w)) gameId
                        (storage w) in
    (leaderboard, mkWorld st (server w) (prompts w) (errors w ++ log)).

Definition getAllLeaderboards (w : World R)
  : gmap string (list Entry) * World R :=
  if isLocal then
    let '(leaderboards, st) := localGetAllLeaderboards (storage w) in
    (leaderboards, mkWorld st (server w) (prompts w) (errors w))
  else
    let '(leaderboards, st, log) :=
      apiGetAllLeaderboards (fetch_scores remote (server w)) (storage w) in
    (leaderboards, mkWorld st (server w) (prompts w) (errors w ++ log)).

Definition checkAndSubmitScore (gameId : string) (score now : Z)
    (w : World R) : SubmitResult * World R :=
  let '(leaderboard, w1) := getLeaderboard gameId w in
  if negb (scoreQualifies gameId score leaderboard)
  then (not_qualified, w1)
  else
    let rank := getRank gameId score leaderboard in
    let playerName := showNamePrompt rank gameId in
    let shown := prompts w1 ++ [(rank, gameId)] in
    if isLocal then
      let '(result, st) :=
        localSubmitScore gameId playerName score now (storage w1) in
      (result, mkWorld st (server w1) shown (errors w1))
    else
      let '(outcome, srv) :=
        post_score remote gameId playerName score (server w1) in
      let '(result, st, log) :=
        apiSubmitScore outcome gameId playerName score now (storage w1) in
      (result, mkWorld st srv shown (errors w1 ++ log)).

End PublicApi.

End Client.

(** ** The module deployed against the Lambda *)

Module Deployed.
Import Api Browser.

(** [response.ok] and [response.json()], for the body the request is
    expected to carry: a status outside 200..299 is not OK.  The handler
    answers a request for a non-empty game id with a body of the expected
    shape; a body of another shape, which only the empty game id can
    get, is treated as one that does not parse. *)
Definition ok (response : Handler.Response) : bool :=
  (200 <=? Handler.statusCode response)
  && (Handler.statusCode response <=? 299).

Definition leaderboard_of (response : Handler.Response)
  : FetchOutcome (list Entry) :=
  if ok response then
    match Handler.payload response with
    | Handler.LeaderboardJson l => ResponseOk l
    | _ => ResponseBadJson
    end
  else ResponseNotOk.

Definition allLeaderboards_of (response : Handler.Response)
  : FetchOutcome (gmap string (list Entry)) :=
  if ok response then
    match Handler.payload response with
    | Handler.AllLeaderboardsJson m => ResponseOk m
    | _ => ResponseBadJson
    end
  else ResponseNotOk.

Definition result_of (response : Handler.Response)
  : FetchOutcome SubmitResult :=
  if ok response then
    match Handler.payload response with
    | Handler.ResultJson r => ResponseOk r
    | _ => ResponseBadJson
    end
  else ResponseNotOk.

(** The Lambda behind API Gateway, reached: [GET /scores/{gameId}],
    [GET /scores] and [POST /scores/{gameId}] with the body
    [{ playerName, score }]; [serverNow] is the server's clock. *)
Definition lambda (serverNow : Z) : Client.Remote Lambda.Table :=
  Client.mkRemote
    (fun gameId tbl =>
       leaderboard_of
         (Handler.handler
            (Handler.mkEvent "GET" (Some gameId) (Handler.Fields None None))
            serverNow tbl).1)
    (fun tbl =>
       allLeaderboards_of
         (Handler.handler
            (Handler.mkEvent "GET" None (Handler.Fields None None))
            serverNow tbl).1)
    (fun gameId playerName score tbl =>
       let out :=
         Handler.handler
           (Handler.mkEvent "POST" (Some gameId)
              (Handler.Fields (Some playerName) (Some score)))
           serverNow tbl in
       (result_of out.1, out.2)).

(** A server that cannot be reached: every [fetch] throws. *)
Definition unreachable : Client.Remote unit :=
  Client.mkRemote (fun _ _ => FetchThrows) (fun _ => FetchThrows)
                  (fun _ _ _ u => (FetchThrows, u)).

End Deployed.

(** ** Formatting a score for display *)

Module Display.
Import Browser.

(** [n.toString()] of an integer, in decimal; JavaScript prints all the
    digits of an integer below [10^21] in absolute value. *)
Definition toString (n : Z) : string := pretty n.

Fixpoint zeros (n : nat) : string :=
  match n with
  | O => ""
  | S n' => "0" +:+ zeros n'
  end.

(** [s.padStart(targetLength, '0')]. *)
Definition padStart (targetLength : nat) (s : string) : string :=
  zeros (targetLength - String.length s) +:+ s.

Section FormatScore.

(** [score.toLocaleString()], which depends on the locale of the
    browser. *)
Variable toLocaleString : Z -> string.

(** [Math.floor(score / 1000)] is the floor division of [Z], and [%]
    the remainder with the sign of the dividend; [Math.floor(score)] of
    an integer score is the score. *)
Definition formatScore (gameId : string) (score : Z) : string :=
  match GAMES !! gameId with
  | None => toString score
  | Some game =>
      if String.eqb (metric game) "time" then
        let totalSeconds := score / 1000 in
        let minutes := totalSeconds / 60 in
        let seconds := Z.rem totalSeconds 60 in
        toString minutes +:+ ":" +:+ padStart 2 (toString seconds)
      else if String.eqb (metric game) "meters" then
        toString score +:+ "m"
      else if String.eqb (metric game) "feet" then
        toString score +:+ " ft"
      else if String.eqb (metric game) "points"
              || String.eqb (metric game) "score" then
        toLocaleString score
      else if String.eqb (metric game) "wins" then
        if score =? 1 then "1 win" else toString score +:+ " wins"
      else toString score
  end.

End FormatScore.

(** Whether a string has a colon, the separator of the time format. *)
Fixpoint has_colon (s : string) : bool :=
  match s with
  | EmptyString => false
  | String c s' => String.eqb (String c "") ":" || has_colon s'
  end.

End Display.


(** * Properties *)

(** ** The comparators are total preorders on the ranks *)

#[global] Instance Item_rank_le_trans : Transitive Lambda.Item.rank_le.
Proof. intros a b c. unfold Lambda.Item.rank_le. lia. Qed.

#[global] Instance Item_rank_le_total : Total Lambda.Item.rank_le.
Proof. intros a b. unfold Lambda.Item.rank_le. lia. Qed.

#[global] Instance Ranked_rank_le_trans : Transitive Lambda.Ranked.rank_le.
Proof. intros a b c. unfold Lambda.Ranked.rank_le. lia. Qed.

#[global] Instance Ranked_rank_le_total : Total Lambda.Ranked.rank_le.
Proof. intros a b. unfold Lambda.Ranked.rank_le. lia. Qed.

(** ** The rank engine *)

Section RankEngine.
Import Api Spec.

Lemma direction_of_inv scoreType d :
  direction_of scoreType = Some d →
  (scoreType = "high" ∧ d = HigherIsBetter)
  ∨ (scoreType = "low" ∧ d = LowerIsBetter).
Proof.
  unfold direction_of.
  destruct (String.eqb_spec scoreType "high") as [->|_]; [naive_solver|].
  destruct (String.eqb_spec scoreType "low") as [->|_]; naive_solver.
Qed.

Lemma beats_irrefl d s : ¬ beats d s s.
Proof. destruct d; simpl; lia. Qed.

Lemma beats_trans_weak d a b c : beats d a b → ¬ beats d c b → beats d a c.
Proof. destruct d; simpl; lia. Qed.

Lemma not_beats_trans d a b c :
  ¬ beats d b a → ¬ beats d c b → ¬ beats d c a.
Proof. destruct d; simpl; lia. Qed.

Lemma strictly_ordered_ordered d scores :
  strictly_ordered d scores → ordered d scores.
Proof.
  unfold strictly_ordered, ordered. induction 1 as [|a l _ IH Ha].
  - constructor.
  - constructor; [done|].
    eapply Forall_impl; [exact Ha|]. destruct d; simpl; lia.
Qed.

(** The loop of the Lambda is the loop of the browser module on the
    projected entries. *)
Lemma Lambda_loop_project scoreType score i items :
  Lambda.getRank_loop scoreType score i items
  = Browser.getRank_loop scoreType score i (Lambda.Item.project <$> items).
Proof.
  revert i. induction items as [|e items IH]; intros i; simpl; [done|].
  by rewrite IH.
Qed.

(** The loop finds the first beaten entry. *)
Lemma getRank_loop_find scoreType d score i leaderboard :
  direction_of scoreType = Some d →
  Browser.getRank_loop scoreType score i leaderboard
  = (λ kx : nat * Z, i + Z.of_nat kx.1 + 1)
      <$> list_find (beats d score) (Api.score <$> leaderboard).
Proof.
  intros Hd. revert i.
  induction leaderboard as [|e lb IH]; intros i; [done|].
  cbn [Browser.getRank_loop fmap list_fmap list_find].
  rewrite IH.
  destruct (direction_of_inv _ _ Hd) as [[-> ->]|[-> ->]]; simpl;
    case_decide; case_match; try lia; simpl; try (f_equal; lia);
    destruct (list_find _ _) as [[k x]|]; simpl; try done; f_equal; lia.
Qed.

Lemma computeRank_browser gameId game d score leaderboard :
  Browser.GAMES !! gameId = Some game →
  direction_of (Browser.scoreType game) = Some d →
  Browser.getRank gameId score leaderboard
  = computeRank score (Api.score <$> leaderboard) d Browser.MAX_ENTRIES.
Proof.
  intros Hg Hd. unfold Browser.getRank, computeRank. rewrite Hg.
  rewrite (getRank_loop_find _ d) by done.
  rewrite length_fmap.
  destruct (list_find _ _) as [[k x]|]; simpl; [lia|].
  case_decide; case_match; try lia; done.
Qed.

Lemma computeRank_lambda scoreType d score leaderboard :
  direction_of scoreType = Some d →
  Lambda.getRank scoreType score leaderboard
  = computeRank score (Lambda.Item.score <$> leaderboard) d
                Lambda.MAX_ENTRIES.
Proof.
  intros Hd. unfold Lambda.getRank, computeRank.
  rewrite Lambda_loop_project, (getRank_loop_find _ d) by done.
  rewrite <- list_fmap_compose, length_fmap.
  change (Api.score ∘ Lambda.Item.project) with Lambda.Item.score.
  destruct (list_find _ _) as [[k x]|]; simpl;
    case_match; try case_decide; try lia; done.
Qed.

(** Every configured game is scored ["high"] or ["low"]. *)
Lemma Browser_GAMES_direction gameId game :
  Browser.GAMES !! gameId = Some game →
  ∃ d, direction_of (Browser.scoreType game) = Some d.
Proof.
  intros H. apply elem_of_list_to_map_2 in H.
  unfold Browser.GAMES_entries in H.
  repeat (apply elem_of_cons in H as [H|H];
          [injection H as -> ->; eexists; reflexivity|]).
  by apply elem_of_nil in H.
Qed.

Lemma Lambda_GAMES_direction gameId game :
  Lambda.GAMES !! gameId = Some game →
  ∃ d, direction_of (Lambda.Game.scoreType game) = Some d.
Proof.
  intros H. apply elem_of_list_to_map_2 in H.
  unfold Lambda.GAMES_entries in H.
  repeat (apply elem_of_cons in H as [H|H];
          [injection H as -> ->; eexists; reflexivity|]).
  by apply elem_of_nil in H.
Qed.

(** The range of [computeRank]. *)
Lemma computeRank_range score scores d capacity :
  let r := computeRank score scores d capacity in
  r = NOT_QUALIFIED ∧ capacity <= Z.of_nat (length scores)
  ∨ 1 <= r <= Z.of_nat (length scores) + 1
    ∧ (capacity <= Z.of_nat (length scores) → r <= Z.of_nat (length scores)).
Proof.
  unfold computeRank.
  destruct (list_find _ _) as [[k x]|] eqn:Hf.
  - apply list_find_Some in Hf as (Hk & _ & _).
    apply lookup_lt_Some in Hk. right. lia.
  - case_decide; [right; lia | left; unfold NOT_QUALIFIED; lia].
Qed.

(** In an ordered list every entry is at least as good as the last. *)
Lemma ordered_last d scores i a w :
  ordered d scores → scores !! i = Some a → last scores = Some w →
  ¬ beats d w a.
Proof.
  intros Hs Hi Hw. apply last_Some in Hw as [l' ->].
  destruct (decide (i < length l')%nat) as [Hlt|Hge].
  - rewrite lookup_app_l in Hi by done.
    apply (StronglySorted_app_1_elem_of _ l' [w] a w Hs); [|set_solver].
    by eapply list_elem_of_lookup_2.
  - rewrite lookup_app_r in Hi by lia.
    destruct (i - length l')%nat; simpl in Hi; [|done].
    injection Hi as ->. apply beats_irrefl.
Qed.

Lemma ordered_lookup d scores i j a b :
  ordered d scores → (i < j)%nat →
  scores !! i = Some a → scores !! j = Some b → ¬ beats d b a.
Proof.
  intros Hs Hij Hi Hj.
  rewrite <- (take_drop j scores) in Hs, Hi.
  rewrite lookup_app_l in Hi
    by (rewrite length_take; apply lookup_lt_Some in Hj; lia).
  apply (StronglySorted_app_1_elem_of _ _ _ a b Hs).
  - by eapply list_elem_of_lookup_2.
  - eapply list_elem_of_lookup_2. rewrite lookup_drop.
    by rewrite Nat.add_0_r.
Qed.

(** A tie is placed behind the entry it ties with. *)
Lemma computeRank_tie d score scores j capacity :
  ordered d scores → scores !! j = Some score →
  let r := computeRank score scores d capacity in
  r = NOT_QUALIFIED ∨ Z.of_nat j + 1 < r.
Proof.
  intros Hs Hj. unfold computeRank.
  destruct (list_find _ _) as [[k x]|] eqn:Hf.
  - right. apply list_find_Some in Hf as (Hk & Hb & _).
    destruct (decide (k < j)%nat) as [Hlt|Hge].
    { exfalso. by eapply (ordered_lookup d scores k j). }
    destruct (decide (k = j)) as [->|Hne]; [|lia].
    exfalso. rewrite Hj in Hk. injection Hk as <-.
    by eapply beats_irrefl.
  - apply list_find_None in Hf. case_decide; [right|by left].
    apply lookup_lt_Some in Hj. lia.
Qed.

(** Qualification agrees with rank computation on ordered lists. *)
Lemma scoreQualifies_getRank_ordered gameId game d score leaderboard :
  Browser.GAMES !! gameId = Some game →
  direction_of (Browser.scoreType game) = Some d →
  ordered d (Api.score <$> leaderboard) →
  Browser.scoreQualifies gameId score leaderboard = true
  ↔ Browser.getRank gameId score leaderboard ≠ -1.
Proof.
  intros Hg Hd Hs.
  rewrite (computeRank_browser _ _ d) by done.
  unfold Browser.scoreQualifies, computeRank. rewrite Hg.
  rewrite length_fmap.
  destruct (Z.ltb_spec (Z.of_nat (length leaderboard)) Browser.MAX_ENTRIES)
    as [Hlt|Hge].
  { rewrite decide_True by done.
    destruct (list_find _ _) as [[k x]|]; split; (done || lia). }
  rewrite decide_False by lia.
  destruct (last leaderboard) as [worst|] eqn:Hw.
  2:{ apply last_None in Hw. subst. simpl in Hge.
      unfold Browser.MAX_ENTRIES in Hge. lia. }
  assert (last (Api.score <$> leaderboard) = Some (Api.score worst)) as Hw'
    by (by rewrite fmap_last, Hw).
  assert ((if String.eqb (Browser.scoreType game) "high"
           then Api.score worst <? score else score <? Api.score worst)
          = bool_decide (beats d score (Api.score worst))) as ->.
  { destruct (direction_of_inv _ _ Hd) as [[-> ->]|[-> ->]]; simpl;
      case_bool_decide; lia. }
  rewrite bool_decide_eq_true.
  destruct (list_find _ _) as [[k x]|] eqn:Hf.
  - apply list_find_Some in Hf as (Hk & Hb & _). split; [lia|intros _].
    eapply beats_trans_weak; [exact Hb|].
    by eapply ordered_last.
  - apply list_find_None in Hf. split; [|done]. intros Hb.
    rewrite Forall_forall in Hf. exfalso. eapply Hf; [|exact Hb].
    apply last_Some_elem_of in Hw'. done.
Qed.

End RankEngine.

(** ** Reading the table *)

Section TableRead.
Import Api Spec Lambda Abs.

Implicit Types (tbl : Table) (g : string) (r : Z) (it : Item.t).

Lemma Item_make_attrs it :
  Item.make (Item.gameId it) (Item.rank it) (Item.attrs it) = it.
Proof. by destruct it. Qed.

Lemma Item_attrs_make g r a : Item.attrs (Item.make g r a) = a.
Proof. by destruct a. Qed.

Lemma Item_eq it1 it2 :
  Item.gameId it1 = Item.gameId it2 → Item.rank it1 = Item.rank it2 →
  Item.attrs it1 = Item.attrs it2 → it1 = it2.
Proof.
  destruct it1, it2; unfold Item.attrs; simpl; intros -> -> [= -> -> -> ->].
  done.
Qed.

Lemma elem_of_partition_items g tbl it :
  it ∈ partition_items g tbl
  ↔ Item.gameId it = g ∧ tbl !! (g, Item.rank it) = Some (Item.attrs it).
Proof.
  unfold partition_items. rewrite list_elem_of_omap. split.
  - intros ([[g' r] a] & Hin & Hf). simpl in Hf.
    case_decide; [|done]. simplify_eq.
    apply elem_of_map_to_list in Hin. simpl.
    by rewrite Item_attrs_make.
  - intros [<- Hl].
    exists (Item.gameId it, Item.rank it, Item.attrs it). split.
    + by apply elem_of_map_to_list.
    + simpl. rewrite decide_True by done. by rewrite Item_make_attrs.
Qed.

Lemma partition_items_rank_inj g tbl it1 it2 :
  it1 ∈ partition_items g tbl → it2 ∈ partition_items g tbl →
  Item.rank it1 = Item.rank it2 → it1 = it2.
Proof.
  rewrite !elem_of_partition_items. intros [Hg1 H1] [Hg2 H2] Hr.
  apply Item_eq; [congruence|done|]. rewrite Hr in H1. congruence.
Qed.

Lemma NoDup_partition_ranks g tbl :
  NoDup (Item.rank <$> partition_items g tbl).
Proof.
  unfold partition_items.
  pose proof (NoDup_fst_map_to_list tbl) as Hnd.
  induction (map_to_list tbl) as [|[[g' r] a] l IH]; simpl in *.
  { constructor. }
  apply NoDup_cons in Hnd as [Hnotin Hnd].
  case_decide as Hg; [|by apply IH]. subst g'. simpl.
  apply NoDup_cons. split; [|by apply IH].
  intros Hin. apply Hnotin.
  apply list_elem_of_fmap in Hin as (it & Hr & Hin).
  apply list_elem_of_omap in Hin as ([[g' r'] a'] & Hin & Hf).
  simpl in Hf. case_decide; [|done]. simplify_eq. simpl.
  apply list_elem_of_fmap. by exists (g, r', a').
Qed.

Lemma NoDup_partition_items g tbl : NoDup (partition_items g tbl).
Proof. eapply NoDup_fmap_1, NoDup_partition_ranks. Qed.

(** A list sorted by [rank_le] with distinct ranks is strictly sorted. *)
Lemma rank_le_lt_sorted (l : list Item.t) :
  StronglySorted Item.rank_le l → NoDup (Item.rank <$> l) →
  StronglySorted rank_lt l.
Proof.
  induction 1 as [|a l _ IH Ha]; intros Hnd; [constructor|].
  simpl in Hnd. apply NoDup_cons in Hnd as [Hnotin Hnd].
  constructor; [by apply IH|].
  rewrite Forall_forall in Ha |- *. intros b Hb.
  specialize (Ha b Hb). unfold Item.rank_le, rank_lt in *.
  assert (Item.rank a ≠ Item.rank b); [|lia].
  intros Heq. apply Hnotin. rewrite Heq.
  apply list_elem_of_fmap. by exists b.
Qed.

Lemma rank_lt_le_sorted (l : list Item.t) :
  StronglySorted rank_lt l → StronglySorted Item.rank_le l.
Proof.
  induction 1 as [|a l _ IH Ha]; constructor; [done|].
  eapply Forall_impl; [exact Ha|]. unfold Item.rank_le, rank_lt. lia.
Qed.

Lemma rank_lt_NoDup (l : list Item.t) :
  StronglySorted rank_lt l → NoDup l.
Proof.
  induction 1 as [|a l _ IH Ha]; constructor; [|done].
  intros Hin. rewrite Forall_forall in Ha. specialize (Ha a Hin).
  unfold rank_lt in Ha. lia.
Qed.

(** Sorting a list that is already in rank order changes nothing. *)
Lemma merge_sort_sorted (l : list Item.t) :
  StronglySorted rank_lt l → merge_sort Item.rank_le l = l.
Proof.
  intros Hl. pose proof (rank_lt_NoDup l Hl) as Hnd.
  apply (StronglySorted_unique_strong Item.rank_le).
  - intros x1 x2 H1 H2 H12 H21.
    rewrite merge_sort_Permutation in H1.
    apply list_elem_of_lookup in H1 as [i Hi], H2 as [j Hj].
    destruct (decide (i = j)) as [->|Hne]; [congruence|].
    exfalso. unfold Item.rank_le in *.
    destruct (decide (i < j)%nat).
    + assert (rank_lt x1 x2); [|unfold rank_lt in *; lia].
      rewrite <- (take_drop j l) in Hl, Hi.
      rewrite lookup_app_l in Hi
        by (rewrite length_take; apply lookup_lt_Some in Hj; lia).
      apply (StronglySorted_app_1_elem_of _ _ _ x1 x2 Hl).
      * by eapply list_elem_of_lookup_2.
      * eapply list_elem_of_lookup_2. rewrite lookup_drop.
        by rewrite Nat.add_0_r.
    + assert (rank_lt x2 x1); [|unfold rank_lt in *; lia].
      rewrite <- (take_drop i l) in Hl, Hj.
      rewrite lookup_app_l in Hj
        by (rewrite length_take; apply lookup_lt_Some in Hi; lia).
      apply (StronglySorted_app_1_elem_of _ _ _ x2 x1 Hl).
      * by eapply list_elem_of_lookup_2.
      * eapply list_elem_of_lookup_2. rewrite lookup_drop.
        by rewrite Nat.add_0_r.
  - apply StronglySorted_merge_sort; apply _.
  - by apply rank_lt_le_sorted.
  - apply merge_sort_Permutation.
Qed.

Lemma Query_sorted g tbl : StronglySorted rank_lt (Query g None tbl).
Proof.
  unfold Query. apply rank_le_lt_sorted.
  - apply StronglySorted_merge_sort; apply _.
  - rewrite merge_sort_Permutation. apply NoDup_partition_ranks.
Qed.

(** What [getLeaderboardWithRanks] returns: the items of the partition,
    in strictly ascending rank order. *)
Lemma getLeaderboardWithRanks_Query g tbl :
  getLeaderboardWithRanks g tbl = Query g None tbl.
Proof. apply merge_sort_sorted, Query_sorted. Qed.

Lemma getLeaderboardWithRanks_sorted g tbl :
  StronglySorted rank_lt (getLeaderboardWithRanks g tbl).
Proof. rewrite getLeaderboardWithRanks_Query. apply Query_sorted. Qed.

Lemma elem_of_getLeaderboardWithRanks g tbl it :
  it ∈ getLeaderboardWithRanks g tbl
  ↔ Item.gameId it = g ∧ tbl !! (g, Item.rank it) = Some (Item.attrs it).
Proof.
  rewrite getLeaderboardWithRanks_Query. unfold Query.
  rewrite merge_sort_Permutation. apply elem_of_partition_items.
Qed.

(** The read is determined by the lookups of the partition. *)
Lemma getLeaderboardWithRanks_unique g tbl (L : list Item.t) :
  StronglySorted rank_lt L →
  (∀ it, it ∈ L ↔
     Item.gameId it = g ∧ tbl !! (g, Item.rank it) = Some (Item.attrs it)) →
  getLeaderboardWithRanks g tbl = L.
Proof.
  intros HL Hel. rewrite getLeaderboardWithRanks_Query. unfold Query.
  rewrite <- (merge_sort_sorted L HL). 
  assert (partition_items g tbl ≡ₚ L) as Hp.
  { apply NoDup_Permutation.
    - apply NoDup_partition_items.
    - by apply rank_lt_NoDup.
    - intros it. by rewrite Hel, elem_of_partition_items. }
  apply (StronglySorted_unique_strong Item.rank_le).
  - intros x1 x2 H1 H2 H12 H21.
    rewrite merge_sort_Permutation in H1, H2. rewrite <- Hp in H2.
    eapply partition_items_rank_inj; [done..|].
    unfold Item.rank_le in *. lia.
  - apply StronglySorted_merge_sort; apply _.
  - apply StronglySorted_merge_sort; apply _.
  - by rewrite !merge_sort_Permutation.
Qed.

End TableRead.

(** ** The writes of a submission *)

Section Reconcile.
Import Api Spec Lambda Abs.

Implicit Types (tbl : Table) (g : string) (r : Z) (it : Item.t).

Lemma send_all_app cs1 cs2 tbl :
  send_all (cs1 ++ cs2) tbl = send_all cs2 (send_all cs1 tbl).
Proof. apply foldl_app. Qed.

Lemma shift_commands_snoc g es e :
  shift_commands g (es ++ [e])
  = shift_commands g es ++ shift_commands g [e].
Proof. unfold shift_commands. by rewrite fmap_app. Qed.

(** The shift loop leaves the other partitions alone. *)
Lemma shift_commands_other g es tbl g' r :
  g' ≠ g → (∀ e, e ∈ es → Item.gameId e = g) →
  send_all (shift_commands g es) tbl !! (g', r) = tbl !! (g', r).
Proof.
  intros Hne Hes. induction es as [|e es IH] using rev_ind; [done|].
  rewrite shift_commands_snoc, send_all_app. simpl.
  assert (Item.gameId e = g) as He by (apply Hes; set_solver).
  case_match; simpl.
  - rewrite lookup_insert_ne by congruence. apply IH. set_solver.
  - rewrite lookup_delete_ne by congruence. apply IH. set_solver.
Qed.

(** The table after the shift loop over entries in ascending rank
    order: a rank from [MAX_ENTRIES] on that the loop visits ends up
    deleted, also when the entry below it has just been moved there;
    otherwise a rank holds the entry that was one rank above when the
    loop visited that one; otherwise it is untouched. *)
Lemma shift_commands_lookup g es tbl r :
  StronglySorted rank_lt es →
  (∀ e, e ∈ es →
     Item.gameId e = g ∧ tbl !! (g, Item.rank e) = Some (Item.attrs e)) →
  send_all (shift_commands g es) tbl !! (g, r)
  = if decide (MAX_ENTRIES <= r ∧ r ∈ Item.rank <$> es) then None
    else if decide (r - 1 < MAX_ENTRIES ∧ r - 1 ∈ Item.rank <$> es)
         then tbl !! (g, r - 1)
         else tbl !! (g, r).
Proof.
  intros Hs Hes. induction es as [|e es IH] using rev_ind.
  { simpl. rewrite !decide_False; [done|..]; intros [_ []%elem_of_nil]. }
  apply StronglySorted_app in Hs as (Hlt & Hs & _).
  destruct (Hes e) as [Hge Hte]; [apply elem_of_app; right; by left|].
  rewrite shift_commands_snoc, send_all_app. simpl.
  rewrite fmap_app. simpl.
  specialize (IH Hs (λ x Hx, Hes x (proj2 (elem_of_app _ _ _) (or_introl Hx)))).
  set (M := λ q, q ∈ Item.rank <$> es) in *.
  assert (∀ q, M q → q < Item.rank e) as Hlt'.
  { intros q (x & -> & Hx)%list_elem_of_fmap.
    apply (Hlt x e); [done|by left]. }
  assert (∀ q, q ∈ (Item.rank <$> es) ++ [Item.rank e]
               ↔ M q ∨ q = Item.rank e) as Happ.
  { intros q. unfold M. by rewrite elem_of_app, list_elem_of_singleton. }
  pose proof (Hlt' r) as Hr0. pose proof (Hlt' (r - 1)) as Hr1.
  clear Hlt Hlt' Hes Hs. unfold MAX_ENTRIES in *.
  destruct (Z.ltb_spec (Item.rank e) 10) as [Hlt10|Hge10]; simpl.
  - rewrite Hge. rewrite lookup_insert.
    replace (Item.attrs (Item.with_rank e (Item.rank e + 1)))
      with (Item.attrs e) by (by destruct e).
    rewrite IH. clear IH.
    destruct (decide (r = Item.rank e + 1)) as [->|Hne].
    + rewrite decide_True by done.
      rewrite decide_False by (rewrite Happ; intuition lia).
      rewrite decide_True by (rewrite Happ; intuition lia).
      by replace (Item.rank e + 1 - 1) with (Item.rank e) by lia.
    + rewrite (decide_False (P := (_, _) = (_, _))) by congruence.
      repeat case_decide; rewrite ?Happ in *; try done; intuition lia.
  - rewrite lookup_delete. rewrite IH. clear IH.
    destruct (decide (r = Item.rank e)) as [->|Hne].
    + rewrite decide_True by done.
      by rewrite decide_True by (rewrite Happ; intuition lia).
    + rewrite (decide_False (P := (_, _) = (_, _))) by congruence.
      repeat case_decide; rewrite ?Happ in *; try done; intuition lia.
Qed.

Lemma StronglySorted_filter_rank (P : Item.t → Prop)
    `{!∀ x, Decision (P x)} (l : list Item.t) :
  StronglySorted rank_lt l → StronglySorted rank_lt (filter P l).
Proof.
  induction 1 as [|a l _ IH Ha]; [constructor|].
  rewrite filter_cons. case_decide; [|done].
  constructor; [done|]. rewrite Forall_forall in Ha |- *.
  intros b [_ Hb]%list_elem_of_filter. by apply Ha.
Qed.

(** The other partitions are untouched by a submission. *)
Lemma submitScore_commands_other g new t lb tbl g' r :
  g' ≠ g → Item.gameId new = g → (∀ e, e ∈ lb → Item.gameId e = g) →
  send_all (submitScore_commands g new t lb) tbl !! (g', r)
  = tbl !! (g', r).
Proof.
  intros Hne Hnew Hlb. unfold submitScore_commands.
  rewrite send_all_app. simpl.
  rewrite lookup_delete_ne, lookup_insert_ne by congruence.
  apply shift_commands_other; [done|].
  intros e [_ He]%list_elem_of_filter. by apply Hlb.
Qed.

(** The partition of the game after all the writes of a submission. *)
Lemma submitScore_commands_lookup g new t lb tbl r :
  Item.gameId new = g → Item.rank new = t →
  StronglySorted rank_lt lb →
  (∀ e, e ∈ lb →
     Item.gameId e = g ∧ tbl !! (g, Item.rank e) = Some (Item.attrs e)) →
  send_all (submitScore_commands g new t lb) tbl !! (g, r)
  = if decide (r = MAX_ENTRIES + 1) then None
    else if decide (r = t) then Some (Item.attrs new)
    else if decide (MAX_ENTRIES <= r ∧ t <= r ∧ r ∈ Item.rank <$> lb)
         then None
    else if decide (r - 1 < MAX_ENTRIES ∧ t <= r - 1
                    ∧ r - 1 ∈ Item.rank <$> lb)
         then tbl !! (g, r - 1)
         else tbl !! (g, r).
Proof.
  intros Hg Ht Hs Hlb. unfold submitScore_commands.
  rewrite send_all_app. simpl.
  rewrite lookup_delete, lookup_insert, Hg, Ht.
  rewrite shift_commands_lookup.
  2:{ by apply StronglySorted_filter_rank. }
  2:{ intros e [_ He]%list_elem_of_filter. by apply Hlb. }
  assert (∀ q, q ∈ Item.rank <$> filter (λ e, t <= Item.rank e) lb
               ↔ t <= q ∧ q ∈ Item.rank <$> lb) as Hmem.
  { intros q. rewrite !list_elem_of_fmap. split.
    - intros (e & -> & [? ?]%list_elem_of_filter). eauto.
    - intros (? & e & -> & ?). exists e. split; [done|].
      by apply list_elem_of_filter. }
  repeat case_decide; simplify_eq; try done; rewrite ?Hmem in *;
    exfalso; intuition lia.
Qed.

(** The rank [getRank] computes is [-1] or lies in [1 .. n + 1], and in
    [1 .. n] when the board is full. *)
Lemma getRank_range scoreType score (leaderboard : list Item.t) :
  let r := getRank scoreType score leaderboard in
  let n := Z.of_nat (length leaderboard) in
  r = -1 ∧ MAX_ENTRIES <= n
  ∨ 1 <= r <= n + 1 ∧ (MAX_ENTRIES <= n → r <= n).
Proof.
  simpl. unfold getRank.
  assert (∀ i, match getRank_loop scoreType score i leaderboard with
               | Some r => i + 1 <= r <= i + Z.of_nat (length leaderboard)
               | None => True
               end) as Hloop.
  { induction leaderboard as [|e lb IH]; intros i; simpl; [done|].
    destruct (_ && _); [lia|]. destruct (_ && _); [lia|].
    specialize (IH (i + 1)).
    destruct (getRank_loop _ _ (i + 1) lb); [lia|done]. }
  specialize (Hloop 0).
  destruct (getRank_loop _ _ _ _); case_match; lia.
Qed.

End Reconcile.
(** ** A partition as a list *)

Section Boards.
Import Api Spec Lambda Abs.

Implicit Types (tbl : Table) (g : string) (r : Z) (it : Item.t).

Lemma StronglySorted_lookup_2 {A} (R : relation A) (l : list A) :
  (∀ i j x y, l !! i = Some x → l !! j = Some y → (i < j)%nat → R x y) →
  StronglySorted R l.
Proof.
  induction l as [|a l IH]; intros H; constructor.
  - apply IH. intros i j x y Hi Hj Hij.
    apply (H (S i) (S j)); [done|done|lia].
  - apply Forall_forall. intros b [j Hj]%list_elem_of_lookup.
    apply (H 0%nat (S j)); [done|done|lia].
Qed.

Lemma renumber_lookup g (l : list Attrs.t) i :
  renumber g l !! i = Item.make g (Z.of_nat i + 1) <$> l !! i.
Proof. unfold renumber. by rewrite list_lookup_imap. Qed.

Lemma renumber_length g (l : list Attrs.t) :
  length (renumber g l) = length l.
Proof. apply length_imap. Qed.

Lemma renumber_sorted g (l : list Attrs.t) :
  StronglySorted rank_lt (renumber g l).
Proof.
  apply StronglySorted_lookup_2. intros i j x y Hi Hj Hij.
  rewrite renumber_lookup in Hi, Hj.
  destruct (l !! i), (l !! j); simplify_eq/=.
  unfold rank_lt. simpl. lia.
Qed.

Lemma renumber_ranks g (l : list Attrs.t) :
  Item.rank <$> renumber g l = seqZ 1 (Z.of_nat (length l)).
Proof.
  apply list_eq. intros i. rewrite list_lookup_fmap, renumber_lookup.
  destruct (l !! i) eqn:H; simpl; symmetry.
  - apply lookup_seqZ. apply lookup_lt_Some in H. lia.
  - apply lookup_seqZ_ge. apply lookup_ge_None in H. lia.
Qed.

Lemma renumber_dense g (l : list Attrs.t) : dense (renumber g l).
Proof. unfold dense. by rewrite renumber_ranks, renumber_length. Qed.

Lemma renumber_attrs g (l : list Attrs.t) :
  Item.attrs <$> renumber g l = l.
Proof.
  apply list_eq. intros i. rewrite list_lookup_fmap, renumber_lookup.
  destruct (l !! i); simpl; [|done]. by rewrite Item_attrs_make.
Qed.

Lemma elem_of_renumber g (l : list Attrs.t) it :
  it ∈ renumber g l
  ↔ Item.gameId it = g ∧ 1 <= Item.rank it
    ∧ l !! Z.to_nat (Item.rank it - 1) = Some (Item.attrs it).
Proof.
  rewrite list_elem_of_lookup. setoid_rewrite renumber_lookup. split.
  - intros (i & Hi). destruct (l !! i) eqn:E; simplify_eq/=.
    split; [done|]. split; [lia|].
    replace (Z.to_nat (Z.of_nat i + 1 - 1)) with i by lia.
    by rewrite Item_attrs_make.
  - intros (Hg & Hr & Hl). exists (Z.to_nat (Item.rank it - 1)).
    rewrite Hl. simpl. f_equal. rewrite <- Hg.
    replace (Z.of_nat (Z.to_nat (Item.rank it - 1)) + 1)
      with (Item.rank it) by lia.
    apply Item_make_attrs.
Qed.

(** A partition that holds [l] reads as [l], ranked by position. *)
Lemma holds_snapshot g tbl l :
  holds tbl g l → getLeaderboardWithRanks g tbl = renumber g l.
Proof.
  intros H. apply getLeaderboardWithRanks_unique; [apply renumber_sorted|].
  intros it. rewrite elem_of_renumber. specialize (H (Item.rank it)).
  split.
  - intros (Hg & Hr & Hl). split; [done|]. rewrite H.
    by rewrite decide_True.
  - intros (Hg & Ht). rewrite H in Ht. by case_decide.
Qed.

(** A partition whose read has dense ranks holds the list it reads. *)
Lemma snapshot_holds g tbl :
  dense (getLeaderboardWithRanks g tbl) →
  holds tbl g (Item.attrs <$> getLeaderboardWithRanks g tbl).
Proof.
  intros Hd r.
  pose proof (elem_of_getLeaderboardWithRanks g tbl) as Hel.
  unfold dense in Hd.
  set (S := getLeaderboardWithRanks g tbl) in *.
  assert (∀ a, tbl !! (g, r) = Some a → 1 <= r <= Z.of_nat (length S))
    as Hdom.
  { intros a Ha. assert (Item.make g r a ∈ S) as Hin.
    { apply Hel. simpl. by rewrite Item_attrs_make. }
    apply (list_elem_of_fmap_2 Item.rank) in Hin. rewrite Hd in Hin.
    simpl in Hin. apply elem_of_seqZ in Hin. lia. }
  case_decide.
  - rewrite list_lookup_fmap.
    destruct (S !! Z.to_nat (r - 1)) as [it|] eqn:E; simpl.
    + assert (Item.rank it = r) as Hr.
      { assert ((Item.rank <$> S) !! Z.to_nat (r - 1)
                = Some (Item.rank it)) as Hi
          by (by rewrite list_lookup_fmap, E).
        rewrite Hd in Hi. apply lookup_seqZ in Hi. lia. }
      apply list_elem_of_lookup_2 in E. apply Hel in E as [? E].
      by subst r.
    + apply lookup_ge_None in E.
      destruct (tbl !! (g, r)) eqn:Ht; [|done]. specialize (Hdom _ eq_refl). lia.
  - destruct (tbl !! (g, r)) eqn:Ht; [|done]. specialize (Hdom _ eq_refl). lia.
Qed.

Lemma lookup_insert_at {A} (t : Z) (x : A) (l : list A) (i : nat) :
  1 <= t <= Z.of_nat (length l) + 1 →
  insert_at t x l !! i
  = if decide (Z.of_nat i < t - 1) then l !! i
    else if decide (Z.of_nat i = t - 1) then Some x
         else l !! (i - 1)%nat.
Proof.
  intros Ht. unfold insert_at. case_decide.
  - rewrite lookup_app_l by (rewrite length_take; lia).
    apply lookup_take_lt. lia.
  - rewrite lookup_app_r by (rewrite length_take; lia).
    rewrite length_take.
    replace (Z.to_nat (t - 1) `min` length l)%nat
      with (Z.to_nat (t - 1)) by lia.
    case_decide.
    + by replace (i - Z.to_nat (t - 1))%nat with 0%nat by lia.
    + rewrite lookup_cons_ne_0 by lia. rewrite lookup_drop.
      f_equal. lia.
Qed.

Lemma length_insert_at {A} (t : Z) (x : A) (l : list A) :
  length (insert_at t x l) = S (length l).
Proof.
  unfold insert_at. rewrite length_app, length_take. simpl.
  rewrite length_drop. lia.
Qed.

(** The writes of a submission at rank [t], on a partition that holds
    [l], leave a partition that holds [reconciled t _ l]. *)
Lemma holds_submit g tbl l new t :
  holds tbl g l → Z.of_nat (length l) <= MAX_ENTRIES →
  1 <= t <= Z.of_nat (length l) + 1 → t <= MAX_ENTRIES →
  Item.gameId new = g → Item.rank new = t →
  holds (send_all (submitScore_commands g new t (renumber g l)) tbl) g
        (reconciled t (Item.attrs new) l).
Proof.
  intros Hh Hlen Ht Ht10 Hg Hr r.
  rewrite (submitScore_commands_lookup g new t);
    [|done|done|apply renumber_sorted|].
  2:{ intros e (? & ? & ?)%elem_of_renumber. split; [done|].
      rewrite Hh. by rewrite decide_True. }
  rewrite renumber_ranks. unfold reconciled. rewrite !Hh.
  unfold MAX_ENTRIES in *.
  destruct (decide (1 <= r)) as [H1|H1].
  2:{ repeat case_decide; rewrite ?elem_of_seqZ in *; try done; lia. }
  destruct (decide (Z.of_nat (length l) = 10 ∧ t < 10)) as [Hfull|Hfull];
    rewrite lookup_take, lookup_insert_at by lia;
    repeat case_decide; rewrite ?elem_of_seqZ in *; try done; try lia;
    first [ f_equal; lia
          | symmetry; apply lookup_ge_None_2; lia
          | apply lookup_ge_None_2; lia
          | by rewrite !lookup_ge_None_2 by lia ].
Qed.

End Boards.

(** ** Order is kept by an insertion at the computed rank *)

Section Ordering.
Import Api Spec Lambda Abs.

Lemma ordered_take d scores n : ordered d scores → ordered d (take n scores).
Proof.
  unfold ordered. intros H. rewrite <- (take_drop n scores) in H.
  by apply StronglySorted_app_1_l in H.
Qed.

Lemma strictly_ordered_take d scores n :
  strictly_ordered d scores → strictly_ordered d (take n scores).
Proof.
  unfold strictly_ordered. intros H. rewrite <- (take_drop n scores) in H.
  by apply StronglySorted_app_1_l in H.
Qed.

Lemma fmap_insert_at {A B} (f : A → B) t x (l : list A) :
  f <$> insert_at t x l = insert_at t (f x) (f <$> l).
Proof.
  unfold insert_at. by rewrite fmap_app, fmap_cons, fmap_take, fmap_drop.
Qed.

Lemma fmap_reconciled {A B} (f : A → B) t x (l : list A) :
  f <$> reconciled t x l = reconciled t (f x) (f <$> l).
Proof.
  unfold reconciled. by rewrite fmap_take, fmap_insert_at, length_fmap.
Qed.

(** The entries before the computed rank are not beaten, the entry at
    the computed rank is. *)
Lemma computeRank_before d score scores capacity i a :
  computeRank score scores d capacity ≠ NOT_QUALIFIED →
  scores !! i = Some a →
  Z.of_nat i < computeRank score scores d capacity - 1 →
  ¬ beats d score a.
Proof.
  unfold computeRank. intros Hq Hi Hlt.
  destruct (list_find _ _) as [[k x]|] eqn:Hf.
  - apply list_find_Some in Hf as (_ & _ & Hbefore).
    apply (Hbefore i a Hi). lia.
  - apply list_find_None in Hf. rewrite Forall_forall in Hf.
    apply Hf. by eapply list_elem_of_lookup_2.
Qed.

Lemma computeRank_from d score scores capacity i a :
  ordered d scores →
  computeRank score scores d capacity ≠ NOT_QUALIFIED →
  scores !! i = Some a →
  computeRank score scores d capacity - 1 <= Z.of_nat i →
  beats d score a.
Proof.
  unfold computeRank. intros Hs Hq Hi Hle.
  destruct (list_find _ _) as [[k x]|] eqn:Hf.
  - apply list_find_Some in Hf as (Hk & Hb & _).
    destruct (decide (k = i)) as [->|Hne]; [congruence|].
    eapply beats_trans_weak; [exact Hb|].
    eapply (ordered_lookup d scores k i); [done|lia|done..].
  - case_decide; [|done]. apply lookup_lt_Some in Hi. lia.
Qed.

Lemma ordered_insert_at d score scores capacity :
  ordered d scores →
  computeRank score scores d capacity ≠ NOT_QUALIFIED →
  ordered d (insert_at (computeRank score scores d capacity) score scores).
Proof.
  intros Hs Hq.
  pose proof (computeRank_range score scores d capacity) as Hrange.
  simpl in Hrange. destruct Hrange as [[? _]|[Hrange _]]; [done|].
  set (t := computeRank score scores d capacity) in *.
  apply StronglySorted_lookup_2. intros i j x y Hi Hj Hij.
  rewrite lookup_insert_at in Hi, Hj by done.
  repeat case_decide; simplify_eq; try lia.
  - eapply ordered_lookup; [exact Hs|exact Hij|done..].
  - eapply computeRank_before; [exact Hq|exact Hi|]. by fold t.
  - eapply (ordered_lookup d scores i (j - 1)); [done|lia|done..].
  - assert (beats d x y) as Hb; [|destruct d; simpl in *; lia].
    eapply computeRank_from; [exact Hs|exact Hq|exact Hj|]. fold t. lia.
  - eapply (ordered_lookup d scores (i - 1) (j - 1)); [done|lia|done..].
Qed.

Lemma strictly_ordered_lookup d scores i j a b :
  strictly_ordered d scores → (i < j)%nat →
  scores !! i = Some a → scores !! j = Some b → beats d a b.
Proof.
  intros Hs Hij Hi Hj.
  rewrite <- (take_drop j scores) in Hs, Hi.
  rewrite lookup_app_l in Hi
    by (rewrite length_take; apply lookup_lt_Some in Hj; lia).
  apply (StronglySorted_app_1_elem_of _ _ _ a b Hs).
  - by eapply list_elem_of_lookup_2.
  - eapply list_elem_of_lookup_2. rewrite lookup_drop.
    by rewrite Nat.add_0_r.
Qed.

Lemma strictly_ordered_insert_at d score scores capacity :
  strictly_ordered d scores → score ∉ scores →
  computeRank score scores d capacity ≠ NOT_QUALIFIED →
  strictly_ordered d
    (insert_at (computeRank score scores d capacity) score scores).
Proof.
  intros Hs Hnotin Hq.
  pose proof (strictly_ordered_ordered d scores Hs) as Hw.
  pose proof (computeRank_range score scores d capacity) as Hrange.
  simpl in Hrange. destruct Hrange as [[? _]|[Hrange _]]; [done|].
  set (t := computeRank score scores d capacity) in *.
  apply StronglySorted_lookup_2. intros i j x y Hi Hj Hij.
  rewrite lookup_insert_at in Hi, Hj by done.
  repeat case_decide; simplify_eq; try lia.
  - eapply strictly_ordered_lookup; [exact Hs|exact Hij|done..].
  - assert (¬ beats d y x) as Hb.
    { eapply computeRank_before; [exact Hq|exact Hi|]. by fold t. }
    assert (x ≠ y) as Hne.
    { intros ->. apply Hnotin. by eapply list_elem_of_lookup_2. }
    destruct d; simpl in *; lia.
  - eapply (strictly_ordered_lookup d scores i (j - 1)); [done|lia|done..].
  - eapply computeRank_from; [exact Hw|exact Hq|exact Hj|]. fold t. lia.
  - eapply (strictly_ordered_lookup d scores (i - 1) (j - 1));
      [done|lia|done..].
Qed.

Lemma ordered_reconciled d score scores :
  ordered d scores →
  computeRank score scores d MAX_ENTRIES ≠ NOT_QUALIFIED →
  ordered d
    (reconciled (computeRank score scores d MAX_ENTRIES) score scores).
Proof. intros. unfold reconciled. by apply ordered_take, ordered_insert_at. Qed.

Lemma strictly_ordered_reconciled d score scores :
  strictly_ordered d scores → score ∉ scores →
  computeRank score scores d MAX_ENTRIES ≠ NOT_QUALIFIED →
  strictly_ordered d
    (reconciled (computeRank score scores d MAX_ENTRIES) score scores).
Proof.
  intros. unfold reconciled.
  by apply strictly_ordered_take, strictly_ordered_insert_at.
Qed.

End Ordering.

(** ** One submission on the table *)

Section RemoteStep.
Import Api Spec Lambda Abs.

Implicit Types (tbl : Table) (g : string) (r : Z) (it : Item.t).

Lemma submitScore_unknown g playerName score now tbl :
  GAMES !! g = None →
  submitScore g playerName score now tbl
  = (mkResult false (-1) (Some "Unknown game"), tbl).
Proof. intros Hg. unfold submitScore. by rewrite Hg. Qed.

Lemma submitScore_rejected g game playerName score now tbl :
  GAMES !! g = Some game →
  getRank (Game.scoreType game) score (getLeaderboardWithRanks g tbl) = -1 →
  submitScore g playerName score now tbl = (mkResult false (-1) None, tbl).
Proof. intros Hg Hr. unfold submitScore. by rewrite Hg, Hr. Qed.

Lemma submitScore_qualified g game playerName score now tbl :
  GAMES !! g = Some game →
  let S := getLeaderboardWithRanks g tbl in
  let t := getRank (Game.scoreType game) score S in
  t ≠ -1 →
  submitScore g playerName score now tbl
  = (mkResult true t None,
     send_all
       (submitScore_commands g (newEntry_of g game playerName score now t)
                             t S) tbl).
Proof.
  intros Hg S t Ht. unfold submitScore. rewrite Hg. fold S. fold t.
  destruct (Z.eqb_spec t (-1)); [done|]. done.
Qed.

(** The three outcomes of [submitScore]. *)
Lemma submitScore_cases g playerName score now tbl :
  let out := submitScore g playerName score now tbl in
  (qualified out.1 = false ∧ rank out.1 = -1 ∧ out.2 = tbl)
  ∨ (∃ game, GAMES !! g = Some game
       ∧ let S := getLeaderboardWithRanks g tbl in
         let t := getRank (Game.scoreType game) score S in
         t ≠ -1
         ∧ out = (mkResult true t None,
                  send_all
                    (submitScore_commands
                       g (newEntry_of g game playerName score now t) t S)
                    tbl)).
Proof.
  simpl. destruct (GAMES !! g) as [game|] eqn:Hg.
  - destruct (decide (getRank (Game.scoreType game) score
                        (getLeaderboardWithRanks g tbl) = -1)) as [Hr|Hr].
    + left. by rewrite (submitScore_rejected g game).
    + right. exists game. split; [done|]. split; [done|].
      by apply submitScore_qualified.
  - left. by rewrite submitScore_unknown.
Qed.

Lemma snapshot_gameId g tbl it :
  it ∈ getLeaderboardWithRanks g tbl → Item.gameId it = g.
Proof. intros H%elem_of_getLeaderboardWithRanks. tauto. Qed.

(** A submission for [g] does not touch the other partitions. *)
Lemma submitScore_other g playerName score now tbl g' r :
  g' ≠ g →
  (submitScore g playerName score now tbl).2 !! (g', r) = tbl !! (g', r).
Proof.
  intros Hne.
  destruct (submitScore_cases g playerName score now tbl)
    as [(_ & _ & ->)|(game & Hg & _ & ->)]; [done|]. simpl.
  apply submitScore_commands_other; [done|done|].
  intros e. apply snapshot_gameId.
Qed.

(** The read of a partition depends on that partition only. *)
Lemma getLeaderboardWithRanks_ext g tbl tbl' :
  (∀ r, tbl' !! (g, r) = tbl !! (g, r)) →
  getLeaderboardWithRanks g tbl' = getLeaderboardWithRanks g tbl.
Proof.
  intros H. apply getLeaderboardWithRanks_unique.
  - apply getLeaderboardWithRanks_sorted.
  - intros it. by rewrite elem_of_getLeaderboardWithRanks, H.
Qed.

Lemma renumber_scores g (l : list Attrs.t) :
  Item.score <$> renumber g l = Attrs.score <$> l.
Proof.
  apply list_eq. intros i. rewrite !list_lookup_fmap, renumber_lookup.
  by destruct (l !! i) as [[]|].
Qed.

Lemma renumber_project_names g (l : list Attrs.t) :
  Item.playerName <$> renumber g l = Attrs.playerName <$> l.
Proof.
  apply list_eq. intros i. rewrite !list_lookup_fmap, renumber_lookup.
  by destruct (l !! i) as [[]|].
Qed.

(** A qualifying submission on a partition with dense ranks: the
    partition afterwards reads as the reconciled list, ranked by
    position. *)
Lemma submitScore_step g game playerName score now tbl :
  GAMES !! g = Some game →
  let S := getLeaderboardWithRanks g tbl in
  let t := getRank (Game.scoreType game) score S in
  dense S → Z.of_nat (length S) <= MAX_ENTRIES → t ≠ -1 →
  getLeaderboardWithRanks g (submitScore g playerName score now tbl).2
  = renumber g
      (reconciled t
         (Item.attrs (newEntry_of g game playerName score now t))
         (Item.attrs <$> S)).
Proof.
  intros Hg S t Hd Hlen Ht.
  rewrite (submitScore_qualified g game) by done. simpl. fold S. fold t.
  pose proof (snapshot_holds g tbl Hd) as Hh. fold S in Hh.
  pose proof (holds_snapshot g tbl _ Hh) as HS. fold S in HS.
  apply holds_snapshot.
  pose proof (getRank_range (Game.scoreType game) score S) as Hrange.
  simpl in Hrange. fold t in Hrange.
  rewrite HS at 1.
  apply holds_submit; try done; rewrite ?length_fmap; lia.
Qed.

(** Ranks within bounds make at most [MAX_ENTRIES] items. *)
Lemma ranks_bounded_length g tbl :
  ranks_bounded tbl →
  Z.of_nat (length (getLeaderboardWithRanks g tbl)) <= MAX_ENTRIES.
Proof.
  intros Hb.
  assert (Item.rank <$> getLeaderboardWithRanks g tbl ⊆+ seqZ 1 MAX_ENTRIES)
    as Hsub.
  { apply NoDup_submseteq.
    - pose proof (getLeaderboardWithRanks_sorted g tbl) as Hs.
      induction Hs as [|a l _ IH Ha]; simpl; constructor; [|done].
      intros (b & Hab & Hb')%list_elem_of_fmap.
      rewrite Forall_forall in Ha. specialize (Ha b Hb').
      unfold rank_lt in Ha. lia.
    - intros r (it & -> & Hit)%list_elem_of_fmap.
      apply elem_of_getLeaderboardWithRanks in Hit as [_ Hit].
      apply elem_of_seqZ. 
      assert (1 <= Item.rank it <= MAX_ENTRIES); [|lia].
      apply (Hb g). by rewrite Hit. }
  apply submseteq_length in Hsub.
  rewrite length_fmap, length_seqZ in Hsub. unfold MAX_ENTRIES in *. lia.
Qed.

(** A submission keeps all ranks within [1 .. MAX_ENTRIES]. *)
Lemma submitScore_ranks_bounded g playerName score now tbl :
  ranks_bounded tbl →
  ranks_bounded (submitScore g playerName score now tbl).2.
Proof.
  intros Hb g' r.
  destruct (decide (g' = g)) as [->|Hne].
  2:{ rewrite submitScore_other by done. apply Hb. }
  destruct (submitScore_cases g playerName score now tbl)
    as [(_ & _ & ->)|(game & Hg & Ht & ->)]; [apply Hb|]. simpl.
  pose proof (ranks_bounded_length g tbl Hb) as Hlen.
  pose proof (getRank_range (Game.scoreType game) score
                (getLeaderboardWithRanks g tbl)) as Hrange.
  simpl in Hrange.
  rewrite (submitScore_commands_lookup g _ _ _ _ r); [|done|done|..].
  2:{ apply getLeaderboardWithRanks_sorted. }
  2:{ intros e. apply elem_of_getLeaderboardWithRanks. }
  pose proof (Hb g r) as Hr. pose proof (Hb g (r - 1)) as Hr1.
  unfold MAX_ENTRIES in *.
  repeat case_decide; intros Hsome; try (by destruct Hsome);
    try (specialize (Hr Hsome)); try (specialize (Hr1 Hsome)); lia.
Qed.

(** Whether the ranks of a table are within bounds can be computed. *)
Lemma ranks_bounded_map_Forall tbl :
  ranks_bounded tbl
  ↔ map_Forall (λ (k : string * Z) (_ : Attrs.t), 1 <= k.2 <= MAX_ENTRIES) tbl.
Proof.
  unfold ranks_bounded, map_Forall. split.
  - intros H [g r] a Hl. apply (H g r). by rewrite Hl.
  - intros H g r [a Ha]. apply (H (g, r) a Ha).
Qed.

#[global] Instance ranks_bounded_dec tbl : Decision (ranks_bounded tbl).
Proof.
  refine (cast_if (decide (map_Forall
            (λ (k : string * Z) (_ : Attrs.t), 1 <= k.2 <= MAX_ENTRIES) tbl)));
    by rewrite ranks_bounded_map_Forall.
Defined.

End RemoteStep.

(** ** One submission on the local mirror *)

Section LocalStep.
Import Api Spec Browser.

Implicit Types (st : Storage) (g : string) (lb : list Entry).

Lemma getLocalLeaderboards_Some (m : gmap string (list Entry)) :
  getLocalLeaderboards (Some m) = (m, Some m).
Proof. done. Qed.

Lemma getLocalLeaderboards_snd st :
  (getLocalLeaderboards st).2 = Some (getLocalLeaderboards st).1.
Proof. by destruct st. Qed.

Lemma splice_insert_at {A} (t : Z) (x : A) (l : list A) :
  1 <= t <= Z.of_nat (length l) + 1 →
  Js.splice_insert (t - 1) x l = insert_at t x l.
Proof.
  intros Ht. unfold Js.splice_insert, insert_at.
  destruct (Z.ltb_spec (t - 1) 0); [lia|].
  by replace (Z.min (t - 1) (Z.of_nat (length l))) with (t - 1) by lia.
Qed.

(** Cutting the list after the insertion: [pop] when it has grown past
    [MAX_ENTRIES]. *)
Lemma pop_take {A} (l : list A) :
  Z.of_nat (length l) <= MAX_ENTRIES + 1 →
  (if MAX_ENTRIES <? Z.of_nat (length l) then Js.pop l else l)
  = take (Z.to_nat MAX_ENTRIES) l.
Proof.
  intros Hlen. unfold MAX_ENTRIES in *. destruct (Z.ltb_spec 10 (Z.of_nat (length l))).
  - unfold Js.pop. f_equal. lia.
  - symmetry. apply take_ge. lia.
Qed.

Lemma Browser_getRank_range g score lb :
  let r := getRank g score lb in
  r = -1 ∨ 1 <= r <= Z.of_nat (length lb) + 1.
Proof.
  cbv zeta. destruct (GAMES !! g) as [game|] eqn:Hg.
  - destruct (Browser_GAMES_direction g game Hg) as [d Hd].
    rewrite (computeRank_browser g game d) by done.
    pose proof (computeRank_range score (Api.score <$> lb) d MAX_ENTRIES)
      as H. cbv zeta in H. rewrite length_fmap in H.
    unfold NOT_QUALIFIED in H. lia.
  - unfold getRank. rewrite Hg. by left.
Qed.

(** A rejected submission leaves every stored list as it was. *)
Lemma localSubmitScore_rejected g game d playerName score now st :
  GAMES !! g = Some game → direction_of (scoreType game) = Some d →
  let lb := (localGetLeaderboard g st).1 in
  ordered d (Api.score <$> lb) →
  getRank g score lb = -1 →
  localSubmitScore g playerName score now st
  = (not_qualified, (getLocalLeaderboards st).2).
Proof.
  intros Hg Hd lb Hs Hr. subst lb.
  unfold localSubmitScore, localGetLeaderboard in *.
  destruct (getLocalLeaderboards st) as [lbs st1] eqn:E.
  cbn [fst snd] in *. rewrite Hg.
  destruct (scoreQualifies g score (default [] (lbs !! g))) eqn:Hq; [|done].
  apply (scoreQualifies_getRank_ordered g game d) in Hq; [|done..].
  by rewrite Hr in Hq.
Qed.

(** A qualifying submission places the new entry at the computed rank
    and cuts the list after [MAX_ENTRIES] entries. *)
Lemma localSubmitScore_step g game d playerName score now st :
  GAMES !! g = Some game → direction_of (scoreType game) = Some d →
  let lb := (localGetLeaderboard g st).1 in
  let t := getRank g score lb in
  ordered d (Api.score <$> lb) →
  Z.of_nat (length lb) <= MAX_ENTRIES →
  t ≠ -1 →
  let out := localSubmitScore g playerName score now st in
  out.1 = mkResult true t None
  ∧ (localGetLeaderboard g out.2).1
    = take (Z.to_nat MAX_ENTRIES)
           (insert_at t (mkEntry playerName score now) lb)
  ∧ ∀ g', g' ≠ g →
      (localGetLeaderboard g' out.2).1 = (localGetLeaderboard g' st).1.
Proof.
  intros Hg Hd lb t Hs Hlen Ht. subst lb t.
  unfold localSubmitScore, localGetLeaderboard in *.
  destruct (getLocalLeaderboards st) as [lbs st1] eqn:E.
  cbn [fst snd] in *.
  set (lb := default [] (lbs !! g)) in *.
  rewrite Hg.
  destruct (scoreQualifies g score lb) eqn:Hq.
  2:{ exfalso. apply Ht. apply dec_stable. intros Hne.
      apply (scoreQualifies_getRank_ordered g game d) in Hne; [|done..].
      congruence. }
  cbn [negb fst snd]. unfold saveLocalLeaderboards.
  rewrite !getLocalLeaderboards_Some. cbn [fst snd].
  split; [done|].
  pose proof (Browser_getRank_range g score lb) as Hrange.
  cbv zeta in Hrange.
  destruct Hrange as [?|Hrange]; [done|].
  split.
  - rewrite lookup_insert_eq. cbn [default].
    rewrite splice_insert_at by done.
    apply pop_take. rewrite length_insert_at. lia.
  - intros g' Hne. by rewrite lookup_insert_ne.
Qed.

(** In every case the stored list of the game ends up within
    [MAX_ENTRIES], and the other lists are untouched. *)
Lemma localSubmitScore_length g playerName score now st :
  let out := localSubmitScore g playerName score now st in
  (Z.of_nat (length (localGetLeaderboard g st).1) <= MAX_ENTRIES →
   Z.of_nat (length (localGetLeaderboard g out.2).1) <= MAX_ENTRIES)
  ∧ ∀ g', g' ≠ g →
      (localGetLeaderboard g' out.2).1 = (localGetLeaderboard g' st).1.
Proof.
  cbv zeta. unfold localSubmitScore, localGetLeaderboard.
  pose proof (getLocalLeaderboards_snd st) as Hsnd.
  destruct (getLocalLeaderboards st) as [lbs st1] eqn:E.
  cbn [fst snd] in *. subst st1.
  set (lb := default [] (lbs !! g)) in *.
  destruct (GAMES !! g) as [game|] eqn:Hg.
  2:{ cbn [fst snd]. by rewrite getLocalLeaderboards_Some. }
  destruct (scoreQualifies g score lb) eqn:Hq; cbn [negb fst snd].
  2:{ by rewrite getLocalLeaderboards_Some. }
  unfold saveLocalLeaderboards. rewrite getLocalLeaderboards_Some.
  cbn [fst snd].
  split.
  - intros Hlen. rewrite lookup_insert_eq. cbn [default]. unfold id.
    unfold MAX_ENTRIES in *.
    assert (length (Js.splice_insert (getRank g score lb - 1)
                      (mkEntry playerName score now) lb)
            = S (length lb)) as Hl.
    { unfold Js.splice_insert. rewrite length_app, length_take.
      cbn [length]. rewrite length_drop. lia. }
    destruct (Z.ltb_spec 10 (Z.of_nat (length (Js.splice_insert
                (getRank g score lb - 1) (mkEntry playerName score now) lb))));
      [unfold Js.pop; rewrite length_take|]; lia.
  - intros g' Hne. by rewrite lookup_insert_ne.
Qed.

End LocalStep.

(** * The claims *)

(** ** Tactics for the concrete instances *)

(** Closes a goal that evaluates to a trivial one. *)
Ltac by_compute :=
  vm_compute;
  first [ reflexivity | exact I | discriminate | (intros ?; discriminate)
        | lia ].

(** Proves that a concrete list of scores is (strictly) ordered. *)
Ltac sorted_by_compute :=
  unfold Spec.ordered, Spec.strictly_ordered;
  match goal with
  | |- StronglySorted _ ?l =>
      let l' := eval vm_compute in l in
      replace l with l' by (vm_compute; reflexivity)
  end;
  repeat first [ apply SSorted_nil | apply SSorted_cons
               | apply Forall_nil_2 | apply Forall_cons_2 ];
  simpl; lia.

(** Refutes that a concrete list of scores is (strictly) ordered. *)
Ltac not_sorted_by_compute :=
  unfold Spec.ordered, Spec.strictly_ordered;
  let H := fresh "H" in
  intros H;
  match type of H with
  | StronglySorted _ ?l =>
      let l' := eval vm_compute in l in
      replace l with l' in H by (vm_compute; reflexivity)
  end;
  repeat match goal with
         | H : StronglySorted _ (_ :: _) |- _ =>
             apply StronglySorted_cons in H as [? ?]
         | H : Forall _ (_ :: _) |- _ => apply Forall_cons in H as [? ?]
         end;
  simpl in *; lia.

Section RankAndInvariantClaims.
Import Api Spec Abs Examples.

Implicit Types (g gameId playerName : string) (score now : Z).
Implicit Types (d : Direction) (st : Browser.Storage).
Implicit Types (subs : list Runs.Submission).

(** ** Rank computation *)

(** C6. Both rank functions follow the single rule [computeRank] of the
    specification, with capacity 10: the rank is [i + 1] for the first
    entry [i] that the new score strictly beats under the direction of
    the score type; when no entry is beaten it is [length + 1] if the
    list is shorter than the capacity and [-1] otherwise.  For the
    Lambda function this holds for the score types ["high"] and
    ["low"], for the browser function for every configured game. *)
Theorem getRank_follows_computeRank :
  (∀ scoreType d score (leaderboard : list Lambda.Item.t),
     direction_of scoreType = Some d →
     Lambda.getRank scoreType score leaderboard
     = computeRank score (Lambda.Item.score <$> leaderboard) d 10)
  ∧ (∀ gameId game score (leaderboard : list Entry),
       Browser.GAMES !! gameId = Some game →
       ∃ d, direction_of (Browser.scoreType game) = Some d
            ∧ Browser.getRank gameId score leaderboard
              = computeRank score (Api.score <$> leaderboard) d 10).
Proof.
  split.
  - intros. by apply computeRank_lambda.
  - intros gameId game score leaderboard Hg.
    destruct (Browser_GAMES_direction gameId game Hg) as [d Hd].
    exists d. split; [done|]. by apply (computeRank_browser gameId game).
Qed.

Lemma getRank_follows_computeRank_witness :
  Lambda.getRank "low" 40
    (renumber "bedtime-berzerk"
       [Lambda.Attrs.mk "A" 30 0 "low"; Lambda.Attrs.mk "B" 45 0 "low"])
  = computeRank 40 [30; 45] LowerIsBetter 10
  ∧ ∃ d, direction_of "high" = Some d
         ∧ Browser.getRank "snake" 95 [mkEntry "A" 100 0; mkEntry "B" 90 0]
           = computeRank 95 [100; 90] d 10.
Proof.
  destruct getRank_follows_computeRank as [HL HB]. split.
  - apply (HL "low" LowerIsBetter 40). reflexivity.
  - apply (HB "snake" (Browser.mkGame "Snake" "high" "score") 95
              [mkEntry "A" 100 0; mkEntry "B" 90 0]).
    reflexivity.
Defined.

(** C10. For a configured game and a leaderboard strictly ordered by the
    game's score type, [scoreQualifies] answers [true] exactly when
    [getRank] returns a rank other than [-1]. *)
Theorem scoreQualifies_iff_getRank gameId game d score leaderboard :
  Browser.GAMES !! gameId = Some game →
  direction_of (Browser.scoreType game) = Some d →
  strictly_ordered d (Api.score <$> leaderboard) →
  Browser.scoreQualifies gameId score leaderboard = true
  ↔ Browser.getRank gameId score leaderboard ≠ -1.
Proof.
  intros Hg Hd Hs.
  apply (scoreQualifies_getRank_ordered gameId game d); [done..|].
  by apply strictly_ordered_ordered.
Qed.

Lemma scoreQualifies_iff_getRank_witness :
  Browser.scoreQualifies "snake" 95 ((λ s, mkEntry "P" s 0) <$> full_scores)
  = true
  ↔ Browser.getRank "snake" 95 ((λ s, mkEntry "P" s 0) <$> full_scores)
    ≠ -1.
Proof.
  apply (scoreQualifies_iff_getRank
           "snake" (Browser.mkGame "Snake" "high" "score") HigherIsBetter).
  - reflexivity.
  - reflexivity.
  - unfold strictly_ordered. simpl.
    repeat (constructor; [|repeat constructor; simpl; lia]). constructor.
Defined.

(** ** Ties *)

Lemma localGetLeaderboard_init g st :
  (Browser.localGetLeaderboard g (Browser.getLocalLeaderboards st).2).1
  = (Browser.localGetLeaderboard g st).1.
Proof. by destruct st. Qed.

Lemma last_lookup_length {A} (l : list A) (e : A) :
  last l = Some e → l !! (length l - 1)%nat = Some e.
Proof.
  intros [l' ->]%last_Some. rewrite length_app. simpl.
  rewrite lookup_app_r by lia.
  by replace (length l' + 1 - 1 - length l')%nat with 0%nat by lia.
Qed.

(** C5. Ties never displace.  On a leaderboard ordered by the score
    type (equal scores allowed), a submitted score equal to the score of
    the entry at position [j] is ranked behind that entry or rejected,
    and after the submission the entry is still at position [j]; on a
    full leaderboard a score equal to the worst entry's is answered
    [{qualified: false, rank: -1}] and nothing stored changes.  This
    holds for the local mirror and, from a snapshot with dense ranks,
    for the table. *)
Theorem ties_never_displace :
  (∀ g game d playerName score now st (j : nat) e,
     Browser.GAMES !! g = Some game →
     direction_of (Browser.scoreType game) = Some d →
     let lb := (Browser.localGetLeaderboard g st).1 in
     ordered d (Api.score <$> lb) →
     Z.of_nat (length lb) <= 10 →
     lb !! j = Some e → Api.score e = score →
     let t := Browser.getRank g score lb in
     let out := Browser.localSubmitScore g playerName score now st in
     (t = -1 ∨ Z.of_nat j + 1 < t)
     ∧ (Browser.localGetLeaderboard g out.2).1 !! j = Some e
     ∧ (length lb = 10%nat → last lb = Some e →
        out.1 = mkResult false (-1) None
        ∧ ∀ g', (Browser.localGetLeaderboard g' out.2).1
                = (Browser.localGetLeaderboard g' st).1))
  ∧ (∀ g game d playerName score now (tbl : Lambda.Table) (j : nat) e,
       Lambda.GAMES !! g = Some game →
       direction_of (Lambda.Game.scoreType game) = Some d →
       let S := Lambda.getLeaderboardWithRanks g tbl in
       dense S → Z.of_nat (length S) <= 10 →
       ordered d (Lambda.Item.score <$> S) →
       S !! j = Some e → Lambda.Item.score e = score →
       let t := Lambda.getRank (Lambda.Game.scoreType game) score S in
       let out := Lambda.submitScore g playerName score now tbl in
       (t = -1 ∨ Z.of_nat j + 1 < t)
       ∧ Lambda.getLeaderboardWithRanks g out.2 !! j = Some e
       ∧ (length S = 10%nat → last S = Some e →
          out = (mkResult false (-1) None, tbl))).
Proof.
  split.
  - intros g game d playerName score now st j e Hg Hd lb Hs Hlen Hj He t out.
    assert (∀ i x, lb !! i = Some x → Api.score x = score →
                   t = -1 ∨ Z.of_nat i + 1 < t) as Htie.
    { intros i x Hi Hx. subst t.
      rewrite (computeRank_browser g game d) by done.
      apply computeRank_tie; [done|].
      by rewrite list_lookup_fmap, Hi, <- Hx. }
    split; [by eapply Htie|].
    destruct (decide (t = -1)) as [Hrej|Hq].
    + assert (out = (Browser.not_qualified,
                     (Browser.getLocalLeaderboards st).2)) as ->
        by (by eapply localSubmitScore_rejected).
      cbn [fst snd]. rewrite !localGetLeaderboard_init. split; [done|].
      intros _ _. split; [done|]. intros g'.
      by rewrite localGetLeaderboard_init.
    + destruct (localSubmitScore_step g game d playerName score now st
                  Hg Hd Hs Hlen Hq) as (Hres & Hlist & Hother).
      fold lb t out in Hres, Hlist, Hother.
      pose proof (Browser_getRank_range g score lb) as Hrange.
      cbv zeta in Hrange. fold t in Hrange.
      destruct (Htie j e Hj He) as [?|Hjt]; [done|].
      split.
      * rewrite Hlist. unfold Browser.MAX_ENTRIES.
        rewrite lookup_take_lt by lia.
        rewrite lookup_insert_at by lia. by rewrite decide_True by lia.
      * intros Hfull Hlast. exfalso.
        apply last_lookup_length in Hlast.
        destruct (Htie _ _ Hlast He) as [?|Hlt]; [done|].
        subst t. rewrite (computeRank_browser g game d) in * by done.
        pose proof (computeRank_range score (Api.score <$> lb) d 10) as Hr.
        cbv zeta in Hr. rewrite length_fmap in Hr.
        unfold NOT_QUALIFIED, Browser.MAX_ENTRIES in *. lia.
  - intros g game d playerName score now tbl j e Hg Hd S Hdense Hlen Hs Hj He
           t out.
    assert (∀ i x, S !! i = Some x → Lambda.Item.score x = score →
                   t = -1 ∨ Z.of_nat i + 1 < t) as Htie.
    { intros i x Hi Hx. subst t.
      rewrite (computeRank_lambda _ d) by done.
      apply computeRank_tie; [done|].
      by rewrite list_lookup_fmap, Hi, <- Hx. }
    split; [by eapply Htie|].
    pose proof (getRank_range (Lambda.Game.scoreType game) score S)
      as Hrange. cbv zeta in Hrange. fold t in Hrange.
    destruct (decide (t = -1)) as [Hrej|Hq].
    + assert (out = (mkResult false (-1) None, tbl)) as ->
        by (by eapply submitScore_rejected).
      done.
    + destruct (Htie j e Hj He) as [?|Hjt]; [done|].
      unfold Lambda.MAX_ENTRIES in *.
      split.
      * subst out.
        rewrite (submitScore_step g game) by done. fold S t.
        rewrite renumber_lookup. unfold reconciled.
        rewrite lookup_take_lt by (case_decide; lia).
        rewrite lookup_insert_at by (rewrite length_fmap; lia).
        rewrite decide_True by lia.
        rewrite list_lookup_fmap, Hj. simpl. f_equal.
        assert (Lambda.Item.rank e = Z.of_nat j + 1) as <-.
        { assert ((Lambda.Item.rank <$> S) !! j
                  = Some (Lambda.Item.rank e)) as Hr
            by (by rewrite list_lookup_fmap, Hj).
          rewrite Hdense in Hr. apply lookup_seqZ in Hr. lia. }
        assert (Lambda.Item.gameId e = g) as <-.
        { eapply snapshot_gameId, list_elem_of_lookup_2, Hj. }
        apply Item_make_attrs.
      * intros Hfull Hlast. exfalso.
        apply last_lookup_length in Hlast.
        destruct (Htie _ _ Hlast He) as [?|Hlt]; [done|]. lia.
Qed.

Lemma ties_never_displace_witness :
  let st := local_after "snake" full_scores None in
  let tbl := remote_after "snake" full_scores ∅ in
  (Browser.localSubmitScore "snake" "Q" 10 1 st).1
  = mkResult false (-1) None
  ∧ Lambda.submitScore "snake" "Q" 10 1 tbl
    = (mkResult false (-1) None, tbl).
Proof.
  intros st tbl. destruct ties_never_displace as [HB HL]. split.
  - destruct (HB "snake" (Browser.mkGame "Snake" "high" "score")
                 HigherIsBetter "Q" 10 1 st 9%nat (mkEntry "P" 10 0))
      as (_ & _ & Hfull).
    + reflexivity.
    + reflexivity.
    + sorted_by_compute.
    + by_compute.
    + by_compute.
    + reflexivity.
    + apply Hfull; by_compute.
  - destruct (HL "snake" (Lambda.Game.mk "high") HigherIsBetter "Q" 10 1
                 tbl 9%nat (Lambda.Item.mk "snake" 10 "P" 10 0 "high"))
      as (_ & _ & Hfull).
    + reflexivity.
    + reflexivity.
    + by_compute.
    + by_compute.
    + sorted_by_compute.
    + by_compute.
    + reflexivity.
    + apply Hfull; by_compute.
Defined.

(** ** Capacity *)

Lemma emptyLeaderboards_lookup g l :
  Browser.emptyLeaderboards !! g = Some l → l = [].
Proof.
  intros H. apply elem_of_list_to_map_2 in H.
  apply list_elem_of_fmap in H as ([k game] & [= -> ->] & _). done.
Qed.

Lemma local_None_stored g : (Browser.localGetLeaderboard g None).1 = [].
Proof.
  unfold Browser.localGetLeaderboard. cbn [Browser.getLocalLeaderboards
    Browser.initStorage fst snd].
  destruct (Browser.emptyLeaderboards !! g) as [l|] eqn:E; [|done].
  by apply emptyLeaderboards_lookup in E as ->.
Qed.

Lemma local_run_snoc (subs : list Runs.Submission) (s : Runs.Submission) st :
  Runs.local (subs ++ [s]) st
  = (Browser.localSubmitScore (Runs.gameId s) (Runs.playerName s)
       (Runs.score s) (Runs.now s) (Runs.local subs st)).2.
Proof. unfold Runs.local. by rewrite foldl_app. Qed.

Lemma remote_run_snoc (subs : list Runs.Submission) (s : Runs.Submission)
    (tbl : Lambda.Table) :
  Runs.remote (subs ++ [s]) tbl
  = (Lambda.submitScore (Runs.gameId s) (Runs.playerName s)
       (Runs.score s) (Runs.now s) (Runs.remote subs tbl)).2.
Proof. unfold Runs.remote. by rewrite foldl_app. Qed.

Lemma remote_run_ranks_bounded subs :
  ranks_bounded (Runs.remote subs ∅).
Proof.
  induction subs as [|s subs IH] using rev_ind.
  - intros g r [a Ha]. unfold Runs.remote in Ha. cbn [foldl] in Ha.
    by rewrite lookup_empty in Ha.
  - rewrite remote_run_snoc. by apply submitScore_ranks_bounded.
Qed.

Lemma local_run_length subs g :
  Z.of_nat (length (Browser.localGetLeaderboard g (Runs.local subs None)).1)
  <= 10.
Proof.
  revert g. induction subs as [|s subs IH] using rev_ind; intros g.
  - unfold Runs.local. cbn [foldl]. rewrite local_None_stored.
    cbn [length]. lia.
  - rewrite local_run_snoc.
    destruct (localSubmitScore_length (Runs.gameId s) (Runs.playerName s)
                (Runs.score s) (Runs.now s) (Runs.local subs None))
      as [Hsame Hother].
    destruct (decide (g = Runs.gameId s)) as [->|Hne].
    + apply Hsame, IH.
    + rewrite Hother by done. apply IH.
Qed.

(** C7. Capacity bound.  A submission on a table whose ranks all lie in
    [1 .. 10] leaves such a table, on which every category reads as at
    most 10 entries; a submission on the local mirror leaves a list of
    at most 10 entries wherever the list had at most 10 before; and
    after any sequence of submissions from the empty table and the
    empty mirror, every category holds at most 10 entries and none at a
    rank beyond 10. *)
Theorem capacity_bound :
  (∀ g playerName score now (tbl : Lambda.Table),
     ranks_bounded tbl →
     let tbl' := (Lambda.submitScore g playerName score now tbl).2 in
     ranks_bounded tbl'
     ∧ ∀ g', Z.of_nat (length (Lambda.getLeaderboardWithRanks g' tbl')) <= 10)
  ∧ (∀ g playerName score now st g',
       let st' := (Browser.localSubmitScore g playerName score now st).2 in
       Z.of_nat (length (Browser.localGetLeaderboard g' st).1) <= 10 →
       Z.of_nat (length (Browser.localGetLeaderboard g' st').1) <= 10)
  ∧ (∀ subs g,
       ranks_bounded (Runs.remote subs ∅)
       ∧ Z.of_nat (length (Lambda.getLeaderboardWithRanks
                             g (Runs.remote subs ∅))) <= 10
       ∧ Z.of_nat (length (Browser.localGetLeaderboard
                             g (Runs.local subs None)).1) <= 10).
Proof.
  split; [|split].
  - intros g playerName score now tbl Hb tbl'.
    assert (ranks_bounded tbl') as Hb'
      by (by apply submitScore_ranks_bounded).
    split; [done|]. intros g'. by apply ranks_bounded_length.
  - intros g playerName score now st g' st' Hlen. subst st'.
    destruct (localSubmitScore_length g playerName score now st)
      as [Hsame Hother].
    destruct (decide (g' = g)) as [->|Hne].
    + by apply Hsame.
    + by rewrite Hother.
  - intros subs g. split; [apply remote_run_ranks_bounded|]. split.
    + apply ranks_bounded_length, remote_run_ranks_bounded.
    + apply local_run_length.
Qed.

Lemma capacity_bound_witness :
  let tbl := remote_after "snake" full_scores ∅ in
  let st := local_after "snake" full_scores None in
  Z.of_nat (length (Lambda.getLeaderboardWithRanks
                      "snake" (Lambda.submitScore "snake" "Q" 95 1 tbl).2))
  <= 10
  ∧ Z.of_nat (length (Browser.localGetLeaderboard "snake"
                (Browser.localSubmitScore "snake" "Q" 95 1 st).2).1) <= 10.
Proof.
  intros tbl st. destruct capacity_bound as (HR & HL & _). split.
  - apply (HR "snake" "Q" 95 1 tbl).
    apply (bool_decide_unpack _). by_compute.
  - apply (HL "snake" "Q" 95 1 st "snake"). by_compute.
Defined.

(** ** The invariant of a submission *)

(** C1, as stated, fails on a tie: on a board that holds the single
    score 100, with dense ranks and strictly ordered, a second
    submission of 100 qualifies, and the stored scores [100; 100] are
    not strictly ordered afterwards, on the local mirror and on the
    table alike. *)
Lemma tie_breaks_strict_order :
  let st := local_after "snake" [100] None in
  let tbl := remote_after "snake" [100] ∅ in
  let outL := Browser.localSubmitScore "snake" "Q" 100 1 st in
  let outR := Lambda.submitScore "snake" "Q" 100 1 tbl in
  (strictly_ordered HigherIsBetter
     (Api.score <$> (Browser.localGetLeaderboard "snake" st).1)
   ∧ qualified outL.1 = true
   ∧ ¬ strictly_ordered HigherIsBetter
         (Api.score <$> (Browser.localGetLeaderboard "snake" outL.2).1))
  ∧ (dense (Lambda.getLeaderboardWithRanks "snake" tbl)
     ∧ strictly_ordered HigherIsBetter
         (Lambda.Item.score <$> Lambda.getLeaderboardWithRanks "snake" tbl)
     ∧ qualified outR.1 = true
     ∧ ¬ strictly_ordered HigherIsBetter
           (Lambda.Item.score
              <$> Lambda.getLeaderboardWithRanks "snake" outR.2)).
Proof.
  intros st tbl outL outR. split; [split; [|split]|split; [|split; [|split]]].
  - sorted_by_compute.
  - by_compute.
  - not_sorted_by_compute.
  - by_compute.
  - sorted_by_compute.
  - by_compute.
  - not_sorted_by_compute.
Qed.

Lemma length_reconciled {A} t (x : A) (l : list A) :
  Z.of_nat (length (reconciled t x l)) <= 10.
Proof. unfold reconciled. rewrite length_take. case_decide; lia. Qed.

(** One qualifying submission on the table, from a consistent snapshot. *)
Lemma submitScore_keeps_invariant g (game : Lambda.Game.t) d playerName score
    now (tbl : Lambda.Table) :
  Lambda.GAMES !! g = Some game →
  direction_of (Lambda.Game.scoreType game) = Some d →
  let S := Lambda.getLeaderboardWithRanks g tbl in
  dense S → Z.of_nat (length S) <= 10 →
  ordered d (Lambda.Item.score <$> S) →
  let out := Lambda.submitScore g playerName score now tbl in
  qualified out.1 = true →
  let S' := Lambda.getLeaderboardWithRanks g out.2 in
  dense S' ∧ Z.of_nat (length S') <= 10
  ∧ ordered d (Lambda.Item.score <$> S')
  ∧ (strictly_ordered d (Lambda.Item.score <$> S) →
     score ∉ Lambda.Item.score <$> S →
     strictly_ordered d (Lambda.Item.score <$> S')).
Proof.
  intros Hg Hd S Hdense Hlen Hs out Hq S'.
  destruct (decide (Lambda.getRank (Lambda.Game.scoreType game) score S
                    = -1)) as [Hrej|Ht].
  { subst out. rewrite (submitScore_rejected g game) in Hq by done.
    done. }
  subst S' out. rewrite (submitScore_step g game) by done. fold S.
  rewrite (computeRank_lambda _ d) in * by done.
  set (t := computeRank score (Lambda.Item.score <$> S) d
                        Lambda.MAX_ENTRIES) in *.
  split; [apply renumber_dense|].
  split; [rewrite renumber_length; apply length_reconciled|].
  rewrite renumber_scores, fmap_reconciled, <- list_fmap_compose.
  change (Lambda.Attrs.score ∘ Lambda.Item.attrs) with Lambda.Item.score.
  cbn [Lambda.Attrs.score Lambda.Item.attrs newEntry_of Lambda.Item.score].
  split.
  - by apply ordered_reconciled.
  - intros. by apply strictly_ordered_reconciled.
Qed.

(** One qualifying submission on the local mirror. *)
Lemma localSubmitScore_keeps_invariant g (game : Browser.Game) d playerName
    score now st :
  Browser.GAMES !! g = Some game →
  direction_of (Browser.scoreType game) = Some d →
  let lb := (Browser.localGetLeaderboard g st).1 in
  Z.of_nat (length lb) <= 10 →
  ordered d (Api.score <$> lb) →
  let out := Browser.localSubmitScore g playerName score now st in
  qualified out.1 = true →
  let lb' := (Browser.localGetLeaderboard g out.2).1 in
  Z.of_nat (length lb') <= 10
  ∧ ordered d (Api.score <$> lb')
  ∧ (strictly_ordered d (Api.score <$> lb) →
     score ∉ Api.score <$> lb →
     strictly_ordered d (Api.score <$> lb')).
Proof.
  intros Hg Hd lb Hlen Hs out Hq lb'.
  destruct (decide (Browser.getRank g score lb = -1)) as [Hrej|Ht].
  { subst out.
    rewrite (localSubmitScore_rejected g game d) in Hq by done. done. }
  destruct (localSubmitScore_step g game d playerName score now st
              Hg Hd Hs Hlen Ht) as (_ & Hlist & _).
  subst lb' out. rewrite Hlist. fold lb.
  rewrite (computeRank_browser g game d) in * by done.
  split.
  { rewrite length_take. unfold Browser.MAX_ENTRIES. lia. }
  rewrite fmap_take, fmap_insert_at. cbn [Api.score].
  split.
  - by apply ordered_take, ordered_insert_at.
  - intros. by apply strictly_ordered_take, strictly_ordered_insert_at.
Qed.

Lemma getLeaderboardWithRanks_empty g :
  Lambda.getLeaderboardWithRanks g ∅ = [].
Proof.
  apply getLeaderboardWithRanks_unique; [constructor|].
  intros it. rewrite lookup_empty. split.
  - by intros ?%elem_of_nil.
  - by intros [_ ?].
Qed.

(** Every submission keeps the table consistent. *)
Lemma submitScore_consistent g playerName score now (tbl : Lambda.Table) :
  consistent tbl →
  consistent (Lambda.submitScore g playerName score now tbl).2.
Proof.
  intros Hc g'. destruct (decide (g' = g)) as [->|Hne].
  2:{ rewrite (getLeaderboardWithRanks_ext g' tbl).
      - apply Hc.
      - intros r. by apply submitScore_other. }
  destruct (Hc g) as (Hdense & Hlen & Hord).
  destruct (submitScore_cases g playerName score now tbl)
    as [(_ & _ & Heq)|(game & Hg & Ht & Hout)].
  { rewrite Heq. apply Hc. }
  destruct (Lambda_GAMES_direction g game Hg) as [d Hd].
  destruct (submitScore_keeps_invariant g game d playerName score now tbl
              Hg Hd Hdense Hlen (Hord game d Hg Hd))
    as (Hdense' & Hlen' & Hord' & _).
  { by rewrite Hout. }
  split; [done|]. split; [done|].
  intros game' d' Hg' Hd'. by simplify_eq.
Qed.

Lemma remote_run_consistent subs : consistent (Runs.remote subs ∅).
Proof.
  induction subs as [|s subs IH] using rev_ind.
  - intros g. unfold Runs.remote. cbn [foldl].
    rewrite getLeaderboardWithRanks_empty.
    split; [done|]. split; [unfold Lambda.MAX_ENTRIES; simpl; lia|].
    intros. constructor.
  - rewrite remote_run_snoc. by apply submitScore_consistent.
Qed.

(** Every submission keeps the lists of the mirror ordered and within
    the capacity. *)
Lemma localSubmitScore_consistent g playerName score now st :
  local_consistent st →
  local_consistent (Browser.localSubmitScore g playerName score now st).2.
Proof.
  intros Hc g' game' d' Hg' Hd'.
  destruct (Hc g' game' d' Hg' Hd') as [Hlen Hord].
  destruct (decide (g' = g)) as [->|Hne].
  2:{ destruct (localSubmitScore_length g playerName score now st)
        as [_ Hother]. by rewrite Hother. }
  destruct (decide (Browser.getRank g score
                      (Browser.localGetLeaderboard g st).1 = -1))
    as [Hrej|Ht].
  { rewrite (localSubmitScore_rejected g game' d') by done.
    cbn [snd]. by rewrite localGetLeaderboard_init. }
  destruct (localSubmitScore_keeps_invariant g game' d' playerName score now
              st Hg' Hd' Hlen Hord) as (Hlen' & Hord' & _); [|done].
  destruct (localSubmitScore_step g game' d' playerName score now st
              Hg' Hd' Hord Hlen Ht) as (-> & _). done.
Qed.

Lemma local_run_consistent subs : local_consistent (Runs.local subs None).
Proof.
  induction subs as [|s subs IH] using rev_ind.
  - intros g game d _ _. unfold Runs.local. cbn [foldl].
    rewrite local_None_stored.
    split; [unfold Browser.MAX_ENTRIES; simpl; lia|constructor].
  - rewrite local_run_snoc. by apply localSubmitScore_consistent.
Qed.

(** C1, amended.  A qualifying submission keeps the ranks dense and the
    scores ordered best first, equal scores allowed (a tie is stored
    behind the entry it ties with); the order is strict when it was
    strict before and the submitted score is not yet on the board.
    For the table: from a snapshot with ranks exactly [1 .. n],
    [n <= 10], the snapshot afterwards has ranks exactly [1 .. n'] with
    [n' <= 10].  For the local mirror, where the rank is the position
    in the list: from a list of at most 10 entries.  Hence after any
    sequence of submissions from the empty table and the empty mirror,
    every category has dense ranks and ordered scores. *)
Theorem submit_keeps_ranks_dense_and_scores_ordered :
  (∀ g game d playerName score now (tbl : Lambda.Table),
     Lambda.GAMES !! g = Some game →
     direction_of (Lambda.Game.scoreType game) = Some d →
     let S := Lambda.getLeaderboardWithRanks g tbl in
     dense S → Z.of_nat (length S) <= 10 →
     ordered d (Lambda.Item.score <$> S) →
     let out := Lambda.submitScore g playerName score now tbl in
     qualified out.1 = true →
     let S' := Lambda.getLeaderboardWithRanks g out.2 in
     dense S' ∧ Z.of_nat (length S') <= 10
     ∧ ordered d (Lambda.Item.score <$> S')
     ∧ (strictly_ordered d (Lambda.Item.score <$> S) →
        score ∉ Lambda.Item.score <$> S →
        strictly_ordered d (Lambda.Item.score <$> S')))
  ∧ (∀ g game d playerName score now st,
       Browser.GAMES !! g = Some game →
       direction_of (Browser.scoreType game) = Some d →
       let lb := (Browser.localGetLeaderboard g st).1 in
       Z.of_nat (length lb) <= 10 →
       ordered d (Api.score <$> lb) →
       let out := Browser.localSubmitScore g playerName score now st in
       qualified out.1 = true →
       let lb' := (Browser.localGetLeaderboard g out.2).1 in
       Z.of_nat (length lb') <= 10
       ∧ ordered d (Api.score <$> lb')
       ∧ (strictly_ordered d (Api.score <$> lb) →
          score ∉ Api.score <$> lb →
          strictly_ordered d (Api.score <$> lb')))
  ∧ (∀ subs,
       consistent (Runs.remote subs ∅)
       ∧ local_consistent (Runs.local subs None)).
Proof.
  split; [|split].
  - intros. by eapply submitScore_keeps_invariant.
  - intros. by eapply localSubmitScore_keeps_invariant.
  - intros subs. split.
    + apply remote_run_consistent.
    + apply local_run_consistent.
Qed.

Lemma submit_keeps_ranks_dense_and_scores_ordered_witness :
  let st := local_after "snake" [100] None in
  let tbl := remote_after "snake" [100] ∅ in
  let outL := Browser.localSubmitScore "snake" "Q" 100 1 st in
  let outR := Lambda.submitScore "snake" "Q" 100 1 tbl in
  (dense (Lambda.getLeaderboardWithRanks "snake" outR.2)
   ∧ ordered HigherIsBetter
       (Lambda.Item.score <$> Lambda.getLeaderboardWithRanks "snake" outR.2))
  ∧ ordered HigherIsBetter
      (Api.score <$> (Browser.localGetLeaderboard "snake" outL.2).1).
Proof.
  intros st tbl outL outR.
  destruct submit_keeps_ranks_dense_and_scores_ordered as (HR & HL & _).
  split.
  - destruct (HR "snake" (Lambda.Game.mk "high") HigherIsBetter "Q" 100 1
                 tbl) as (Hd & _ & Ho & _).
    + reflexivity.
    + reflexivity.
    + by_compute.
    + by_compute.
    + sorted_by_compute.
    + by_compute.
    + split; [exact Hd|exact Ho].
  - destruct (HL "snake" (Browser.mkGame "Snake" "high" "score")
                 HigherIsBetter "Q" 100 1 st) as (_ & Ho & _).
    + reflexivity.
    + reflexivity.
    + by_compute.
    + sorted_by_compute.
    + by_compute.
    + exact Ho.
Defined.

End RankAndInvariantClaims.

(** ** The shift loop and the scenario of the full board *)

Section ShiftLoopClaims.
Import Api Spec Abs Examples.

(** C2.  The shift loop does not run highest rank first: the entries it
    visits, those of the snapshot with [rank >= targetRank], come in
    strictly ascending rank order, always.  On the full board
    [100, 90, ..., 10], a submission of 95 (rank 2) sends the writes
    below in this order: the entry with score 20 is put at rank 10,
    then the visit of the snapshot's entry of rank 10 deletes rank 10,
    and the board is left with nine entries.  Per entry the loop does
    as claimed: a put at [rank + 1] when [rank + 1 <= 10], a delete of
    [rank] otherwise. *)
Theorem shift_loop_visits_ranks_ascending :
  (∀ g (tbl : Lambda.Table) (t : Z),
     StronglySorted Z.lt
       (Lambda.Item.rank
          <$> filter (λ e, t <= Lambda.Item.rank e)
                     (Lambda.getLeaderboardWithRanks g tbl)))
  ∧ (let tbl := remote_after "snake" full_scores ∅ in
     let S := Lambda.getLeaderboardWithRanks "snake" tbl in
     let commands :=
       Lambda.submitScore_commands
         "snake" (newEntry_of "snake" (Lambda.Game.mk "high") "Q" 95 1 2)
         2 S in
     written <$> commands
     = [Put 3 90; Put 4 80; Put 5 70; Put 6 60; Put 7 50; Put 8 40;
        Put 9 30; Put 10 20; Delete 10; Put 2 95; Delete 11]
     ∧ (Lambda.submitScore "snake" "Q" 95 1 tbl).2
       = Lambda.send_all commands tbl
     ∧ remote_scores "snake" (Lambda.send_all commands tbl)
       = [100; 95; 90; 80; 70; 60; 50; 40; 30]).
Proof.
  split.
  - intros g tbl t.
    apply (StronglySorted_fmap _ rank_lt); [done|].
    apply StronglySorted_filter_rank, getLeaderboardWithRanks_sorted.
  - intros tbl S commands. split; [|split].
    + vm_compute. reflexivity.
    + rewrite (submitScore_qualified "snake" (Lambda.Game.mk "high"));
        [|reflexivity|by_compute].
      cbn [snd]. fold tbl S.
      replace (Lambda.getRank (Lambda.Game.scoreType (Lambda.Game.mk "high"))
                              95 S) with 2 by (vm_compute; reflexivity).
      reflexivity.
    + vm_compute. reflexivity.
Qed.

(** C3.  The full HigherIsBetter board [100, 90, ..., 10] and a
    submission of 95.  Both sides answer [{qualified: true, rank: 2}].
    The local mirror then holds [100, 95, 90, ..., 20].  The table holds
    [100, 95, 90, ..., 30], nine entries: the entry with score 20 is
    lost together with the evicted one. *)
Theorem full_board_submit_95 :
  let tbl := remote_after "snake" full_scores ∅ in
  let st := local_after "snake" full_scores None in
  let outR := Lambda.submitScore "snake" "Q" 95 1 tbl in
  let outL := Browser.localSubmitScore "snake" "Q" 95 1 st in
  (remote_scores "snake" tbl = full_scores
   ∧ outR.1 = mkResult true 2 None
   ∧ remote_scores "snake" outR.2 = [100; 95; 90; 80; 70; 60; 50; 40; 30]
   ∧ Lambda.Item.score <$> Lambda.getLeaderboardWithRanks "snake" outR.2
     = [100; 95; 90; 80; 70; 60; 50; 40; 30])
  ∧ (local_scores "snake" st = full_scores
     ∧ outL.1 = mkResult true 2 None
     ∧ local_scores "snake" outL.2
       = [100; 95; 90; 80; 70; 60; 50; 40; 30; 20]).
Proof. vm_compute. repeat split; reflexivity. Qed.

End ShiftLoopClaims.

(** ** The write path of the browser module *)

Section WritePathClaims.
Import Api Spec Abs Examples.

(** C4, as stated, fails: when [fetch] throws, [apiSubmitScore] answers
    with the result of the local mirror, [{qualified: true, rank: 1}]
    here, which carries no sign of the failure. *)
Lemma failed_remote_submit_answers_from_mirror :
  let out := Browser.apiSubmitScore Browser.FetchThrows "snake" "AAA" 100 7
                                    None in
  out.1.1 = mkResult true 1 None
  ∧ out.1.1 = (Browser.localSubmitScore "snake" "AAA" 100 7 None).1
  ∧ error out.1.1 = None.
Proof. vm_compute. repeat split; reflexivity. Qed.

Lemma localSubmitScore_error g playerName score now st :
  error (Browser.localSubmitScore g playerName score now st).1 = None.
Proof.
  unfold Browser.localSubmitScore.
  destruct (Browser.getLocalLeaderboards st) as [lbs st1].
  destruct (Browser.GAMES !! g); [|done].
  by destruct (Browser.scoreQualifies _ _ _).
Qed.

(** C4, amended.  When the remote submit call fails (the fetch throws,
    the status is not OK, or the body does not parse), [apiSubmitScore]
    logs the failure with [console.error], submits the score to the
    local mirror and returns that result, which has no [error] field:
    the caller is not told.  When the call succeeds the body of the
    response is returned and the mirror is not touched. *)
Theorem apiSubmitScore_falls_back_to_mirror :
  (∀ remote g playerName score now st,
     Browser.try_fetch remote = None →
     let out := Browser.apiSubmitScore remote g playerName score now st in
     let local := Browser.localSubmitScore g playerName score now st in
     out = (local.1, local.2, ["Failed to submit score:"])
     ∧ error out.1.1 = None)
  ∧ (∀ body g playerName score now st,
       Browser.apiSubmitScore (Browser.ResponseOk body) g playerName score
                              now st
       = (body, st, [])).
Proof.
  split.
  - intros remote g playerName score now st Hfail out local.
    subst out local. unfold Browser.apiSubmitScore. rewrite Hfail.
    pose proof (localSubmitScore_error g playerName score now st) as He.
    destruct (Browser.localSubmitScore g playerName score now st)
      as [r st'].
    done.
  - done.
Qed.

Lemma apiSubmitScore_falls_back_to_mirror_witness :
  Browser.apiSubmitScore Browser.ResponseNotOk "snake" "AAA" 100 7 None
  = ((Browser.localSubmitScore "snake" "AAA" 100 7 None).1,
     (Browser.localSubmitScore "snake" "AAA" 100 7 None).2,
     ["Failed to submit score:"]).
Proof.
  destruct apiSubmitScore_falls_back_to_mirror as [Hfail _].
  apply (Hfail Browser.ResponseNotOk "snake" "AAA" 100 7 None).
  reflexivity.
Defined.

(** ** Player names *)


End WritePathClaims.

(** ** All leaderboards at once *)

Section GetAllClaims.
Import Api Spec Abs Examples.

Implicit Types (g : string) (subs : list Runs.Submission).

(** The items of the scan that belong to a game are the items of its
    partition, in the same order. *)
Lemma Scan_filter g (tbl : Lambda.Table) :
  filter (λ it, Lambda.Item.gameId it = g) (Lambda.Scan tbl)
  = Lambda.partition_items g tbl.
Proof.
  unfold Lambda.Scan, Lambda.partition_items.
  induction (map_to_list tbl) as [|[[g' r] a] l IH]; [done|].
  rewrite fmap_cons, filter_cons. cbn [omap list_omap fst snd].
  rewrite IH. cbn [Lambda.Item.make Lambda.Item.gameId].
  destruct (decide (g' = g)) as [->|Hne]; done.
Qed.

(** The grouping loop: the group of a game is what the map held for it
    before, followed by the scanned items of the game in scan order; a
    game gets a group as soon as it has an item. *)
Lemma foldl_group_item (items : list Lambda.Item.t)
    (result : gmap string (list Lambda.Ranked.t)) g :
  foldl Lambda.group_item result items !! g
  = match result !! g with
    | Some group =>
        Some (group ++ (Lambda.Ranked.of_item
                          <$> filter (λ it, Lambda.Item.gameId it = g) items))
    | None =>
        match filter (λ it, Lambda.Item.gameId it = g) items with
        | [] => None
        | its => Some (Lambda.Ranked.of_item <$> its)
        end
    end.
Proof.
  revert result. induction items as [|it items IH]; intros result.
  { simpl. destruct (result !! g); [by rewrite app_nil_r|done]. }
  cbn [foldl]. rewrite IH. clear IH. unfold Lambda.group_item.
  rewrite filter_cons.
  destruct (decide (Lambda.Item.gameId it = g)) as [<-|Hne].
  - rewrite lookup_insert_eq.
    destruct (result !! Lambda.Item.gameId it) as [group|] eqn:E.
    + rewrite E. simpl. by rewrite <- app_assoc.
    + rewrite lookup_insert_eq. done.
  - rewrite lookup_insert_ne by done.
    destruct (result !! Lambda.Item.gameId it) as [group|] eqn:E.
    + done.
    + by rewrite lookup_insert_ne by done.
Qed.

Lemma Lambda_result0_lookup g :
  (list_to_map ((λ kv : string * Lambda.Game.t, (kv.1, []))
                  <$> Lambda.GAMES_entries)
     : gmap string (list Lambda.Ranked.t)) !! g
  = (λ _, []) <$> Lambda.GAMES !! g.
Proof.
  unfold Lambda.GAMES.
  rewrite <- lookup_fmap, <- list_to_map_fmap. done.
Qed.

(** Sorting the group of a game gives the rank-ordered read of its
    partition. *)
Lemma merge_sort_group g (tbl : Lambda.Table) :
  merge_sort Lambda.Ranked.rank_le
             (Lambda.Ranked.of_item <$> Lambda.partition_items g tbl)
  = Lambda.Ranked.of_item <$> Lambda.getLeaderboardWithRanks g tbl.
Proof.
  rewrite getLeaderboardWithRanks_Query. unfold Lambda.Query.
  apply (StronglySorted_unique_strong Lambda.Ranked.rank_le).
  - intros x1 x2 H1 H2 H12 H21.
    rewrite merge_sort_Permutation in H1.
    apply list_elem_of_fmap in H1 as (it1 & -> & Hit1).
    apply list_elem_of_fmap in H2 as (it2 & -> & Hit2).
    rewrite merge_sort_Permutation in Hit2.
    f_equal. eapply partition_items_rank_inj; [done..|].
    unfold Lambda.Ranked.rank_le in *. simpl in *. lia.
  - apply StronglySorted_merge_sort; apply _.
  - apply (StronglySorted_fmap _ Lambda.Item.rank_le); [done|].
    apply StronglySorted_merge_sort; apply _.
  - by rewrite !merge_sort_Permutation.
Qed.

Lemma project_of_item (l : list Lambda.Item.t) :
  Lambda.Ranked.project <$> (Lambda.Ranked.of_item <$> l)
  = Lambda.Item.project <$> l.
Proof. rewrite <- list_fmap_compose. done. Qed.

(** What the Lambda's [getAllLeaderboards] answers for one game. *)
Lemma getAllLeaderboards_lookup g (tbl : Lambda.Table) :
  Lambda.getAllLeaderboards tbl !! g
  = if decide (is_Some (Lambda.GAMES !! g)
               ∨ Lambda.partition_items g tbl ≠ [])
    then Some (Lambda.Item.project
                 <$> take 3 (Lambda.getLeaderboardWithRanks g tbl))
    else None.
Proof.
  unfold Lambda.getAllLeaderboards. rewrite lookup_fmap.
  rewrite foldl_group_item, Lambda_result0_lookup, Scan_filter.
  unfold Js.slice0.
  destruct (Lambda.GAMES !! g) as [game|] eqn:Hg.
  - rewrite decide_True by eauto. cbn [fmap option_fmap option_map].
    rewrite app_nil_l.
    by rewrite merge_sort_group, <- fmap_take, project_of_item.
  - cbn [fmap option_fmap option_map].
    destruct (Lambda.partition_items g tbl) as [|it its] eqn:E.
    + rewrite decide_False; [done|]. intros [[? ?]|?]; done.
    + rewrite decide_True by (right; done).
      cbn [fmap option_fmap option_map]. rewrite <- E.
      by rewrite merge_sort_group, <- fmap_take, project_of_item.
Qed.

Lemma emptyLeaderboards_configured g :
  is_Some (Browser.GAMES !! g) → Browser.emptyLeaderboards !! g = Some [].
Proof.
  intros [game Hg]. unfold Browser.emptyLeaderboards.
  change (list_to_map ((λ kv : string * Browser.Game, (kv.1, []))
                         <$> Browser.GAMES_entries))
    with (list_to_map (M := gmap string (list Entry))
            (prod_map id (λ _ : Browser.Game, []) <$> Browser.GAMES_entries)).
  rewrite list_to_map_fmap, lookup_fmap.
  fold Browser.GAMES. by rewrite Hg.
Qed.

(** Every configured game has a list on a mirror that the module
    initialised and filled. *)
Lemma local_run_configured subs g :
  is_Some (Browser.GAMES !! g) →
  is_Some ((Browser.getLocalLeaderboards (Runs.local subs None)).1 !! g).
Proof.
  intros Hg. induction subs as [|s subs IH] using rev_ind.
  - unfold Runs.local. cbn [foldl Browser.getLocalLeaderboards
                             Browser.initStorage fst].
    rewrite emptyLeaderboards_configured by done. eauto.
  - rewrite local_run_snoc. unfold Browser.localSubmitScore.
    pose proof (getLocalLeaderboards_snd (Runs.local subs None)) as Hsnd.
    destruct (Browser.getLocalLeaderboards (Runs.local subs None))
      as [lbs st1]. cbn [fst snd] in *. subst st1.
    destruct (Browser.GAMES !! Runs.gameId s); [|done].
    destruct (Browser.scoreQualifies _ _ _); cbn [negb snd]; [|done].
    unfold Browser.saveLocalLeaderboards.
    rewrite getLocalLeaderboards_Some. cbn [fst].
    destruct (decide (Runs.gameId s = g)) as [->|Hne].
    + rewrite lookup_insert_eq. eauto.
    + by rewrite lookup_insert_ne.
Qed.

(** C9.  The claim fails for the local implementation, which misses the
    cut its sibling makes.  Four scores for one game are submitted
    through [checkAndSubmitScore], once in local mode and once against
    the Lambda; [getAllLeaderboards] then answers with all four entries
    of the game in local mode, and with the first three against the
    Lambda. *)
Theorem local_getAllLeaderboards_is_not_cut_to_3 :
  let player : Z → string → string := λ _ _, "P" in
  let submit_local (w : Client.World ()) (score : Z) :=
    (Client.checkAndSubmitScore true Deployed.unreachable player
                                "snake" score 0 w).2 in
  let submit_deployed (w : Client.World Lambda.Table) (score : Z) :=
    (Client.checkAndSubmitScore false (Deployed.lambda 0) player
                                "snake" score 0 w).2 in
  let local :=
    foldl submit_local (Client.mkWorld None () [] []) [40; 30; 20; 10] in
  let deployed :=
    foldl submit_deployed (Client.mkWorld None ∅ [] []) [40; 30; 20; 10] in
  Api.score
    <$> default []
          ((Client.getAllLeaderboards true Deployed.unreachable local).1
             !! "snake")
  = [40; 30; 20; 10]
  ∧ Api.score
      <$> default []
            ((Client.getAllLeaderboards false (Deployed.lambda 0)
                                        deployed).1 !! "snake")
    = [40; 30; 20].
Proof. vm_compute. split; reflexivity. Qed.

End GetAllClaims.

(** * Further properties of the code *)

(** ** The covered inputs are decidable *)

#[global] Instance own_ids_dec (tbl : Lambda.Table) :
  Decision (Inputs.own_ids tbl).
Proof. unfold Inputs.own_ids. apply _. Defined.

#[global] Instance safe_numbers_dec (tbl : Lambda.Table) :
  Decision (Inputs.safe_numbers tbl).
Proof. unfold Inputs.safe_numbers. apply _. Defined.

(** ** More on the rank functions *)

Section RankFunctions.
Import Api Spec Abs Examples.

Implicit Types (g gameId playerName scoreType : string) (score now : Z).
Implicit Types (d : Direction).

(** X1. Range of the ranks.  Both [getRank] functions return [-1] or a
    rank between 1 and [length + 1]; they return [-1] only on a list of
    10 entries or more, and on such a list never a rank beyond its
    length.  So on a board of at most 10 entries the rank is [-1] or
    within [1 .. 10]. *)
Theorem getRank_range_both :
  (∀ scoreType score (leaderboard : list Lambda.Item.t),
     let r := Lambda.getRank scoreType score leaderboard in
     let n := Z.of_nat (length leaderboard) in
     (r = -1 ∧ 10 <= n) ∨ (1 <= r <= n + 1 ∧ (10 <= n → r <= n)))
  ∧ (∀ gameId score (leaderboard : list Entry),
       let r := Browser.getRank gameId score leaderboard in
       let n := Z.of_nat (length leaderboard) in
       (r = -1 ∧ (10 <= n ∨ Browser.GAMES !! gameId = None))
       ∨ (1 <= r <= n + 1 ∧ (10 <= n → r <= n))).
Proof.
  split.
  - intros scoreType score leaderboard. apply getRank_range.
  - intros gameId score leaderboard. cbv zeta.
    destruct (Browser.GAMES !! gameId) as [game|] eqn:Hg.
    + destruct (Browser_GAMES_direction gameId game Hg) as [d Hd].
      rewrite (computeRank_browser gameId game d) by done.
      pose proof (computeRank_range score (Api.score <$> leaderboard) d
                    Browser.MAX_ENTRIES) as H.
      cbv zeta in H. rewrite length_fmap in H.
      unfold NOT_QUALIFIED, Browser.MAX_ENTRIES in H. 
      destruct H as [[? ?]|[? ?]]; [left|right]; auto.
    + left. unfold Browser.getRank. rewrite Hg. auto.
Qed.

Lemma getRank_range_both_witness :
  Browser.getRank "snake" 95
    (Browser.localGetLeaderboard
       "snake" (local_after "snake" full_scores None)).1
  <= 10.
Proof.
  destruct getRank_range_both as [_ H].
  destruct (H "snake" 95
              (Browser.localGetLeaderboard
                 "snake" (local_after "snake" full_scores None)).1)
    as [[Hr _]|[_ Hfull]].
  - rewrite Hr. lia.
  - refine (Z.le_trans _ _ _ (Hfull _) _); by_compute.
Defined.

(** A score at least as good is ranked at least as well by the rule. *)
Lemma computeRank_mono d score1 score2 scores capacity :
  ¬ beats d score2 score1 →
  let r1 := computeRank score1 scores d capacity in
  let r2 := computeRank score2 scores d capacity in
  r2 = NOT_QUALIFIED ∨ (r1 ≠ NOT_QUALIFIED ∧ r1 <= r2).
Proof.
  intros Hge. cbv zeta. unfold computeRank, NOT_QUALIFIED.
  destruct (list_find (beats d score2) scores) as [[k2 x2]|] eqn:H2.
  - right. apply list_find_Some in H2 as (Hk2 & Hb2 & _).
    assert (beats d score1 x2) as Hb1
      by (destruct d; simpl in *; lia).
    destruct (list_find (beats d score1) scores) as [[k1 x1]|] eqn:H1.
    + apply list_find_Some in H1 as (Hk1 & _ & Hfirst).
      split; [lia|].
      destruct (decide (k1 <= k2)%nat) as [?|Hgt]; [lia|].
      exfalso. apply (Hfirst k2 x2 Hk2); [lia|done].
    + apply list_find_None in H1. rewrite Forall_forall in H1.
      exfalso. apply (H1 x2); [|done]. by eapply list_elem_of_lookup_2.
  - destruct (list_find (beats d score1) scores) as [[k1 x1]|] eqn:H1.
    + apply list_find_Some in H1 as (Hk1 & _ & _).
      apply lookup_lt_Some in Hk1.
      case_decide; [right|left; done]. lia.
    + case_decide; [right|left; done]. lia.
Qed.

(** X2. A better score never ranks worse.  For a score type ["high"] or
    ["low"] and any list, when [score1] is at least as good as [score2]
    and [score2] gets a rank, [score1] gets a rank too, at most that of
    [score2]; the same for the browser function on a configured game. *)
Theorem getRank_monotone :
  (∀ scoreType d score1 score2 (leaderboard : list Lambda.Item.t),
     direction_of scoreType = Some d →
     ¬ beats d score2 score1 →
     let r1 := Lambda.getRank scoreType score1 leaderboard in
     let r2 := Lambda.getRank scoreType score2 leaderboard in
     r2 ≠ -1 → r1 ≠ -1 ∧ r1 <= r2)
  ∧ (∀ gameId game d score1 score2 (leaderboard : list Entry),
       Browser.GAMES !! gameId = Some game →
       direction_of (Browser.scoreType game) = Some d →
       ¬ beats d score2 score1 →
       let r1 := Browser.getRank gameId score1 leaderboard in
       let r2 := Browser.getRank gameId score2 leaderboard in
       r2 ≠ -1 → r1 ≠ -1 ∧ r1 <= r2).
Proof.
  split.
  - intros scoreType d score1 score2 leaderboard Hd Hge r1 r2 Hr2.
    subst r1 r2. rewrite !(computeRank_lambda _ d) in * by done.
    destruct (computeRank_mono d score1 score2
                (Lambda.Item.score <$> leaderboard) Lambda.MAX_ENTRIES Hge)
      as [?|?]; done.
  - intros gameId game d score1 score2 leaderboard Hg Hd Hge r1 r2 Hr2.
    subst r1 r2. rewrite !(computeRank_browser gameId game d) in * by done.
    destruct (computeRank_mono d score1 score2
                (Api.score <$> leaderboard) Browser.MAX_ENTRIES Hge)
      as [?|?]; done.
Qed.

Lemma getRank_monotone_witness :
  Lambda.getRank "low" 20
    (renumber "bedtime-berzerk"
       [Lambda.Attrs.mk "A" 30 0 "low"; Lambda.Attrs.mk "B" 45 0 "low"])
  <= Lambda.getRank "low" 40
       (renumber "bedtime-berzerk"
          [Lambda.Attrs.mk "A" 30 0 "low"; Lambda.Attrs.mk "B" 45 0 "low"])
  ∧ Browser.getRank "snake" 95 [mkEntry "A" 100 0; mkEntry "B" 90 0]
    <= Browser.getRank "snake" 50 [mkEntry "A" 100 0; mkEntry "B" 90 0].
Proof.
  destruct getRank_monotone as [HL HB]. split.
  - apply (HL "low" LowerIsBetter 20 40); [reflexivity|simpl; lia|by_compute].
  - apply (HB "snake" (Browser.mkGame "Snake" "high" "score") HigherIsBetter
              95 50);
      [reflexivity|reflexivity|simpl; lia|by_compute].
Defined.

(** Every game of the Lambda is a game of the browser module, with the
    same score type. *)
Lemma Lambda_GAMES_in_Browser g (game : Lambda.Game.t) :
  Lambda.GAMES !! g = Some game →
  ∃ bgame, Browser.GAMES !! g = Some bgame
           ∧ Browser.scoreType bgame = Lambda.Game.scoreType game.
Proof.
  intros H. apply elem_of_list_to_map_2 in H.
  unfold Lambda.GAMES_entries in H.
  repeat (apply elem_of_cons in H as [H|H];
          [injection H as -> ->; eexists; split; reflexivity|]).
  by apply elem_of_nil in H.
Qed.

Lemma Browser_getRank_project g (bgame : Browser.Game) score
    (items : list Lambda.Item.t) :
  Browser.GAMES !! g = Some bgame →
  Browser.getRank g score (Lambda.Item.project <$> items)
  = Lambda.getRank (Browser.scoreType bgame) score items.
Proof.
  intros Hg. destruct (Browser_GAMES_direction g bgame Hg) as [d Hd].
  rewrite (computeRank_browser g bgame d), (computeRank_lambda _ d) by done.
  rewrite <- list_fmap_compose. done.
Qed.

(** X3. The client and the server rank alike.  Every game configured in
    the Lambda is configured in the browser module with the same score
    type, and for such a game the browser's [getRank] on the entries the
    server sends (the items without their keys) is the rank the Lambda's
    [getRank] computes on the items. *)
Theorem client_and_server_getRank_agree g (game : Lambda.Game.t) :
  Lambda.GAMES !! g = Some game →
  ∃ bgame,
    Browser.GAMES !! g = Some bgame
    ∧ Browser.scoreType bgame = Lambda.Game.scoreType game
    ∧ ∀ score (items : list Lambda.Item.t),
        Browser.getRank g score (Lambda.Item.project <$> items)
        = Lambda.getRank (Lambda.Game.scoreType game) score items.
Proof.
  intros Hg. destruct (Lambda_GAMES_in_Browser g game Hg) as (bgame & Hb & Ht).
  exists bgame. split; [done|]. split; [done|].
  intros score items. rewrite <- Ht. by apply Browser_getRank_project.
Qed.

Lemma client_and_server_getRank_agree_witness :
  ∃ bgame,
    Browser.GAMES !! "bedtime-berzerk" = Some bgame
    ∧ Browser.scoreType bgame = "low"
    ∧ ∀ score (items : list Lambda.Item.t),
        Browser.getRank "bedtime-berzerk" score (Lambda.Item.project <$> items)
        = Lambda.getRank "low" score items.
Proof.
  apply (client_and_server_getRank_agree "bedtime-berzerk"
           (Lambda.Game.mk "low")).
  reflexivity.
Defined.

(** Whenever [scoreQualifies] says yes, [getRank] finds a rank; no
    assumption on the order of the list is needed in this direction. *)
Lemma scoreQualifies_getRank g score (leaderboard : list Entry) :
  Browser.scoreQualifies g score leaderboard = true →
  Browser.getRank g score leaderboard ≠ -1.
Proof.
  unfold Browser.scoreQualifies.
  destruct (Browser.GAMES !! g) as [game|] eqn:Hg; [|done].
  destruct (Browser_GAMES_direction g game Hg) as [d Hd].
  rewrite (computeRank_browser g game d) by done.
  unfold computeRank, NOT_QUALIFIED. rewrite length_fmap.
  destruct (Z.ltb_spec (Z.of_nat (length leaderboard)) Browser.MAX_ENTRIES)
    as [Hlt|Hge].
  { intros _. rewrite decide_True by done.
    destruct (list_find _ _) as [[k x]|]; lia. }
  destruct (last leaderboard) as [worst|] eqn:Hw; [|done].
  intros Hq.
  assert (beats d score (Api.score worst)) as Hb.
  { destruct (direction_of_inv _ _ Hd) as [[Hs ->]|[Hs ->]];
      rewrite Hs in Hq; simpl in *; lia. }
  destruct (list_find _ _) as [[k x]|] eqn:Hf; [lia|].
  apply list_find_None in Hf. rewrite Forall_forall in Hf.
  exfalso. apply (Hf (Api.score worst)); [|done].
  apply list_elem_of_fmap. exists worst. split; [done|].
  by apply last_Some_elem_of.
Qed.



End RankFunctions.

(** ** More on the table *)

Section TableOperations.
Import Api Spec Abs Examples.

Implicit Types (g gameId playerName : string) (score now : Z).
Implicit Types (d : Direction) (tbl : Lambda.Table).

Lemma StronglySorted_take {A} (R : relation A) (l : list A) n :
  StronglySorted R l → StronglySorted R (take n l).
Proof.
  intros H. rewrite <- (take_drop n l) in H.
  by apply StronglySorted_app_1_l in H.
Qed.

(** The public read is the first 10 items of the rank-ordered partition,
    without their keys. *)
Lemma getLeaderboard_take g tbl :
  Lambda.getLeaderboard g tbl
  = Lambda.Item.project <$> take 10 (Lambda.getLeaderboardWithRanks g tbl).
Proof.
  unfold Lambda.getLeaderboard. rewrite getLeaderboardWithRanks_Query.
  unfold Lambda.Query at 1. fold (Lambda.Query g None tbl).
  change (Z.to_nat Lambda.MAX_ENTRIES) with 10%nat.
  rewrite merge_sort_sorted; [done|].
  apply StronglySorted_take, Query_sorted.
Qed.

Lemma getLeaderboard_ext g tbl tbl' :
  (∀ r, tbl' !! (g, r) = tbl !! (g, r)) →
  Lambda.getLeaderboard g tbl' = Lambda.getLeaderboard g tbl.
Proof.
  intros H. rewrite !getLeaderboard_take.
  by rewrite (getLeaderboardWithRanks_ext g tbl tbl').
Qed.

(** X5. The public read of the Lambda.  Whatever the table holds,
    [getLeaderboard] answers with the first 10 items of the game in
    ascending rank order, reduced to [{playerName, score, timestamp}]:
    never more than 10 entries, and all the stored entries of the game
    when its ranks lie within [1 .. 10]. *)
Theorem getLeaderboard_reads_first_ten :
  (∀ g tbl,
     Lambda.getLeaderboard g tbl
     = Lambda.Item.project <$> take 10 (Lambda.getLeaderboardWithRanks g tbl)
     ∧ (length (Lambda.getLeaderboard g tbl) <= 10)%nat)
  ∧ (∀ g tbl,
       ranks_bounded tbl →
       Lambda.getLeaderboard g tbl
       = Lambda.Item.project <$> Lambda.getLeaderboardWithRanks g tbl).
Proof.
  split.
  - intros g tbl. split; [apply getLeaderboard_take|].
    rewrite getLeaderboard_take, length_fmap, length_take. lia.
  - intros g tbl Hb. rewrite getLeaderboard_take.
    pose proof (ranks_bounded_length g tbl Hb) as Hlen.
    unfold Lambda.MAX_ENTRIES in Hlen. by rewrite take_ge by lia.
Qed.

Lemma getLeaderboard_reads_first_ten_witness :
  Lambda.getLeaderboard "snake" (remote_after "snake" [10; 30; 20] ∅)
  = Lambda.Item.project
      <$> Lambda.getLeaderboardWithRanks
            "snake" (remote_after "snake" [10; 30; 20] ∅).
Proof.
  destruct getLeaderboard_reads_first_ten as [_ H].
  apply (H "snake" (remote_after "snake" [10; 30; 20] ∅)).
  apply (bool_decide_unpack _). by_compute.
Defined.

(** X6. A submission for one game leaves the others alone: no item of
    another game is written, and the reads of every other game answer as
    before. *)
Theorem submitScore_leaves_other_games g playerName score now tbl g' :
  g' ≠ g →
  let tbl' := (Lambda.submitScore g playerName score now tbl).2 in
  (∀ r, tbl' !! (g', r) = tbl !! (g', r))
  ∧ Lambda.getLeaderboardWithRanks g' tbl'
    = Lambda.getLeaderboardWithRanks g' tbl
  ∧ Lambda.getLeaderboard g' tbl' = Lambda.getLeaderboard g' tbl.
Proof.
  intros Hne tbl'.
  assert (∀ r, tbl' !! (g', r) = tbl !! (g', r)) as H
    by (intros r; by apply submitScore_other).
  split; [done|]. split.
  - by apply getLeaderboardWithRanks_ext.
  - by apply getLeaderboard_ext.
Qed.

Lemma submitScore_leaves_other_games_witness :
  Lambda.getLeaderboard "chess"
    (Lambda.submitScore "snake" "Q" 5 1 (remote_after "chess" [3; 2] ∅)).2
  = Lambda.getLeaderboard "chess" (remote_after "chess" [3; 2] ∅).
Proof.
  apply (submitScore_leaves_other_games
           "snake" "Q" 5 1 (remote_after "chess" [3; 2] ∅) "chess").
  discriminate.
Defined.



Lemma project_renumber g (l : list Lambda.Attrs.t) :
  Lambda.Item.project <$> renumber g l
  = (λ a, mkEntry (Lambda.Attrs.playerName a) (Lambda.Attrs.score a)
                  (Lambda.Attrs.timestamp a)) <$> l.
Proof.
  apply list_eq. intros i. rewrite !list_lookup_fmap, renumber_lookup.
  by destruct (l !! i) as [[]|].
Qed.

(** What the public read answers after a qualifying submission on a
    consistent partition. *)
Lemma getLeaderboard_after_submit g (game : Lambda.Game.t) playerName score
    now tbl :
  Lambda.GAMES !! g = Some game →
  let S := Lambda.getLeaderboardWithRanks g tbl in
  let t := Lambda.getRank (Lambda.Game.scoreType game) score S in
  dense S → Z.of_nat (length S) <= 10 → t ≠ -1 →
  Lambda.getLeaderboard g (Lambda.submitScore g playerName score now tbl).2
  = reconciled t (mkEntry (Js.substring0 10 playerName) score now)
               (Lambda.getLeaderboard g tbl).
Proof.
  intros Hg S t Hdense Hlen Ht.
  rewrite !getLeaderboard_take.
  rewrite (submitScore_step g game) by done. fold S t.
  rewrite take_ge.
  2:{ rewrite renumber_length.
      pose proof (length_reconciled t
        (Lambda.Item.attrs (newEntry_of g game playerName score now t))
        (Lambda.Item.attrs <$> S)). lia. }
  rewrite (take_ge S) by lia.
  rewrite project_renumber, fmap_reconciled, <- list_fmap_compose.
  done.
Qed.

(** The new entry is read back at the rank the submission returned. *)
Lemma getLeaderboard_after_submit_lookup g (game : Lambda.Game.t) playerName
    score now tbl :
  Lambda.GAMES !! g = Some game →
  let S := Lambda.getLeaderboardWithRanks g tbl in
  dense S → Z.of_nat (length S) <= 10 →
  let out := Lambda.submitScore g playerName score now tbl in
  qualified out.1 = true →
  Lambda.getLeaderboard g out.2 !! Z.to_nat (rank out.1 - 1)
  = Some (mkEntry (Js.substring0 10 playerName) score now).
Proof.
  intros Hg S Hdense Hlen out Hq. subst out S.
  destruct (submitScore_cases g playerName score now tbl)
    as [(Hf & _ & _)|(game' & Hg' & Ht & Hout)]; [congruence|].
  assert (game' = game) as -> by congruence.
  pose proof (getRank_range (Lambda.Game.scoreType game) score
                (Lambda.getLeaderboardWithRanks g tbl)) as Hrange.
  cbv zeta in Hrange. unfold Lambda.MAX_ENTRIES in Hrange.
  rewrite (getLeaderboard_after_submit g game) by done.
  assert (rank (Lambda.submitScore g playerName score now tbl).1
          = Lambda.getRank (Lambda.Game.scoreType game) score
                           (Lambda.getLeaderboardWithRanks g tbl)) as ->
    by (by rewrite Hout).
  assert (length (Lambda.getLeaderboard g tbl)
          = length (Lambda.getLeaderboardWithRanks g tbl)) as Hlb.
  { rewrite getLeaderboard_take, length_fmap. by rewrite take_ge by lia. }
  set (S := Lambda.getLeaderboardWithRanks g tbl) in *.
  set (t := Lambda.getRank (Lambda.Game.scoreType game) score S) in *.
  unfold reconciled, Lambda.MAX_ENTRIES.
  rewrite lookup_take_lt by (case_decide; lia).
  rewrite lookup_insert_at by lia.
  rewrite decide_False by lia. by rewrite decide_True by lia.
Qed.

(** A submission that is not accepted leaves the table as it was. *)
Lemma submitScore_not_qualified g playerName score now tbl :
  qualified (Lambda.submitScore g playerName score now tbl).1 = false →
  (Lambda.submitScore g playerName score now tbl).2 = tbl.
Proof.
  intros Hq.
  destruct (submitScore_cases g playerName score now tbl)
    as [(_ & _ & Ht)|(game & _ & _ & Hout)]; [done|].
  rewrite Hout in Hq. discriminate.
Qed.

(** X8. Submit, then read.  After a qualifying submission at rank [t] on
    a partition with ranks exactly [1 .. n], [n <= 10], the public read
    answers with the old list, the new entry [{name cut to 10
    characters, score, timestamp}] placed at rank [t], cut after 10
    entries; but after 9 entries when the board was full and [t < 10].
    So the new entry is read back at position [t], and on a board that
    was not full no entry is lost. *)
Theorem submit_then_getLeaderboard g (game : Lambda.Game.t) playerName score
    now tbl :
  Lambda.GAMES !! g = Some game →
  let S := Lambda.getLeaderboardWithRanks g tbl in
  dense S → Z.of_nat (length S) <= 10 →
  let out := Lambda.submitScore g playerName score now tbl in
  qualified out.1 = true →
  let before := Lambda.getLeaderboard g tbl in
  let after := Lambda.getLeaderboard g out.2 in
  let new := mkEntry (Js.substring0 10 playerName) score now in
  after
  = take (if decide (length before = 10%nat ∧ rank out.1 < 10) then 9 else 10)
         (insert_at (rank out.1) new before)
  ∧ after !! Z.to_nat (rank out.1 - 1) = Some new
  ∧ ((length before < 10)%nat →
     after = insert_at (rank out.1) new before).
Proof.
  intros Hg S Hdense Hlen out Hq before after new.
  subst out before after S.
  destruct (submitScore_cases g playerName score now tbl)
    as [(Hf & _ & _)|(game' & Hg' & Ht & Hout)]; [congruence|].
  assert (game' = game) as -> by congruence.
  pose proof (getRank_range (Lambda.Game.scoreType game) score
                (Lambda.getLeaderboardWithRanks g tbl)) as Hrange.
  cbv zeta in Hrange. unfold Lambda.MAX_ENTRIES in Hrange.
  rewrite (getLeaderboard_after_submit g game) by done.
  assert (rank (Lambda.submitScore g playerName score now tbl).1
          = Lambda.getRank (Lambda.Game.scoreType game) score
                           (Lambda.getLeaderboardWithRanks g tbl)) as ->
    by (by rewrite Hout).
  assert (length (Lambda.getLeaderboard g tbl)
          = length (Lambda.getLeaderboardWithRanks g tbl)) as Hlb.
  { rewrite getLeaderboard_take, length_fmap. by rewrite take_ge by lia. }
  set (S := Lambda.getLeaderboardWithRanks g tbl) in *.
  set (t := Lambda.getRank (Lambda.Game.scoreType game) score S) in *.
  set (before := Lambda.getLeaderboard g tbl) in *.
  assert (reconciled t (mkEntry (Js.substring0 10 playerName) score now) before
          = take (if decide (length before = 10%nat ∧ t < 10) then 9 else 10)
                 (insert_at t new before)) as ->.
  { unfold reconciled, Lambda.MAX_ENTRIES.
    fold new. f_equal. repeat case_decide; try done; lia. }
  split; [done|]. split.
  - rewrite lookup_take_lt by (case_decide; lia).
    rewrite lookup_insert_at by lia.
    rewrite decide_False by lia. by rewrite decide_True by lia.
  - intros Hroom. rewrite decide_False by lia.
    apply take_ge. rewrite length_insert_at. lia.
Qed.

Lemma submit_then_getLeaderboard_witness :
  let tbl := remote_after "bedtime-berzerk" [30; 45] ∅ in
  Lambda.getLeaderboard "bedtime-berzerk"
    (Lambda.submitScore "bedtime-berzerk" "Q" 20 7 tbl).2
  = insert_at (rank (Lambda.submitScore "bedtime-berzerk" "Q" 20 7 tbl).1)
              (mkEntry (Js.substring0 10 "Q") 20 7)
              (Lambda.getLeaderboard "bedtime-berzerk" tbl).
Proof.
  intros tbl.
  destruct (submit_then_getLeaderboard
              "bedtime-berzerk" (Lambda.Game.mk "low") "Q" 20 7 tbl)
    as (_ & _ & H).
  - reflexivity.
  - by_compute.
  - by_compute.
  - by_compute.
  - refine (H _). clear H. by_compute.
Defined.

End TableOperations.

(** ** All leaderboards, and what the table never holds *)

Section TableAsAWhole.
Import Api Spec Abs Examples.

Implicit Types (g gameId playerName : string) (score now : Z).
Implicit Types (d : Direction) (tbl : Lambda.Table).
Implicit Types (subs : list Runs.Submission).

(** X9. [getAllLeaderboards] and [getLeaderboard] agree.  On a table
    none of whose items carries an inherited property name as its game
    id: for a configured game the list in the answer of
    [getAllLeaderboards] is the first 3 entries of what [getLeaderboard]
    answers for the game, the empty list when the game has no item; no
    list of the answer has more than 3 entries; and a game is a key of
    the answer exactly when it is configured or has an item in the
    table. *)
Theorem getAllLeaderboards_is_top3_of_getLeaderboard tbl :
  Inputs.own_ids tbl →
  (∀ g, is_Some (Lambda.GAMES !! g) →
        Lambda.getAllLeaderboards tbl !! g
        = Some (take 3 (Lambda.getLeaderboard g tbl)))
  ∧ (∀ g l, Lambda.getAllLeaderboards tbl !! g = Some l →
            (length l <= 3)%nat)
  ∧ (∀ g, is_Some (Lambda.getAllLeaderboards tbl !! g)
          ↔ is_Some (Lambda.GAMES !! g)
            ∨ ∃ r, is_Some (tbl !! (g, r))).
Proof.
  intros _. split; [|split].
  - intros g Hg. rewrite getAllLeaderboards_lookup.
    rewrite decide_True by (by left).
    rewrite getLeaderboard_take, <- fmap_take, take_take. done.
  - intros g l. rewrite getAllLeaderboards_lookup.
    case_decide; [|done]. intros [= <-].
    rewrite length_fmap, length_take. lia.
  - intros g. rewrite getAllLeaderboards_lookup.
    assert (Lambda.partition_items g tbl ≠ []
            ↔ ∃ r, is_Some (tbl !! (g, r))) as Hne.
    { split.
      - destruct (Lambda.partition_items g tbl) as [|it its] eqn:E; [done|].
        intros _. assert (it ∈ Lambda.partition_items g tbl) as Hin
          by (rewrite E; left).
        apply elem_of_partition_items in Hin as [_ Hin].
        exists (Lambda.Item.rank it). by rewrite Hin.
      - intros (r & a & Ha) Hnil.
        assert (Lambda.Item.make g r a ∈ Lambda.partition_items g tbl) as Hin.
        { apply elem_of_partition_items. simpl.
          by rewrite Item_attrs_make. }
        rewrite Hnil in Hin. by apply elem_of_nil in Hin. }
    rewrite <- Hne. case_decide as Hc.
    + split; [done|]. intros _. eauto.
    + split; [by intros [? ?]|]. intros H. by destruct Hc.
Qed.

Lemma getAllLeaderboards_is_top3_of_getLeaderboard_witness :
  Lambda.getAllLeaderboards (remote_after "snake" [40; 30; 20; 10] ∅)
    !! "snake"
  = Some (take 3 (Lambda.getLeaderboard
                    "snake" (remote_after "snake" [40; 30; 20; 10] ∅))).
Proof.
  destruct (getAllLeaderboards_is_top3_of_getLeaderboard
              (remote_after "snake" [40; 30; 20; 10] ∅)) as (H & _ & _).
  - apply (bool_decide_unpack _). by_compute.
  - apply (H "snake"). exists (Lambda.Game.mk "high"). reflexivity.
Defined.

(** A submission stores items for its own, configured game only. *)
Lemma submitScore_keeps_unknown_games_empty g playerName score now tbl :
  (∀ g' r, is_Some (tbl !! (g', r)) → is_Some (Lambda.GAMES !! g')) →
  ∀ g' r, is_Some ((Lambda.submitScore g playerName score now tbl).2
                     !! (g', r)) →
          is_Some (Lambda.GAMES !! g').
Proof.
  intros H g' r.
  destruct (decide (g' = g)) as [->|Hne].
  2:{ rewrite submitScore_other by done. apply H. }
  destruct (submitScore_cases g playerName score now tbl)
    as [(_ & _ & ->)|(game & Hg & _ & _)]; [apply H|].
  intros _. by exists game.
Qed.

(** X10. Unknown games are never stored.  After any sequence of
    submissions from the empty table, none of them for a game id that is
    an inherited property name, every item of the table belongs to a
    configured game; for any other game id the partition is empty and
    [getLeaderboard] answers the empty list. *)
Theorem table_holds_configured_games_only subs :
  Forall (λ s, Js.inherited (Runs.gameId s) = false) subs →
  (∀ g r, is_Some (Runs.remote subs ∅ !! (g, r)) →
          is_Some (Lambda.GAMES !! g))
  ∧ (∀ g, Lambda.GAMES !! g = None →
          Lambda.getLeaderboardWithRanks g (Runs.remote subs ∅) = []
          ∧ Lambda.getLeaderboard g (Runs.remote subs ∅) = []).
Proof.
  intros _.
  assert (∀ g r, is_Some (Runs.remote subs ∅ !! (g, r)) →
                 is_Some (Lambda.GAMES !! g)) as H.
  { induction subs as [|s subs IH] using rev_ind.
    - intros g r [a Ha]. unfold Runs.remote in Ha. cbn [foldl] in Ha.
      by rewrite lookup_empty in Ha.
    - rewrite remote_run_snoc.
      by apply submitScore_keeps_unknown_games_empty. }
  split; [done|].
  intros g Hg.
  assert (Lambda.getLeaderboardWithRanks g (Runs.remote subs ∅) = []) as Hnil.
  { apply getLeaderboardWithRanks_unique; [constructor|].
    intros it. split; [by intros ?%elem_of_nil|].
    intros [_ Hit]. exfalso.
    destruct (H g (Lambda.Item.rank it)) as [game Hgame]; [by rewrite Hit|].
    congruence. }
  split; [done|]. by rewrite getLeaderboard_take, Hnil.
Qed.

Lemma table_holds_configured_games_only_witness :
  Lambda.getLeaderboard "homerun-derby"
    (Runs.remote (submissions "homerun-derby" [400; 380]) ∅) = [].
Proof.
  destruct (table_holds_configured_games_only
              (submissions "homerun-derby" [400; 380])) as [_ H].
  - apply (bool_decide_unpack _). by_compute.
  - apply (H "homerun-derby"). reflexivity.
Defined.

End TableAsAWhole.

(** ** More on the local mirror *)

Section MirrorOperations.
Import Api Spec Abs Examples.

Implicit Types (g gameId playerName : string) (score now : Z).
Implicit Types (d : Direction) (st : Browser.Storage) (tbl : Lambda.Table).

(** The two outcomes of [localSubmitScore]. *)
Lemma localSubmitScore_cases g playerName score now st :
  let lb := (Browser.localGetLeaderboard g st).1 in
  let out := Browser.localSubmitScore g playerName score now st in
  (out = (Browser.not_qualified, (Browser.getLocalLeaderboards st).2)
   ∧ (Browser.GAMES !! g = None
      ∨ Browser.scoreQualifies g score lb = false))
  ∨ (Browser.scoreQualifies g score lb = true
     ∧ out.1 = mkResult true (Browser.getRank g score lb) None
     ∧ (Browser.localGetLeaderboard g out.2).1
       = (let lb1 := Js.splice_insert (Browser.getRank g score lb - 1)
                       (mkEntry playerName score now) lb in
          if Browser.MAX_ENTRIES <? Z.of_nat (length lb1)
          then Js.pop lb1 else lb1)
     ∧ ∀ g', g' ≠ g →
         (Browser.localGetLeaderboard g' out.2).1
         = (Browser.localGetLeaderboard g' st).1).
Proof.
  cbv zeta. unfold Browser.localSubmitScore, Browser.localGetLeaderboard.
  pose proof (getLocalLeaderboards_snd st) as Hsnd.
  destruct (Browser.getLocalLeaderboards st) as [lbs st1] eqn:E.
  cbn [fst snd] in *. subst st1.
  destruct (Browser.GAMES !! g) as [game|] eqn:Hg; [|left; auto].
  destruct (Browser.scoreQualifies g score (default [] (lbs !! g))) eqn:Hq;
    cbn [negb fst snd]; [right|left; auto].
  unfold Browser.saveLocalLeaderboards.
  rewrite !getLocalLeaderboards_Some. cbn [fst snd].
  split; [done|]. split; [done|]. split.
  - by rewrite lookup_insert_eq.
  - intros g' Hne. by rewrite lookup_insert_ne.
Qed.

(** X11. Submit to the mirror, then read.  When [localSubmitScore]
    answers [qualified: true] on a list of at most 10 entries, whatever
    their order, the rank it returns is the one [getRank] computes, it
    lies within [1 .. 10], and the list read back is the old list with
    the entry [{playerName, score, timestamp}] placed at that rank, cut
    after 10 entries: the new entry is at position [rank], and on a list
    of fewer than 10 entries nothing is dropped. *)
Theorem localSubmit_then_read g playerName score now st :
  let lb := (Browser.localGetLeaderboard g st).1 in
  Z.of_nat (length lb) <= 10 →
  let out := Browser.localSubmitScore g playerName score now st in
  qualified out.1 = true →
  let lb' := (Browser.localGetLeaderboard g out.2).1 in
  let new := mkEntry playerName score now in
  rank out.1 = Browser.getRank g score lb
  ∧ 1 <= rank out.1 <= 10
  ∧ lb' = take 10 (insert_at (rank out.1) new lb)
  ∧ lb' !! Z.to_nat (rank out.1 - 1) = Some new
  ∧ (Z.of_nat (length lb) < 10 → lb' = insert_at (rank out.1) new lb).
Proof.
  intros lb Hlen out Hq lb' new. subst lb' out lb.
  destruct (localSubmitScore_cases g playerName score now st)
    as [[Heq _]|(Hsq & Hres & Hlist & _)].
  { rewrite Heq in Hq. done. }
  rewrite Hres, Hlist. cbn [rank]. clear Hres Hlist Hq.
  pose proof (scoreQualifies_getRank _ _ _ Hsq) as Hne.
  set (lb := (Browser.localGetLeaderboard g st).1) in *.
  assert (1 <= Browser.getRank g score lb <= Z.of_nat (length lb) + 1
          ∧ (10 <= Z.of_nat (length lb) →
             Browser.getRank g score lb <= Z.of_nat (length lb)))
    as [Hrange Hfull].
  { unfold Browser.scoreQualifies in Hsq.
    destruct (Browser.GAMES !! g) as [game|] eqn:Hg; [|done].
    destruct (Browser_GAMES_direction g game Hg) as [d Hd].
    rewrite (computeRank_browser g game d) in * by done.
    pose proof (computeRank_range score (Api.score <$> lb) d
                  Browser.MAX_ENTRIES) as H.
    cbv zeta in H. rewrite length_fmap in H.
    unfold NOT_QUALIFIED, Browser.MAX_ENTRIES in *. lia. }
  set (t := Browser.getRank g score lb) in *.
  cbv zeta. rewrite splice_insert_at by done.
  rewrite pop_take
    by (rewrite length_insert_at; unfold Browser.MAX_ENTRIES; lia).
  change (Z.to_nat Browser.MAX_ENTRIES) with 10%nat.
  split; [done|]. split; [lia|]. split; [done|]. split.
  - rewrite lookup_take_lt by lia. rewrite lookup_insert_at by lia.
    rewrite decide_False by lia. by rewrite decide_True by lia.
  - intros Hroom. apply take_ge. rewrite length_insert_at. lia.
Qed.

Lemma localSubmit_then_read_witness :
  let st := local_after "bedtime-berzerk" [30; 45] None in
  let out := Browser.localSubmitScore "bedtime-berzerk" "Q" 20 7 st in
  (Browser.localGetLeaderboard "bedtime-berzerk" out.2).1
  = take 10 (insert_at (rank out.1) (mkEntry "Q" 20 7)
                       (Browser.localGetLeaderboard "bedtime-berzerk" st).1).
Proof.
  intros st out.
  destruct (localSubmit_then_read "bedtime-berzerk" "Q" 20 7 st)
    as (_ & _ & H & _).
  - by_compute.
  - by_compute.
  - exact H.
Defined.

(** The entry a qualifying submission leaves on the mirror, read back at
    the rank returned. *)
Lemma localSubmitScore_stores_entry g playerName score now st :
  let lb := (Browser.localGetLeaderboard g st).1 in
  Z.of_nat (length lb) <= 10 →
  let out := Browser.localSubmitScore g playerName score now st in
  qualified out.1 = true →
  1 <= rank out.1 <= 10
  ∧ (Browser.localGetLeaderboard g out.2).1 !! Z.to_nat (rank out.1 - 1)
    = Some (mkEntry playerName score now).
Proof.
  intros lb Hlen out Hq. subst out lb.
  destruct (localSubmitScore_cases g playerName score now st)
    as [[Heq _]|(Hsq & Hres & Hlist & _)].
  { rewrite Heq in Hq. done. }
  rewrite Hres, Hlist. cbn [rank]. clear Hres Hlist Hq.
  pose proof (scoreQualifies_getRank _ _ _ Hsq) as Hne.
  set (lb := (Browser.localGetLeaderboard g st).1) in *.
  assert (1 <= Browser.getRank g score lb <= Z.of_nat (length lb) + 1
          ∧ (10 <= Z.of_nat (length lb) →
             Browser.getRank g score lb <= Z.of_nat (length lb)))
    as [Hrange Hfull].
  { unfold Browser.scoreQualifies in Hsq.
    destruct (Browser.GAMES !! g) as [game|] eqn:Hg; [|done].
    destruct (Browser_GAMES_direction g game Hg) as [d Hd].
    rewrite (computeRank_browser g game d) in * by done.
    pose proof (computeRank_range score (Api.score <$> lb) d
                  Browser.MAX_ENTRIES) as H.
    cbv zeta in H. rewrite length_fmap in H.
    unfold NOT_QUALIFIED, Browser.MAX_ENTRIES in *. lia. }
  set (t := Browser.getRank g score lb) in *.
  split; [lia|].
  cbv zeta. rewrite splice_insert_at by done.
  rewrite pop_take
    by (rewrite length_insert_at; unfold Browser.MAX_ENTRIES; lia).
  change (Z.to_nat Browser.MAX_ENTRIES) with 10%nat.
  rewrite lookup_take_lt by lia. rewrite lookup_insert_at by lia.
  rewrite decide_False by lia. by rewrite decide_True by lia.
Qed.

(** X12. The mirror is written only for the submitted game and only when
    the answer is [qualified: true], for game ids that are no inherited
    property names.  The lists of all other games read as before; a
    rejected submission (rank [-1]: unknown game, or a score that does
    not qualify) leaves every list as it was; and a game that is not
    configured is always rejected. *)
Theorem mirror_written_only_when_qualified g playerName score now
    st :
  Js.inherited g = false →
  let out := Browser.localSubmitScore g playerName score now st in
  (∀ g', Js.inherited g' = false → g' ≠ g →
         (Browser.localGetLeaderboard g' out.2).1
         = (Browser.localGetLeaderboard g' st).1)
  ∧ (qualified out.1 = false →
     out.1 = mkResult false (-1) None
     ∧ ∀ g', Js.inherited g' = false →
             (Browser.localGetLeaderboard g' out.2).1
             = (Browser.localGetLeaderboard g' st).1)
  ∧ (Browser.GAMES !! g = None → qualified out.1 = false).
Proof.
  intros _ out. subst out.
  destruct (localSubmitScore_cases g playerName score now st)
    as [[Heq Hwhy]|(Hsq & Hres & _ & Hother)].
  - rewrite Heq. cbn [fst snd].
    split; [intros; apply localGetLeaderboard_init|].
    split; [|done].
    intros _. split; [done|]. intros. apply localGetLeaderboard_init.
  - split; [by intros g' _ Hne; apply Hother|].
    rewrite Hres. cbn [qualified]. split; [done|].
    intros Hg. unfold Browser.scoreQualifies in Hsq. by rewrite Hg in Hsq.
Qed.

Lemma mirror_written_only_when_qualified_witness :
  let st := local_after "snake" full_scores None in
  (Browser.localGetLeaderboard "snake"
     (Browser.localSubmitScore "snake" "Q" 5 1 st).2).1
  = (Browser.localGetLeaderboard "snake" st).1
  ∧ qualified (Browser.localSubmitScore "tetris" "Q" 5 1 st).1 = false.
Proof.
  intros st. split.
  - destruct (mirror_written_only_when_qualified "snake" "Q" 5 1 st)
      as (_ & H & _).
    + reflexivity.
    + refine (proj2 (H _) "snake" _); clear H; by_compute.
  - destruct (mirror_written_only_when_qualified "tetris" "Q" 5 1 st)
      as (_ & _ & H).
    + reflexivity.
    + refine (H _). clear H. by_compute.
Defined.



End MirrorOperations.

(** ** The request handler *)

Section HandlerProperties.
Import Api Spec Abs Examples.

Implicit Types (g gameId playerName : string) (score now : Z).
Implicit Types (tbl : Lambda.Table) (event : Handler.Event).

Lemma truthy_Some (s : option string) :
  Handler.truthy s = true ↔ ∃ x, s = Some x ∧ x ≠ "".
Proof.
  destruct s as [x|]; simpl.
  - destruct (String.eqb_spec x ""); split; try done.
    + intros (? & [= <-] & ?). done.
    + eauto.
  - split; [done|]. by intros (? & ? & ?).
Qed.

Lemma Lambda_GAMES_nonempty g (game : Lambda.Game.t) :
  Lambda.GAMES !! g = Some game → g ≠ "".
Proof. intros H ->. vm_compute in H. discriminate. Qed.

(** The handler on a POST that passes the checks. *)
Lemma handler_POST g playerName score now tbl :
  g ≠ "" → playerName ≠ "" →
  Handler.handler
    (Handler.mkEvent "POST" (Some g)
       (Handler.Fields (Some playerName) (Some score))) now tbl
  = (Handler.mkResponse 200
       (Handler.ResultJson (Lambda.submitScore g playerName score now tbl).1),
     (Lambda.submitScore g playerName score now tbl).2).
Proof.
  intros Hg Hn. unfold Handler.handler. cbn.
  destruct (String.eqb_spec g ""); [done|].
  destruct (String.eqb_spec playerName ""); [done|]. cbn.
  by destruct (Lambda.submitScore g playerName score now tbl).
Qed.

Lemma handler_GET g body now tbl :
  g ≠ "" →
  Handler.handler (Handler.mkEvent "GET" (Some g) body) now tbl
  = (Handler.mkResponse 200
       (Handler.LeaderboardJson (Lambda.getLeaderboard g tbl)), tbl).
Proof.
  intros Hg. unfold Handler.handler. cbn.
  by destruct (String.eqb_spec g "").
Qed.

(** X14. The handler writes only on an accepted POST.  Take a request
    whose game id is no inherited property name and whose score, if the
    body has one, is a safe integer, a safe timestamp and a table of
    safe numbers, so that every write goes through.  Whenever the
    handler leaves the table different from what it was, the request is
    a POST with a non-empty game id and a body that carries a non-empty
    string [playerName] and a [score], the answer is 200 with the result
    of [submitScore], and that result is [qualified: true].  Every other
    request, GET and OPTIONS among them, leaves the table untouched. *)
Theorem handler_writes_only_on_accepted_POST event now tbl :
  Inputs.covered event = true →
  Js.isSafeInteger now = true →
  Inputs.safe_numbers tbl →
  let out := Handler.handler event now tbl in
  out.2 ≠ tbl →
  Handler.httpMethod event = "POST"
  ∧ ∃ g playerName score,
      Handler.gameId event = Some g ∧ g ≠ ""
      ∧ Handler.body event
        = Handler.Fields (Some playerName) (Some score)
      ∧ playerName ≠ ""
      ∧ out = (Handler.mkResponse 200
                 (Handler.ResultJson
                    (Lambda.submitScore g playerName score now tbl).1),
               (Lambda.submitScore g playerName score now tbl).2)
      ∧ qualified (Lambda.submitScore g playerName score now tbl).1 = true.
Proof.
  intros _ _ _ out Hchanged. subst out. unfold Handler.handler in *.
  destruct (String.eqb_spec (Handler.httpMethod event) "OPTIONS"); [done|].
  destruct (String.eqb_spec (Handler.httpMethod event) "GET").
  { by destruct (Handler.truthy (Handler.gameId event)). }
  destruct (String.eqb_spec (Handler.httpMethod event) "POST") as [HP|];
    [|done].
  destruct (Handler.truthy (Handler.gameId event)) eqn:Hg; [|done].
  cbn [andb] in *.
  apply truthy_Some in Hg as (g & Hg & Hne). rewrite Hg in *.
  cbn [default from_option id] in *.
  destruct (Handler.body event) as [|[playerName|] [score|]]; try done.
  destruct (Handler.truthy (Some playerName)) eqn:Hn; [|done].
  apply truthy_Some in Hn as (? & [= <-] & Hn).
  cbn [default from_option id] in *.
  split; [done|]. exists g, playerName, score.
  destruct (Lambda.submitScore g playerName score now tbl) as [r tbl'] eqn:E.
  cbn [fst snd] in *.
  repeat (split; [done|]).
  destruct (qualified r) eqn:Hq; [done|]. exfalso. apply Hchanged.
  pose proof (submitScore_not_qualified g playerName score now tbl) as H.
  rewrite E in H. by apply H.
Qed.

Lemma handler_writes_only_on_accepted_POST_witness :
  let event :=
    Handler.mkEvent "POST" (Some "snake")
                    (Handler.Fields (Some "Q") (Some 7)) in
  Handler.httpMethod event = "POST"
  ∧ ∃ g playerName score,
      Handler.gameId event = Some g ∧ g ≠ ""
      ∧ Handler.body event
        = Handler.Fields (Some playerName) (Some score)
      ∧ playerName ≠ ""
      ∧ Handler.handler event 0 ∅
        = (Handler.mkResponse 200
             (Handler.ResultJson
                (Lambda.submitScore g playerName score 0 ∅).1),
           (Lambda.submitScore g playerName score 0 ∅).2)
      ∧ qualified (Lambda.submitScore g playerName score 0 ∅).1 = true.
Proof.
  intros event.
  apply (handler_writes_only_on_accepted_POST event 0 ∅).
  - reflexivity.
  - reflexivity.
  - apply (bool_decide_unpack _). by_compute.
  - by_compute.
Defined.

(** X15. What a POST is answered, for a non-empty game id that is no
    inherited property name.  A body that carries a non-empty string
    [playerName] and an integer [score] is answered 200 with the result
    of [submitScore], when the score, the timestamp and the numbers of
    the table are safe integers, so that every write goes through.  For
    an unknown game that answer is 200 with
    [{qualified: false, rank: -1, error: 'Unknown game'}] and the table
    is untouched, whatever the score.  A body that parses but lacks the
    score, or the name, or carries the empty name, is answered 400, and
    a body that does not parse 500, the table untouched in both
    cases. *)
Theorem handler_answers_POST g now tbl :
  g ≠ "" → Js.inherited g = false →
  (∀ playerName score,
     playerName ≠ "" →
     Js.isSafeInteger score = true → Js.isSafeInteger now = true →
     Inputs.safe_numbers tbl →
     Handler.handler
       (Handler.mkEvent "POST" (Some g)
          (Handler.Fields (Some playerName) (Some score))) now tbl
     = (Handler.mkResponse 200
          (Handler.ResultJson
             (Lambda.submitScore g playerName score now tbl).1),
        (Lambda.submitScore g playerName score now tbl).2))
  ∧ (∀ playerName score,
       playerName ≠ "" → Lambda.GAMES !! g = None →
       Handler.handler
         (Handler.mkEvent "POST" (Some g)
            (Handler.Fields (Some playerName) (Some score))) now tbl
       = (Handler.mkResponse 200
            (Handler.ResultJson
               (mkResult false (-1) (Some "Unknown game"))), tbl))
  ∧ (∀ (name : option string) (points : option Z),
       name = None ∨ name = Some "" ∨ points = None →
       Handler.handler
         (Handler.mkEvent "POST" (Some g) (Handler.Fields name points))
         now tbl
       = (Handler.mkResponse 400
            (Handler.ErrorJson "playerName and score are required"), tbl))
  ∧ Handler.handler (Handler.mkEvent "POST" (Some g) Handler.Malformed)
                    now tbl
    = (Handler.mkResponse 500 (Handler.ErrorJson "Internal server error"),
       tbl).
Proof.
  intros Hg _. split; [|split; [|split]].
  - intros. by apply handler_POST.
  - intros playerName score Hn Hunknown.
    rewrite handler_POST by done.
    by rewrite submitScore_unknown.
  - intros name points H. unfold Handler.handler. cbn.
    destruct (String.eqb_spec g ""); [done|]. cbn.
    destruct H as [-> | [-> | ->] ]; [by destruct points | by destruct points | ].
    by destruct name as [x|]; [destruct (Handler.truthy (Some x))|].
  - unfold Handler.handler. cbn. by destruct (String.eqb_spec g "").
Qed.

Lemma handler_answers_POST_witness :
  Handler.handler
    (Handler.mkEvent "POST" (Some "homerun-derby")
       (Handler.Fields (Some "Q") (Some 400))) 0 ∅
  = (Handler.mkResponse 200
       (Handler.ResultJson (mkResult false (-1) (Some "Unknown game"))), ∅)
  ∧ Handler.handler
      (Handler.mkEvent "POST" (Some "snake")
         (Handler.Fields (Some "Q") (Some 400))) 0 ∅
    = (Handler.mkResponse 200
         (Handler.ResultJson (Lambda.submitScore "snake" "Q" 400 0 ∅).1),
       (Lambda.submitScore "snake" "Q" 400 0 ∅).2).
Proof.
  split.
  - destruct (handler_answers_POST "homerun-derby" 0 ∅) as (_ & H & _).
    + discriminate.
    + reflexivity.
    + apply (H "Q" 400); [discriminate|reflexivity].
  - destruct (handler_answers_POST "snake" 0 ∅) as (H & _).
    + discriminate.
    + reflexivity.
    + apply (H "Q" 400).
      * discriminate.
      * reflexivity.
      * reflexivity.
      * apply (bool_decide_unpack _). by_compute.
Defined.

(** X16. POST, then GET.  On a partition with ranks exactly [1 .. n],
    [n <= 10], when a POST for a configured game is answered
    [qualified: true] with rank [r], a following GET for the game is
    answered 200 with a list that carries the entry
    [{name cut to 10 characters, score, timestamp of the POST}] at
    position [r], and leaves the table as the POST left it. *)
Theorem POST_then_GET g (game : Lambda.Game.t) playerName score now now'
    body tbl :
  Lambda.GAMES !! g = Some game → playerName ≠ "" →
  let S := Lambda.getLeaderboardWithRanks g tbl in
  dense S → Z.of_nat (length S) <= 10 →
  let post :=
    Handler.handler
      (Handler.mkEvent "POST" (Some g)
         (Handler.Fields (Some playerName) (Some score))) now tbl in
  let get :=
    Handler.handler (Handler.mkEvent "GET" (Some g) body) now' post.2 in
  ∀ r, Handler.payload post.1 = Handler.ResultJson r →
       qualified r = true →
       ∃ l, get = (Handler.mkResponse 200 (Handler.LeaderboardJson l), post.2)
            ∧ l !! Z.to_nat (rank r - 1)
              = Some (mkEntry (Js.substring0 10 playerName) score now).
Proof.
  intros Hg Hn S Hdense Hlen post get r Hr Hq. subst post get.
  pose proof (Lambda_GAMES_nonempty g game Hg) as Hne.
  rewrite handler_POST in * by done. cbn [fst snd Handler.payload] in *.
  injection Hr as <-.
  rewrite handler_GET by done.
  eexists. split; [done|].
  by apply (getLeaderboard_after_submit_lookup g game).
Qed.

Lemma POST_then_GET_witness :
  ∃ l,
    Handler.handler
      (Handler.mkEvent "GET" (Some "snake") (Handler.Fields None None)) 9
      (Handler.handler
         (Handler.mkEvent "POST" (Some "snake")
            (Handler.Fields (Some "ABCDEFGHIJKL") (Some 7))) 5 ∅).2
    = (Handler.mkResponse 200 (Handler.LeaderboardJson l),
       (Handler.handler
          (Handler.mkEvent "POST" (Some "snake")
             (Handler.Fields (Some "ABCDEFGHIJKL") (Some 7))) 5 ∅).2)
    ∧ l !! Z.to_nat (1 - 1) = Some (mkEntry "ABCDEFGHIJ" 7 5).
Proof.
  apply (POST_then_GET "snake" (Lambda.Game.mk "high") "ABCDEFGHIJKL" 7 5 9
           (Handler.Fields None None) ∅ eq_refl)
    with (r := mkResult true 1 None).
  - discriminate.
  - by_compute.
  - by_compute.
  - by_compute.
  - reflexivity.
Defined.

End HandlerProperties.

(** ** The public functions of the browser module *)

Section ClientProperties.
Import Api Spec Abs Examples.

Implicit Types (g gameId playerName : string) (score now serverNow : Z).
Implicit Types (st : Browser.Storage) (tbl : Lambda.Table).
Implicit Types (inputValue : Z → string → string).

(** The name prompt never resolves to the empty name. *)
Lemma showNamePrompt_nonempty inputValue r g :
  Client.showNamePrompt inputValue r g ≠ "".
Proof.
  unfold Client.showNamePrompt. cbv zeta.
  by destruct (String.eqb_spec (inputValue r g) "").
Qed.

(** Reading first does not change what a submission does. *)
Lemma localSubmitScore_init g playerName score now st :
  Browser.localSubmitScore g playerName score now
    (Browser.getLocalLeaderboards st).2
  = Browser.localSubmitScore g playerName score now st.
Proof.
  unfold Browser.localSubmitScore.
  destruct st as [m|]; reflexivity.
Qed.

Lemma localGetLeaderboard_snd g st :
  (Browser.localGetLeaderboard g st).2 = (Browser.getLocalLeaderboards st).2.
Proof.
  unfold Browser.localGetLeaderboard.
  by destruct (Browser.getLocalLeaderboards st).
Qed.

(** [checkAndSubmitScore] in local mode, in terms of the mirror. *)
Lemma local_checkAndSubmitScore_eq {R} (remote : Client.Remote R) inputValue
    g score now (w : Client.World R) :
  let lb := (Browser.localGetLeaderboard g (Client.storage w)).1 in
  let r := Browser.getRank g score lb in
  let sub :=
    Browser.localSubmitScore g (Client.showNamePrompt inputValue r g)
                             score now (Client.storage w) in
  Client.checkAndSubmitScore true remote inputValue g score now w
  = if Browser.scoreQualifies g score lb
    then (sub.1,
          Client.mkWorld sub.2 (Client.server w)
                         (Client.prompts w ++ [(r, g)]) (Client.errors w))
    else (Browser.not_qualified,
          Client.mkWorld (Browser.getLocalLeaderboards (Client.storage w)).2
                         (Client.server w) (Client.prompts w)
                         (Client.errors w)).
Proof.
  cbv zeta. unfold Client.checkAndSubmitScore, Client.getLeaderboard.
  pose proof (localGetLeaderboard_snd g (Client.storage w)) as Hsnd.
  destruct (Browser.localGetLeaderboard g (Client.storage w)) as [lb st1].
  cbn [fst snd] in *. subst st1.
  destruct (Browser.scoreQualifies g score lb); cbn [negb]; [|done].
  cbn [Client.storage Client.server Client.prompts Client.errors].
  rewrite localSubmitScore_init.
  by destruct (Browser.localSubmitScore _ _ _ _ _).
Qed.

(** What [checkAndSubmitScore] does in local mode. *)
Lemma local_checkAndSubmitScore_outcome {R} (remote : Client.Remote R)
    inputValue g score now (w : Client.World R) :
  let lb := (Browser.localGetLeaderboard g (Client.storage w)).1 in
  Z.of_nat (length lb) <= 10 →
  let out :=
    Client.checkAndSubmitScore true remote inputValue g score now w in
  Client.server out.2 = Client.server w
  ∧ Client.errors out.2 = Client.errors w
  ∧ qualified out.1 = Browser.scoreQualifies g score lb
  ∧ (qualified out.1 = false →
     out.1 = mkResult false (-1) None
     ∧ Client.prompts out.2 = Client.prompts w
     ∧ ∀ g', (Browser.localGetLeaderboard g' (Client.storage out.2)).1
             = (Browser.localGetLeaderboard g' (Client.storage w)).1)
  ∧ (qualified out.1 = true →
     1 <= rank out.1 <= 10
     ∧ Client.prompts out.2 = Client.prompts w ++ [(rank out.1, g)]
     ∧ (Browser.localGetLeaderboard g (Client.storage out.2)).1
         !! Z.to_nat (rank out.1 - 1)
       = Some (mkEntry (Client.showNamePrompt inputValue (rank out.1) g)
                       score now)).
Proof.
  intros lb Hlen out. subst out.
  rewrite local_checkAndSubmitScore_eq. fold lb.
  destruct (Browser.scoreQualifies g score lb) eqn:Hsq.
  - cbn [fst snd Client.server Client.errors Client.prompts Client.storage].
    set (name := Client.showNamePrompt inputValue
                   (Browser.getRank g score lb) g).
    destruct (localSubmitScore_cases g name score now (Client.storage w))
      as [[_ [Hg|Hf]]|(_ & Hres & _)].
    { unfold Browser.scoreQualifies in Hsq. by rewrite Hg in Hsq. }
    { fold lb in Hf. congruence. }
    fold lb in Hres.
    pose proof (localSubmitScore_stores_entry g name score now
                  (Client.storage w) Hlen) as Hstored.
    cbv zeta in Hstored. rewrite Hres in Hstored |- *.
    cbn [qualified rank] in *.
    split; [done|]. split; [done|]. split; [done|]. split; [done|].
    intros _. destruct (Hstored eq_refl) as [Hrange Hlook].
    split; [done|]. split; [done|]. exact Hlook.
  - cbn [fst snd Client.server Client.errors Client.prompts Client.storage
         qualified Browser.not_qualified].
    split; [done|]. split; [done|]. split; [done|]. split; [|done].
    intros _. split; [done|]. split; [done|].
    intros g'. apply localGetLeaderboard_init.
Qed.

(** X17. [checkAndSubmitScore] in local mode, for a game id that is no
    inherited property name.  It never touches the server and logs
    nothing.  The player is asked for a name exactly when the score
    makes the stored list; the rank shown in the prompt is the rank the
    call returns, and, the stored list holding at most 10 entries, the
    position at which the entry [{prompted name, score, timestamp}] is
    read back.  A score that does not qualify returns
    [{qualified: false, rank: -1}] without a prompt and leaves every
    list as it was. *)
Theorem checkAndSubmitScore_local {R} (remote : Client.Remote R) inputValue
    g score now (w : Client.World R) :
  Js.inherited g = false →
  let lb := (Browser.localGetLeaderboard g (Client.storage w)).1 in
  Z.of_nat (length lb) <= 10 →
  let out :=
    Client.checkAndSubmitScore true remote inputValue g score now w in
  Client.server out.2 = Client.server w
  ∧ Client.errors out.2 = Client.errors w
  ∧ qualified out.1 = Browser.scoreQualifies g score lb
  ∧ (qualified out.1 = false →
     out.1 = mkResult false (-1) None
     ∧ Client.prompts out.2 = Client.prompts w
     ∧ ∀ g', Js.inherited g' = false →
             (Browser.localGetLeaderboard g' (Client.storage out.2)).1
             = (Browser.localGetLeaderboard g' (Client.storage w)).1)
  ∧ (qualified out.1 = true →
     1 <= rank out.1 <= 10
     ∧ Client.prompts out.2 = Client.prompts w ++ [(rank out.1, g)]
     ∧ (Browser.localGetLeaderboard g (Client.storage out.2)).1
         !! Z.to_nat (rank out.1 - 1)
       = Some (mkEntry (Client.showNamePrompt inputValue (rank out.1) g)
                       score now)).
Proof.
  intros _ lb Hlen out.
  destruct (local_checkAndSubmitScore_outcome remote inputValue g score now
              w Hlen) as (Hsrv & Herr & Hq & Hno & Hyes).
  fold lb out in Hsrv, Herr, Hq, Hno, Hyes.
  split; [done|]. split; [done|]. split; [done|]. split; [|done].
  intros Hf. destruct (Hno Hf) as (Hres & Hprompts & Hread).
  split; [done|]. split; [done|]. intros g' _. apply Hread.
Qed.

Lemma checkAndSubmitScore_local_witness :
  let w := Client.mkWorld (local_after "snake" [100; 90] None) ()
                          [] [] in
  let out :=
    Client.checkAndSubmitScore true Deployed.unreachable (λ _ _, "")
                               "snake" 95 7 w in
  (Browser.localGetLeaderboard "snake" (Client.storage out.2)).1
    !! Z.to_nat (rank out.1 - 1)
  = Some (mkEntry (Client.showNamePrompt (λ _ _, "") (rank out.1) "snake")
                  95 7).
Proof.
  intros w out.
  destruct (checkAndSubmitScore_local Deployed.unreachable (λ _ _, "")
              "snake" 95 7 w) as (_ & _ & _ & _ & H).
  - reflexivity.
  - by_compute.
  - refine (proj2 (proj2 (H _))). clear H. by_compute.
Defined.

(** With its request failing, [getLeaderboard] reads the mirror. *)
Lemma getLeaderboard_fallback {R} (remote : Client.Remote R) g
    (w : Client.World R) :
  Browser.try_fetch (Client.fetch_scores_of remote g (Client.server w))
  = None →
  Client.getLeaderboard false remote g w
  = ((Browser.localGetLeaderboard g (Client.storage w)).1,
     Client.mkWorld (Browser.getLocalLeaderboards (Client.storage w)).2
                    (Client.server w) (Client.prompts w)
                    (Client.errors w ++ ["Failed to fetch leaderboard:"])).
Proof.
  intros Hfail. unfold Client.getLeaderboard, Browser.apiGetLeaderboard.
  rewrite Hfail.
  pose proof (localGetLeaderboard_snd g (Client.storage w)) as Hsnd.
  destruct (Browser.localGetLeaderboard g (Client.storage w)) as [lb st1].
  cbn [fst snd] in *. by subst st1.
Qed.

Lemma getLeaderboard_local {R} (remote : Client.Remote R) g
    (w : Client.World R) :
  Client.getLeaderboard true remote g w
  = ((Browser.localGetLeaderboard g (Client.storage w)).1,
     Client.mkWorld (Browser.getLocalLeaderboards (Client.storage w)).2
                    (Client.server w) (Client.prompts w) (Client.errors w)).
Proof.
  unfold Client.getLeaderboard.
  pose proof (localGetLeaderboard_snd g (Client.storage w)) as Hsnd.
  destruct (Browser.localGetLeaderboard g (Client.storage w)) as [lb st1].
  cbn [fst snd] in *. by subst st1.
Qed.

(** X18. A server that fails.  When the requests fail (the [fetch]
    throws, the status is not OK, or the body does not parse), the
    deployed module answers as the local one does on the same storage:
    [getLeaderboard], [getAllLeaderboards] and [checkAndSubmitScore]
    return the same value, leave the same storage and show the same
    prompts.  The only difference is one line logged with
    [console.error] per failed request: one for a read, and for
    [checkAndSubmitScore] a second one when the score qualified and the
    POST was tried. *)
Theorem failing_server_behaves_as_local {R} (remote : Client.Remote R)
    inputValue (w : Client.World R) :
  (∀ g srv, Browser.try_fetch (Client.fetch_scores_of remote g srv) = None) →
  (∀ srv, Browser.try_fetch (Client.fetch_scores remote srv) = None) →
  (∀ g playerName score srv,
     Browser.try_fetch (Client.post_score remote g playerName score srv).1
     = None) →
  (∀ g,
     let off := Client.getLeaderboard false remote g w in
     let loc := Client.getLeaderboard true remote g w in
     off.1 = loc.1 ∧ Client.storage off.2 = Client.storage loc.2
     ∧ Client.errors off.2
       = Client.errors w ++ ["Failed to fetch leaderboard:"])
  ∧ (let off := Client.getAllLeaderboards false remote w in
     let loc := Client.getAllLeaderboards true remote w in
     off.1 = loc.1 ∧ Client.storage off.2 = Client.storage loc.2
     ∧ Client.errors off.2
       = Client.errors w ++ ["Failed to fetch all leaderboards:"])
  ∧ (∀ g score now,
       let off :=
         Client.checkAndSubmitScore false remote inputValue g score now w in
       let loc :=
         Client.checkAndSubmitScore true remote inputValue g score now w in
       off.1 = loc.1 ∧ Client.storage off.2 = Client.storage loc.2
       ∧ Client.prompts off.2 = Client.prompts loc.2
       ∧ Client.errors off.2
         = Client.errors w ++ "Failed to fetch leaderboard:"
             :: (if qualified off.1
                 then ["Failed to submit score:"] else [])).
Proof.
  intros Hget Hall Hpost. split; [|split].
  - intros g. cbv zeta.
    rewrite getLeaderboard_fallback by apply Hget.
    by rewrite getLeaderboard_local.
  - cbv zeta. unfold Client.getAllLeaderboards, Browser.apiGetAllLeaderboards.
    rewrite Hall.
    by destruct (Browser.localGetAllLeaderboards (Client.storage w)).
  - intros g score now. cbv zeta.
    rewrite local_checkAndSubmitScore_eq.
    unfold Client.checkAndSubmitScore.
    rewrite getLeaderboard_fallback by apply Hget.
    set (lb := (Browser.localGetLeaderboard g (Client.storage w)).1).
    destruct (Browser.scoreQualifies g score lb) eqn:Hsq; cbn [negb];
      [|done].
    cbn [Client.storage Client.server Client.prompts Client.errors].
    destruct (Client.post_score remote g
                (Client.showNamePrompt inputValue
                   (Browser.getRank g score lb) g) score (Client.server w))
      as [outcome srv] eqn:E.
    pose proof (Hpost g (Client.showNamePrompt inputValue
                           (Browser.getRank g score lb) g)
                  score (Client.server w)) as Hfail.
    rewrite E in Hfail. cbn [fst] in Hfail.
    unfold Browser.apiSubmitScore. rewrite Hfail.
    rewrite localSubmitScore_init.
    destruct (localSubmitScore_cases g
                (Client.showNamePrompt inputValue
                   (Browser.getRank g score lb) g) score now
                (Client.storage w))
      as [[_ [Hg|Hf]]|(_ & Hres & _)].
    { unfold Browser.scoreQualifies in Hsq. by rewrite Hg in Hsq. }
    { fold lb in Hf. congruence. }
    fold lb in Hres.
    destruct (Browser.localSubmitScore _ _ _ _ _) as [res st'].
    cbn [fst snd Client.storage Client.prompts Client.errors] in *.
    subst res. cbn [qualified]. by rewrite <- app_assoc.
Qed.

Lemma failing_server_behaves_as_local_witness :
  let w := Client.mkWorld (local_after "snake" [100; 90] None) () [] [] in
  let off :=
    Client.checkAndSubmitScore false Deployed.unreachable (λ _ _, "Q")
                               "snake" 95 7 w in
  let loc :=
    Client.checkAndSubmitScore true Deployed.unreachable (λ _ _, "Q")
                               "snake" 95 7 w in
  off.1 = loc.1 ∧ Client.storage off.2 = Client.storage loc.2
  ∧ Client.prompts off.2 = Client.prompts loc.2
  ∧ Client.errors off.2
    = Client.errors w ++ "Failed to fetch leaderboard:"
        :: (if qualified off.1 then ["Failed to submit score:"] else []).
Proof.
  intros w.
  destruct (failing_server_behaves_as_local Deployed.unreachable
              (λ _ _, "Q") w) as (_ & _ & H).
  - reflexivity.
  - reflexivity.
  - reflexivity.
  - exact (H "snake" 95 7).
Defined.

(** What the deployed module gets from the Lambda. *)
Lemma lambda_fetch_scores_of serverNow g tbl :
  g ≠ "" →
  Client.fetch_scores_of (Deployed.lambda serverNow) g tbl
  = Browser.ResponseOk (Lambda.getLeaderboard g tbl).
Proof.
  intros Hg. cbn [Deployed.lambda Client.fetch_scores_of].
  by rewrite handler_GET.
Qed.

Lemma lambda_post_score serverNow g playerName score tbl :
  g ≠ "" → playerName ≠ "" →
  Client.post_score (Deployed.lambda serverNow) g playerName score tbl
  = (Browser.ResponseOk
       (Lambda.submitScore g playerName score serverNow tbl).1,
     (Lambda.submitScore g playerName score serverNow tbl).2).
Proof.
  intros Hg Hn. cbn [Deployed.lambda Client.post_score]. cbv zeta.
  by rewrite handler_POST.
Qed.

Lemma Browser_GAMES_nonempty g (bgame : Browser.Game) :
  Browser.GAMES !! g = Some bgame → g ≠ "".
Proof. intros H ->. vm_compute in H. discriminate. Qed.

(** [checkAndSubmitScore] against the Lambda, in terms of
    [Lambda.submitScore]. *)
Lemma checkAndSubmitScore_lambda_eq serverNow inputValue g score now
    (w : Client.World Lambda.Table) :
  g ≠ "" →
  let tbl := Client.server w in
  let lb := Lambda.getLeaderboard g tbl in
  let r := Browser.getRank g score lb in
  let sub :=
    Lambda.submitScore g (Client.showNamePrompt inputValue r g) score
                       serverNow tbl in
  Client.checkAndSubmitScore false (Deployed.lambda serverNow) inputValue
                             g score now w
  = if Browser.scoreQualifies g score lb
    then (sub.1,
          Client.mkWorld (Client.storage w) sub.2
                         (Client.prompts w ++ [(r, g)]) (Client.errors w))
    else (Browser.not_qualified, w).
Proof.
  intros Hg. cbv zeta.
  unfold Client.checkAndSubmitScore, Client.getLeaderboard.
  rewrite lambda_fetch_scores_of by done.
  unfold Browser.apiGetLeaderboard. cbn [Browser.try_fetch].
  rewrite app_nil_r.
  destruct (Browser.scoreQualifies g score _); cbn [negb].
  - cbn [Client.storage Client.server Client.prompts Client.errors].
    rewrite lambda_post_score by (done || apply showNamePrompt_nonempty).
    unfold Browser.apiSubmitScore. cbn [Browser.try_fetch].
    by rewrite app_nil_r.
  - by destruct w.
Qed.



(** X20. A game the browser knows and the Lambda does not.  When the
    score qualifies on the list read from the server, the player is
    shown the prompt with a rank from 1 on, and the POST is then
    answered 200 with
    [{qualified: false, rank: -1, error: 'Unknown game'}]: this is what
    the call returns, and the score is stored nowhere, neither in the
    table nor, the response being OK, in the browser's storage. *)
Theorem prompted_but_unknown_to_lambda g (bgame : Browser.Game) serverNow
    inputValue score now (w : Client.World Lambda.Table) :
  Browser.GAMES !! g = Some bgame → Lambda.GAMES !! g = None →
  let lb := Lambda.getLeaderboard g (Client.server w) in
  Browser.scoreQualifies g score lb = true →
  let out :=
    Client.checkAndSubmitScore false (Deployed.lambda serverNow) inputValue
                               g score now w in
  out.1 = mkResult false (-1) (Some "Unknown game")
  ∧ Client.prompts out.2
    = Client.prompts w ++ [(Browser.getRank g score lb, g)]
  ∧ 1 <= Browser.getRank g score lb
  ∧ Client.server out.2 = Client.server w
  ∧ Client.storage out.2 = Client.storage w.
Proof.
  intros Hb Hunknown lb Hsq out. subst out.
  pose proof (Browser_GAMES_nonempty g bgame Hb) as Hne.
  rewrite checkAndSubmitScore_lambda_eq by done. fold lb. rewrite Hsq.
  rewrite submitScore_unknown by done. cbn [fst snd].
  cbn [Client.storage Client.errors Client.prompts Client.server].
  split; [done|]. split; [done|]. split; [|done].
  pose proof (scoreQualifies_getRank _ _ _ Hsq) as Hq.
  destruct (Browser_GAMES_direction g bgame Hb) as [d Hd].
  rewrite (computeRank_browser g bgame d) in * by done.
  pose proof (computeRank_range score (Api.score <$> lb) d
                Browser.MAX_ENTRIES) as H.
  cbv zeta in H. unfold NOT_QUALIFIED in *. lia.
Qed.

Lemma prompted_but_unknown_to_lambda_witness :
  let w := Client.mkWorld None (∅ : Lambda.Table) [] [] in
  let out :=
    Client.checkAndSubmitScore false (Deployed.lambda 99) (λ _ _, "Q")
                               "homerun-derby" 400 7 w in
  out.1 = mkResult false (-1) (Some "Unknown game")
  ∧ Client.prompts out.2 = [(1, "homerun-derby")]
  ∧ Client.server out.2 = ∅ ∧ Client.storage out.2 = None.
Proof.
  intros w out.
  destruct (prompted_but_unknown_to_lambda
              "homerun-derby" (Browser.mkGame "Homerun Derby" "high" "feet")
              99 (λ _ _, "Q") 400 7 w eq_refl eq_refl)
    as (H1 & H2 & _ & H4 & H5).
  - by_compute.
  - exact (conj H1 (conj H2 (conj H4 H5))).
Defined.

(** ** Player names *)




End ClientProperties.

(** ** The display of a time *)

Section DisplayProperties.

Implicit Types (g gameId : string) (score : Z).

Lemma pretty_N_go_no_colon (x : N) (s : string) :
  Display.has_colon s = false → Display.has_colon (pretty_N_go x s) = false.
Proof.
  revert s. induction (N.lt_wf_0 x) as [x _ IH]. intros s Hs.
  destruct (decide (0 < x)%N) as [Hx|Hx].
  - rewrite pretty_N_go_step by done. apply IH; [by apply N.div_lt|].
    cbn [Display.has_colon]. rewrite Hs. unfold pretty_N_char.
    by repeat case_match.
  - assert (x = 0%N) as -> by lia. by rewrite pretty_N_go_0.
Qed.

Lemma toString_no_colon (n : Z) :
  0 <= n → Display.has_colon (Display.toString n) = false.
Proof.
  intros Hn. unfold Display.toString, pretty, pretty_Z.
  destruct n as [|p|p]; [done| |lia].
  unfold pretty, pretty_positive, pretty, pretty_N.
  rewrite decide_False by done. by apply pretty_N_go_no_colon.
Qed.

(** A string is cut at its first colon in one way only. *)
Lemma split_at_colon (a c b d : string) :
  Display.has_colon a = false → Display.has_colon c = false →
  a +:+ ":" +:+ b = c +:+ ":" +:+ d → a = c ∧ b = d.
Proof.
  revert c. induction a as [|x a IH]; intros [|y c] Ha Hc Heq;
    cbv [String.append] in Heq; fold String.append in Heq.
  - injection Heq as ->. done.
  - injection Heq as <- _. cbn in Hc. discriminate.
  - injection Heq as -> _. cbn in Ha. discriminate.
  - injection Heq as -> Heq.
    cbn [Display.has_colon] in Ha, Hc.
    apply orb_false_elim in Ha as [_ Ha].
    apply orb_false_elim in Hc as [_ Hc].
    destruct (IH c Ha Hc Heq) as [-> ->]. done.
Qed.

(** The two-character seconds field tells the seconds apart. *)
Lemma seconds_field_inj (a b : Z) :
  0 <= a < 60 → 0 <= b < 60 →
  Display.padStart 2 (Display.toString a)
  = Display.padStart 2 (Display.toString b) →
  a = b.
Proof.
  intros Ha Hb Heq.
  pose (f := λ x : Z, Display.padStart 2 (Display.toString x)).
  assert (NoDup (f <$> seqZ 0 60)) as Hnd.
  { apply (bool_decide_unpack _). vm_compute. exact I. }
  assert ((f <$> seqZ 0 60) !! Z.to_nat a = Some (f a)) as Hia.
  { rewrite list_lookup_fmap, lookup_seqZ_lt by lia.
    cbn [fmap option_fmap option_map].
    by replace (0 + Z.of_nat (Z.to_nat a)) with a by lia. }
  assert ((f <$> seqZ 0 60) !! Z.to_nat b = Some (f a)) as Hib.
  { rewrite list_lookup_fmap, lookup_seqZ_lt by lia.
    cbn [fmap option_fmap option_map].
    replace (0 + Z.of_nat (Z.to_nat b)) with b by lia.
    unfold f. by rewrite Heq. }
  pose proof (NoDup_lookup _ _ _ _ Hnd Hia Hib). lia.
Qed.

(** X21. The display of a time tells whole seconds apart.  For a game
    whose metric is ['time'], two non-negative scores in milliseconds
    are shown the same by [formatScore] exactly when they lie in the
    same second; the locale plays no role. *)
Theorem formatScore_time_tells_seconds_apart (toLocaleString : Z → string)
    g (game : Browser.Game) score1 score2 :
  Browser.GAMES !! g = Some game → Browser.metric game = "time" →
  0 <= score1 → 0 <= score2 →
  Display.formatScore toLocaleString g score1
  = Display.formatScore toLocaleString g score2
  ↔ score1 / 1000 = score2 / 1000.
Proof.
  intros Hg Hm H1 H2. unfold Display.formatScore. rewrite Hg, Hm.
  cbn [String.eqb Ascii.eqb Bool.eqb]. cbv zeta.
  split; [|by intros ->].
  intros Heq.
  assert (0 <= score1 / 1000) as Ht1 by (apply Z.div_pos; lia).
  assert (0 <= score2 / 1000) as Ht2 by (apply Z.div_pos; lia).
  set (t1 := score1 / 1000) in *. set (t2 := score2 / 1000) in *.
  rewrite !Z.rem_mod_nonneg in Heq by lia.
  apply split_at_colon in Heq as [Hmin Hsec];
    [|apply toString_no_colon, Z.div_pos; lia..].
  apply (inj pretty) in Hmin.
  apply seconds_field_inj in Hsec;
    [|apply Z.mod_pos_bound; lia..].
  rewrite (Z.div_mod t1 60), (Z.div_mod t2 60) by lia. lia.
Qed.

Lemma formatScore_time_tells_seconds_apart_witness :
  Display.formatScore (λ _, "") "bedtime-berzerk" 61000
  = Display.formatScore (λ _, "") "bedtime-berzerk" 61999.
Proof.
  apply (formatScore_time_tells_seconds_apart
           (λ _, "") "bedtime-berzerk"
           (Browser.mkGame "Bedtime Berzerk" "low" "time") 61000 61999).
  - reflexivity.
  - reflexivity.
  - lia.
  - lia.
  - reflexivity.
Defined.

End DisplayProperties.
